(** * Collaborative drawing canvas: the room server

    A shallow embedding of the websocket server of the collaborative
    canvas (the connection handler, [getRoom], [assignColor] and
    [broadcastToRoom]), of the client's [handleMessage] and
    [redrawHistory], of the pen of its [DrawingCanvas], and of what the
    JSON encoding between them does to a value, followed by the
    properties of the room state, of the undo/redo stacks, of the
    broadcast fan-out, of the pen, and of server and clients together. *)

From Stdlib Require Import ZArith Lia.
From stdpp Require Import base decidable countable list strings gmap.

Local Open Scope string_scope.
Local Open Scope nat_scope.

(** ** JavaScript values

    The values the server handles come out of [JSON.parse].  Primitives
    are carried as they are: a numeric literal as an integer (the server
    never computes with one), but for a literal too large for a double,
    such as [1e999] or [-1e999], which decodes to [Infinity] or
    [-Infinity].  An array or an object is carried as its heap
    reference, since the server only stores it, forwards it, or compares
    it by identity ([===], [Map] keys). *)

Inductive jsval : Type :=
  | Undefined
  | Null
  | Bool (b : bool)
  | Num (n : Z)
  | Inf (negative : bool)
  | Str (s : string)
  | Ref (a : nat).

#[global] Instance jsval_eq_dec : EqDecision jsval.
Proof. solve_decision. Defined.

Definition jsval_enc (v : jsval) : unit + (unit + (bool + (Z + (bool + (string + nat))))) :=
  match v with
  | Undefined => inl tt
  | Null => inr (inl tt)
  | Bool b => inr (inr (inl b))
  | Num n => inr (inr (inr (inl n)))
  | Inf b => inr (inr (inr (inr (inl b))))
  | Str s => inr (inr (inr (inr (inr (inl s)))))
  | Ref a => inr (inr (inr (inr (inr (inr a)))))
  end.

Definition jsval_dec (e : unit + (unit + (bool + (Z + (bool + (string + nat)))))) : jsval :=
  match e with
  | inl _ => Undefined
  | inr (inl _) => Null
  | inr (inr (inl b)) => Bool b
  | inr (inr (inr (inl n))) => Num n
  | inr (inr (inr (inr (inl b)))) => Inf b
  | inr (inr (inr (inr (inr (inl s))))) => Str s
  | inr (inr (inr (inr (inr (inr a))))) => Ref a
  end.

#[global] Instance jsval_countable : Countable jsval.
Proof. refine (inj_countable' jsval_enc jsval_dec _). by intros []. Defined.

(** [a === b] on the values above. *)
Definition strict_eq (a b : jsval) : bool :=
  match a, b with
  | Undefined, Undefined => true
  | Null, Null => true
  | Bool x, Bool y => Bool.eqb x y
  | Num x, Num y => (x =? y)%Z
  | Inf x, Inf y => Bool.eqb x y
  | Str x, Str y => String.eqb x y
  | Ref x, Ref y => (x =? y)%nat
  | _, _ => false
  end.

(** Truthiness, and [a || b]. *)
Definition truthy (v : jsval) : bool :=
  match v with
  | Undefined | Null => false
  | Bool b => b
  | Num n => negb (n =? 0)%Z
  | Inf _ => true
  | Str s => negb (String.eqb s "")
  | Ref _ => true
  end.

Definition js_or (a b : jsval) : jsval := if truthy a then a else b.

(** ** Arrays used as stacks *)

(** [a.push(x)] *)
Definition push {A : Type} (a : list A) (x : A) : list A := a ++ [x].

(** [a.pop()]: the last element, if any, and the array without it. *)
Definition pop {A : Type} (a : list A) : option A * list A :=
  match rev a with
  | [] => (None, a)
  | x :: r => (Some x, rev r)
  end.

(** ** Room state *)

(** One live segment: [{ userId, type: message.tool, data: message.data }]. *)
Record action : Type := Action {
  a_userId : jsval;
  a_type : jsval;
  a_data : jsval
}.

(** A stroke is the array of segments between press and release. *)
Definition stroke : Type := list action.

Record user : Type := User {
  u_userName : jsval;
  u_color : jsval
}.

(** [users] is a [Map]: insertion ordered, one entry per key. *)
Record room : Type := Room {
  users : list (jsval * user);
  history : list stroke;
  redoStack : list stroke
}.

(** [Map.prototype.set] *)
Fixpoint map_set (k : jsval) (v : user) (m : list (jsval * user)) : list (jsval * user) :=
  match m with
  | [] => [(k, v)]
  | (k', v') :: m' =>
      if strict_eq k' k then (k, v) :: m' else (k', v') :: map_set k v m'
  end.

(** [Map.prototype.delete] *)
Fixpoint map_delete (k : jsval) (m : list (jsval * user)) : list (jsval * user) :=
  match m with
  | [] => []
  | (k', v') :: m' =>
      if strict_eq k' k then m' else (k', v') :: map_delete k m'
  end.

Definition new_room : room := {| users := []; history := []; redoStack := [] |}.

(** [getRoom(roomId)]: the registry after the call, and the room it returns. *)
Definition getRoom (rooms : gmap jsval room) (roomId : jsval) : gmap jsval room * room :=
  match rooms !! roomId with
  | Some r => (rooms, r)
  | None => (<[roomId := new_room]> rooms, new_room)
  end.

Definition colors : list jsval :=
  [Str "#FF6B6B"; Str "#4ECDC4"; Str "#45B7D1"; Str "#FFA07A"; Str "#98D8C8"; Str "#F7DC6F"].

(** *** Doubles

    A finite double is an integer of at most 53 bits times a power of
    two, the exponent being at least -1074: [mant * 2 ^ expo]. *)
Record double : Type := Double {
  mant : Z;
  expo : Z
}.

(** What [Math.random()] may return: a double [x] with [0 <= x < 1],
    the latter being [mant < 2 ^ (- expo)]. *)
Definition unit_double (d : double) : Prop :=
  (0 ≤ mant d < 2 ^ 53)%Z ∧ (-1074 ≤ expo d)%Z ∧ (mant d < 2 ^ (- expo d))%Z.

#[global] Instance unit_double_dec d : Decision (unit_double d).
Proof. unfold unit_double. apply _. Defined.

(** The low bits an integer has beyond the 53 bits a double keeps. *)
Definition excess (m : Z) : Z := Z.max 0 (Z.log2 m - 52).

(** [m / 2 ^ s] rounded to the nearest integer, a tie going to the even
    one: the rounding of the double arithmetic. *)
Definition round_shift (m s : Z) : Z :=
  let q := Z.shiftr m s in
  let r := (m - Z.shiftl q s)%Z in
  let half := Z.shiftl 1 (s - 1) in
  if (s =? 0)%Z then m
  else if (r <? half)%Z then q
  else if (half <? r)%Z then (q + 1)%Z
  else if Z.even q then q else (q + 1)%Z.

(** [d * n] for a double [d] that is not negative and an array length
    [n]: the exact product, rounded to 53 bits.  The exponent can only
    grow, so the result is no subnormal unless the product is exact. *)
Definition double_mul (d : double) (n : nat) : double :=
  let m := (mant d * Z.of_nat n)%Z in
  {| mant := round_shift m (excess m); expo := (expo d + excess m)%Z |}.

(** [Math.floor(d)] *)
Definition double_floor (d : double) : Z := Z.shiftl (mant d) (expo d).

(** [assignColor()], given the value [rnd] that [Math.random()] returns. *)
Definition assignColor (rnd : double) : jsval :=
  let k := double_floor (double_mul rnd (length colors)) in
  if (k <? 0)%Z then Undefined else default Undefined (colors !! Z.to_nat k).

(** ** Messages *)

(** A decoded client message, with the fields the server reads; a field
    the object does not have reads as [Undefined]. *)
Record message : Type := Message {
  m_type : jsval;
  m_userId : jsval;
  m_userName : jsval;
  m_roomId : jsval;
  m_tool : jsval;
  m_data : jsval;
  m_x : jsval;
  m_y : jsval
}.

(** What [JSON.parse(data)] makes of an inbound frame: it throws, it
    yields [null], or it yields a value whose properties can be read (for
    a number, a string, a boolean or an array every field above reads as
    [Undefined]). *)
Inductive frame : Type :=
  | Unparsable
  | ParsedNull
  | Parsed (m : message).

(** The [case] labels of the handler's [switch (message.type)]. *)
Inductive label : Type :=
  | LJoin | LStartStroke | LDraw | LEndStroke | LCursor | LUndo | LRedo | LClear.

#[global] Instance label_eq_dec : EqDecision label.
Proof. solve_decision. Defined.

(** The label a [message.type] selects, by [===] against the string
    literals in source order; [None] when no [case] matches. *)
Definition case_of (t : jsval) : option label :=
  if strict_eq t (Str "join") then Some LJoin
  else if strict_eq t (Str "startStroke") then Some LStartStroke
  else if strict_eq t (Str "draw") then Some LDraw
  else if strict_eq t (Str "endStroke") then Some LEndStroke
  else if strict_eq t (Str "cursor") then Some LCursor
  else if strict_eq t (Str "undo") then Some LUndo
  else if strict_eq t (Str "redo") then Some LRedo
  else if strict_eq t (Str "clear") then Some LClear
  else None.

(** Server to client messages. *)
Inductive out_msg : Type :=
  | Joined (color : jsval) (roster : list (jsval * user)) (h : list stroke)
  | UserJoined (uid uname color : jsval)
  | Draw (a : action)
  | CursorMove (uid uname color x y : jsval)
  | History (h : list stroke)
  | UserLeft (uid : jsval).

(** ** The wire

    What [JSON.parse] at the receiving end makes of what
    [JSON.stringify] wrote for a value.  An infinity is written as
    [null].  The other primitives come back as they were; a property
    that is [undefined] is left out and reads as [undefined] again (no
    message has an array with such an element).  An array or an object
    comes back as a copy, which goes by the reference of the original. *)
Definition json (v : jsval) : jsval :=
  match v with
  | Inf _ => Null
  | _ => v
  end.

Definition json_action (a : action) : action :=
  {| a_userId := json (a_userId a); a_type := json (a_type a); a_data := json (a_data a) |}.

Definition json_user (u : user) : user :=
  {| u_userName := json (u_userName u); u_color := json (u_color u) |}.

(** A message of the server as the client decodes it. *)
Definition json_msg (m : out_msg) : out_msg :=
  match m with
  | Joined color roster h =>
      Joined (json color) (map (fun e => (json e.1, json_user e.2)) roster)
        (map (map json_action) h)
  | UserJoined uid uname color => UserJoined (json uid) (json uname) (json color)
  | Draw a => Draw (json_action a)
  | CursorMove uid uname color x y =>
      CursorMove (json uid) (json uname) (json color) (json x) (json y)
  | History h => History (map (map json_action) h)
  | UserLeft uid => UserLeft (json uid)
  end.

(** ** Connections and the server *)

(** One websocket connection: the socket's [readyState] and the
    [roomId]/[userId] properties that [join] sets on it, then the
    variables of the connection handler's closure. *)
Record conn : Type := Conn {
  readyState : nat;
  ws_roomId : jsval;
  ws_userId : jsval;
  userId : jsval;
  userName : jsval;
  userColor : jsval;
  roomId : jsval;
  currentStroke : list action
}.

(** The state of a connection when the [connection] event fires. *)
Definition new_conn : conn :=
  {| readyState := 1; ws_roomId := Undefined; ws_userId := Undefined;
     userId := Null; userName := Null; userColor := Null;
     roomId := Str "default"; currentStroke := [] |}.

(** [rooms] and [wss.clients]; a connection is named by its position in
    [clients], which lists the sockets in the order they connected. *)
Record server : Type := Server {
  rooms : gmap jsval room;
  clients : list conn
}.

Definition initial : server := {| rooms := ∅; clients := [] |}.

(** The room [getRoom] returns for an identifier. *)
Definition the_room (s : server) (rid : jsval) : room := (getRoom (rooms s) rid).2.

(** ** Effects of a handler

    What a handler sends, socket by socket and in order; whether its
    [catch] block logged an error; how it completed. *)

Inductive completion : Type := Normal | Throw.

Record effects : Type := Effects {
  sent : list (nat * out_msg);
  logged : bool;
  outcome : completion
}.

Definition nothing : effects := {| sent := []; logged := false; outcome := Normal |}.

Definition thrown : effects := {| sent := []; logged := false; outcome := Throw |}.

(** [e1; e2]: [e2] runs only if [e1] completed normally. *)
Definition andThen (e1 e2 : effects) : effects :=
  match outcome e1 with
  | Throw => e1
  | Normal =>
      {| sent := sent e1 ++ sent e2; logged := logged e1 || logged e2; outcome := outcome e2 |}
  end.

(** [try { e } catch (err) { console.error(..., err) }] *)
Definition try_catch (e : effects) : effects :=
  match outcome e with
  | Normal => e
  | Throw => {| sent := sent e; logged := true; outcome := Normal |}
  end.

Section Server.

(** The transport: whether [send] on the socket of a connection throws. *)
Variable send_throws : nat -> bool.

(** [ws.send(JSON.stringify(m))] on connection [i]. *)
Definition ws_send (i : nat) (m : out_msg) : effects :=
  if send_throws i then thrown
  else {| sent := [(i, m)]; logged := false; outcome := Normal |}.

(** [wss.clients.forEach(f)], the first socket of [cs] being number [i]. *)
Fixpoint forEach (i : nat) (cs : list conn) (f : nat -> conn -> effects) : effects :=
  match cs with
  | [] => nothing
  | client :: cs' => andThen (f i client) (forEach (S i) cs' f)
  end.

Definition broadcastToRoom (cs : list conn) (rid : jsval) (m : out_msg) : effects :=
  forEach 0 cs (fun i client =>
    if (readyState client =? 1) && strict_eq (ws_roomId client) rid
    then ws_send i m
    else nothing).

(** *** The cases of the message handler

    Each takes the server, the number [i] of the connection and its
    state [c], and returns the server after the case and what was sent. *)

Definition case_join (s : server) (i : nat) (c : conn) (rnd : double) (msg : message)
  : server * effects :=
  let userId' := m_userId msg in
  let userName' := m_userName msg in
  let roomId' := js_or (m_roomId msg) (Str "default") in
  let userColor' := assignColor rnd in
  let '(rooms1, r) := getRoom (rooms s) roomId' in
  let r' := {| users := map_set userId' (User userName' userColor') (users r);
               history := history r; redoStack := redoStack r |} in
  let c' := {| readyState := readyState c; ws_roomId := roomId'; ws_userId := userId';
               userId := userId'; userName := userName'; userColor := userColor';
               roomId := roomId'; currentStroke := currentStroke c |} in
  let s' := {| rooms := <[roomId' := r']> rooms1; clients := <[i := c']> (clients s) |} in
  (s', andThen (ws_send i (Joined userColor' (users r') (history r')))
               (broadcastToRoom (clients s') roomId' (UserJoined userId' userName' userColor'))).

Definition set_currentStroke (c : conn) (cur : list action) : conn :=
  {| readyState := readyState c; ws_roomId := ws_roomId c; ws_userId := ws_userId c;
     userId := userId c; userName := userName c; userColor := userColor c;
     roomId := roomId c; currentStroke := cur |}.

Definition case_startStroke (s : server) (i : nat) (c : conn) : server * effects :=
  ({| rooms := rooms s; clients := <[i := set_currentStroke c []]> (clients s) |}, nothing).

Definition case_draw (s : server) (i : nat) (c : conn) (msg : message) : server * effects :=
  let '(rooms1, _) := getRoom (rooms s) (roomId c) in
  let a := {| a_userId := userId c; a_type := m_tool msg; a_data := m_data msg |} in
  let s' := {| rooms := rooms1;
               clients := <[i := set_currentStroke c (push (currentStroke c) a)]> (clients s) |} in
  (s', broadcastToRoom (clients s') (roomId c) (Draw a)).

Definition case_endStroke (s : server) (i : nat) (c : conn) : server * effects :=
  let '(rooms1, r) := getRoom (rooms s) (roomId c) in
  if 0 <? length (currentStroke c) then
    let r' := {| users := users r; history := push (history r) (currentStroke c);
                 redoStack := [] |} in
    ({| rooms := <[roomId c := r']> rooms1;
        clients := <[i := set_currentStroke c []]> (clients s) |}, nothing)
  else ({| rooms := rooms1; clients := clients s |}, nothing).

Definition case_cursor (s : server) (c : conn) (msg : message) : server * effects :=
  (s, broadcastToRoom (clients s) (roomId c)
        (CursorMove (userId c) (userName c) (userColor c) (m_x msg) (m_y msg))).

(** The body of [case "undo"] on the room: [if (room.history.length > 0)
    { const last = room.history.pop(); room.redoStack.push(last) }]. *)
Definition undo_room (r : room) : room :=
  match pop (history r) with
  | (Some last, h) => {| users := users r; history := h; redoStack := push (redoStack r) last |}
  | (None, _) => r
  end.

(** The body of [case "redo"] on the room. *)
Definition redo_room (r : room) : room :=
  match pop (redoStack r) with
  | (Some redoStroke, rs) =>
      {| users := users r; history := push (history r) redoStroke; redoStack := rs |}
  | (None, _) => r
  end.

Definition case_undo (s : server) (c : conn) : server * effects :=
  let '(rooms1, r) := getRoom (rooms s) (roomId c) in
  let r' := undo_room r in
  ({| rooms := <[roomId c := r']> rooms1; clients := clients s |},
   broadcastToRoom (clients s) (roomId c) (History (history r'))).

Definition case_redo (s : server) (c : conn) : server * effects :=
  let '(rooms1, r) := getRoom (rooms s) (roomId c) in
  let r' := redo_room r in
  ({| rooms := <[roomId c := r']> rooms1; clients := clients s |},
   broadcastToRoom (clients s) (roomId c) (History (history r'))).

Definition case_clear (s : server) (c : conn) : server * effects :=
  let '(rooms1, r) := getRoom (rooms s) (roomId c) in
  let r' := {| users := users r; history := []; redoStack := [] |} in
  ({| rooms := <[roomId c := r']> rooms1; clients := clients s |},
   broadcastToRoom (clients s) (roomId c) (History [])).

(** The [switch]: the body of the [try] block once the frame is decoded. *)
Definition dispatch (s : server) (i : nat) (c : conn) (rnd : double) (msg : message)
  : server * effects :=
  match case_of (m_type msg) with
  | Some LJoin => case_join s i c rnd msg
  | Some LStartStroke => case_startStroke s i c
  | Some LDraw => case_draw s i c msg
  | Some LEndStroke => case_endStroke s i c
  | Some LCursor => case_cursor s c msg
  | Some LUndo => case_undo s c
  | Some LRedo => case_redo s c
  | Some LClear => case_clear s c
  | None => (s, nothing)
  end.

(** [ws.on("message", ...)] for connection [i], [rnd] being what
    [Math.random()] returns should the handler call it.  [JSON.parse]
    throws on an undecodable frame and [message.type] throws on [null],
    both before anything is changed. *)
Definition on_message (s : server) (i : nat) (rnd : double) (data : frame) : server * effects :=
  match clients s !! i with
  | None => (s, nothing)
  | Some c =>
      let '(s', e) :=
        match data with
        | Unparsable => (s, thrown)
        | ParsedNull => (s, thrown)
        | Parsed msg => dispatch s i c rnd msg
        end in
      (s', try_catch e)
  end.

(** [ws.on("close", ...)] for connection [i]: the socket is closed by the
    time the handler runs; its slot stays in [clients] with [readyState]
    3, which [broadcastToRoom] skips. *)
Definition on_close (s : server) (i : nat) : server * effects :=
  match clients s !! i with
  | None => (s, nothing)
  | Some c =>
      let c' := {| readyState := 3; ws_roomId := ws_roomId c; ws_userId := ws_userId c;
                   userId := userId c; userName := userName c; userColor := userColor c;
                   roomId := roomId c; currentStroke := currentStroke c |} in
      let cs' := <[i := c']> (clients s) in
      if truthy (userId c) && truthy (roomId c) then
        let '(rooms1, r) := getRoom (rooms s) (roomId c) in
        let r' := {| users := map_delete (userId c) (users r); history := history r;
                     redoStack := redoStack r |} in
        ({| rooms := <[roomId c := r']> rooms1; clients := cs' |},
         broadcastToRoom cs' (roomId c) (UserLeft (userId c)))
      else ({| rooms := rooms s; clients := cs' |}, nothing)
  end.

(** [wss.on("connection", ...)]: a new socket joins [wss.clients]. *)
Definition on_connection (s : server) : server :=
  {| rooms := rooms s; clients := clients s ++ [new_conn] |}.

(** The open socket of connection [i] starts closing (its peer has sent
    the close frame, or the connection broke): no handler of the server
    runs, and the socket's [readyState] is 2 from then on, until its
    [close] event. *)
Definition on_closing (s : server) (i : nat) : server :=
  match clients s !! i with
  | None => s
  | Some c =>
      if readyState c =? 1 then
        {| rooms := rooms s;
           clients :=
             <[i := {| readyState := 2; ws_roomId := ws_roomId c; ws_userId := ws_userId c;
                       userId := userId c; userName := userName c;
                       userColor := userColor c; roomId := roomId c;
                       currentStroke := currentStroke c |}]> (clients s) |}
      else s
  end.

(** What happens to the server, and a run over a list of such events:
    a socket connects, a frame arrives, a socket starts closing, a
    socket has closed. *)
Inductive event : Type :=
  | EConnection
  | EMessage (i : nat) (rnd : double) (data : frame)
  | EClosing (i : nat)
  | EClose (i : nat).

Definition step (s : server) (ev : event) : server :=
  match ev with
  | EConnection => on_connection s
  | EMessage i rnd data => (on_message s i rnd data).1
  | EClosing i => on_closing s i
  | EClose i => (on_close s i).1
  end.

Definition run (s : server) (evs : list event) : server := fold_left step evs s.

End Server.

(** ** Vocabulary of the statements *)

(** The connections [broadcastToRoom] serves for a room: the open
    sockets whose [roomId] property is that room, numbered from [i]. *)
Fixpoint recipients_from (i : nat) (cs : list conn) (rid : jsval) : list nat :=
  match cs with
  | [] => []
  | client :: cs' =>
      if (readyState client =? 1) && strict_eq (ws_roomId client) rid
      then i :: recipients_from (S i) cs' rid
      else recipients_from (S i) cs' rid
  end.

Definition recipients (cs : list conn) (rid : jsval) : list nat := recipients_from 0 cs rid.

(** Every socket the broadcast serves accepts the message. *)
Definition deliverable (send_throws : nat -> bool) (cs : list conn) (rid : jsval) : Prop :=
  ∀ j, j ∈ recipients cs rid → send_throws j = false.

(** A transport on which no send ever throws. *)
Definition reliable : nat -> bool := fun _ => false.

(** A connection that has joined: [join] has set the socket's [roomId]
    property to the handler's [roomId]. *)
Definition joined (c : conn) : Prop := ws_roomId c = roomId c.

(** A connection that has not joined yet: the handler's [roomId] still
    is its initial ["default"] and the socket has no [roomId] property. *)
Definition not_joined (c : conn) : Prop :=
  roomId c = Str "default" ∧ ws_roomId c = Undefined.

(** A frame that is no message of the protocol: it does not decode, or
    it decodes to [null], or its [type] selects no [case]. *)
Definition malformed (data : frame) : Prop :=
  match data with
  | Unparsable | ParsedNull => True
  | Parsed msg => case_of (m_type msg) = None
  end.

(** The event is a [join] message on connection [i]. *)
Definition join_on (i : nat) (ev : event) : Prop :=
  match ev with
  | EMessage j _ (Parsed msg) => j = i ∧ case_of (m_type msg) = Some LJoin
  | _ => False
  end.

(** The stroke traffic: everything but [undo], [redo] and [clear]. *)
Definition drawing_traffic (ev : event) : Prop :=
  match ev with
  | EMessage _ _ (Parsed msg) =>
      case_of (m_type msg) ≠ Some LUndo ∧ case_of (m_type msg) ≠ Some LRedo
      ∧ case_of (m_type msg) ≠ Some LClear
  | _ => True
  end.

(** The redo stack of every room is empty. *)
Definition no_pending_redo (m : gmap jsval room) : Prop :=
  map_Forall (fun _ r => redoStack r = []) m.

(** The predicates above can be decided on a given state. *)

#[global] Instance deliverable_dec tx cs rid : Decision (deliverable tx cs rid).
Proof.
  refine (cast_if (decide (Forall (fun j => tx j = false) (recipients cs rid))));
    unfold deliverable; by rewrite Forall_forall in *.
Defined.

#[global] Instance joined_dec c : Decision (joined c).
Proof. unfold joined. apply _. Defined.

#[global] Instance not_joined_dec c : Decision (not_joined c).
Proof. unfold not_joined. apply _. Defined.

#[global] Instance malformed_dec data : Decision (malformed data).
Proof. destruct data; simpl; apply _. Defined.

#[global] Instance join_on_dec i ev : Decision (join_on i ev).
Proof. destruct ev as [|j rnd [| |msg]|j|j]; simpl; apply _. Defined.

#[global] Instance drawing_traffic_dec ev : Decision (drawing_traffic ev).
Proof. destruct ev as [|j rnd [| |msg]|j|j]; simpl; apply _. Defined.

#[global] Instance no_pending_redo_dec m : Decision (no_pending_redo m).
Proof. unfold no_pending_redo. apply _. Defined.

(** ** A sample session

    Alice and Bob join the room "default"; Alice presses, draws two
    segments and has not released yet.  In [gallery] she has released,
    Bob has drawn a stroke of his own and undone it, and Carol has
    connected without joining. *)

(** [Math.random()] returns 0 throughout. *)
Definition rnd_zero : double := {| mant := 0; expo := 0 |}.

(** [{ "type": t }] *)
Definition plain (t : string) : message :=
  Message (Str t) Undefined Undefined Undefined Undefined Undefined Undefined Undefined.

(** [{ "type": "join", "userId": uid, "userName": uname, "roomId": rid }] *)
Definition join_msg (uid uname rid : string) : message :=
  Message (Str "join") (Str uid) (Str uname) (Str rid) Undefined Undefined Undefined Undefined.

(** [{ "type": "draw", "tool": "stroke", "data": d }], [d] an object. *)
Definition draw_msg (d : nat) : message :=
  Message (Str "draw") Undefined Undefined Undefined (Str "stroke") (Ref d) Undefined Undefined.

Definition seg (uid : string) (d : nat) : action :=
  {| a_userId := Str uid; a_type := Str "stroke"; a_data := Ref d |}.

Definition studio_events : list event :=
  [ EConnection; EMessage 0 rnd_zero (Parsed (join_msg "alice" "Alice" "default"));
    EConnection; EMessage 1 rnd_zero (Parsed (join_msg "bob" "Bob" "default"));
    EMessage 0 rnd_zero (Parsed (plain "startStroke"));
    EMessage 0 rnd_zero (Parsed (draw_msg 1));
    EMessage 0 rnd_zero (Parsed (draw_msg 2)) ].

Definition studio : server := run reliable initial studio_events.

Definition gallery_events : list event :=
  studio_events ++
  [ EMessage 0 rnd_zero (Parsed (plain "endStroke"));
    EMessage 1 rnd_zero (Parsed (plain "startStroke"));
    EMessage 1 rnd_zero (Parsed (draw_msg 3));
    EMessage 1 rnd_zero (Parsed (plain "endStroke"));
    EMessage 1 rnd_zero (Parsed (plain "undo"));
    EConnection ].

Definition gallery : server := run reliable initial gallery_events.

(** Alice and Bob as they stand in [studio] and in [gallery]. *)
Definition alice_drawing : conn :=
  {| readyState := 1; ws_roomId := Str "default"; ws_userId := Str "alice";
     userId := Str "alice"; userName := Str "Alice"; userColor := Str "#FF6B6B";
     roomId := Str "default"; currentStroke := [seg "alice" 1; seg "alice" 2] |}.

Definition alice_idle : conn := set_currentStroke alice_drawing [].

Definition bob_idle : conn :=
  {| readyState := 1; ws_roomId := Str "default"; ws_userId := Str "bob";
     userId := Str "bob"; userName := Str "Bob"; userColor := Str "#FF6B6B";
     roomId := Str "default"; currentStroke := [] |}.


(** ** More vocabulary: rosters, stacks and strokes in the making *)

(** [Map.prototype.get] *)
Fixpoint map_get (k : jsval) (m : list (jsval * user)) : option user :=
  match m with
  | [] => None
  | (k', v') :: m' => if strict_eq k' k then Some v' else map_get k m'
  end.

(** The strokes of a room in the order they were committed: the history,
    then the undone strokes, the one undone last first. *)
Definition timeline (r : room) : list stroke := history r ++ rev (redoStack r).

(** The sockets of a list that are served before the first one whose
    send throws. *)
Fixpoint served_before_throw (tx : nat -> bool) (js : list nat) : list nat :=
  match js with
  | [] => []
  | j :: js' => if tx j then [] else j :: served_before_throw tx js'
  end.

(** The [case] an event selects on connection [i], if it is a message
    of that connection that selects one. *)
Definition label_on (i : nat) (ev : event) : option label :=
  match ev with
  | EMessage j _ (Parsed msg) => if j =? i then case_of (m_type msg) else None
  | _ => None
  end.

(** An event that leaves the stroke connection [i] is assembling in the
    making: anything but a [join], a [startStroke] or an [endStroke] of
    that connection. *)
Definition assembling (i : nat) (ev : event) : Prop :=
  label_on i ev ≠ Some LJoin ∧ label_on i ev ≠ Some LStartStroke
  ∧ label_on i ev ≠ Some LEndStroke.

#[global] Instance assembling_dec i ev : Decision (assembling i ev).
Proof. unfold assembling. apply _. Defined.

(** The segments the [draw] messages of connection [i] carry, in the
    order of the events, as the handler records them for user [uid]. *)
Fixpoint assembled (i : nat) (uid : jsval) (evs : list event) : list action :=
  match evs with
  | [] => []
  | ev :: evs' =>
      match ev with
      | EMessage _ _ (Parsed msg) =>
          match label_on i ev with
          | Some LDraw =>
              {| a_userId := uid; a_type := m_tool msg; a_data := m_data msg |}
                :: assembled i uid evs'
          | _ => assembled i uid evs'
          end
      | _ => assembled i uid evs'
      end
  end.

(** The event is a message that can change a history or a redo stack. *)
Definition edits_history (ev : event) : Prop :=
  match ev with
  | EMessage _ _ (Parsed msg) =>
      case_of (m_type msg) = Some LEndStroke ∨ case_of (m_type msg) = Some LUndo
      ∨ case_of (m_type msg) = Some LRedo ∨ case_of (m_type msg) = Some LClear
  | _ => False
  end.

#[global] Instance edits_history_dec ev : Decision (edits_history ev).
Proof. destruct ev as [|j rnd [| |msg]|j|j]; simpl; apply _. Defined.

(** No entry of the history or of the redo stack is an empty stroke. *)
Definition whole_strokes (r : room) : Prop :=
  Forall (fun st => st ≠ []) (history r) ∧ Forall (fun st => st ≠ []) (redoStack r).

(** No user is listed twice in the roster. *)
Definition one_entry_per_user (r : room) : Prop := NoDup (users r).*1.

(** ** The client: messages from the server

    [handleMessage] and [redrawHistory] of the client application, on
    the messages the server sends.  What they do to the page is kept as
    the list of the calls they make. *)

Inductive canvas_op : Type :=
  | OpClear
  | OpRemoteDrawLine (fromX fromY toX toY color width tool : jsval)
  | OpDrawRemoteCursor (x y name color : jsval)
  | OpUpdateUserList
  | OpShowNotification (uname : jsval)
  | OpUpdateConnectionStatus.

(** An entry of [onlineUsers]: the [joined] message stores the user
    object it carries, [userId] included; [userJoined] stores a fresh
    object without it. *)
Record cuser : Type := CUser {
  cu_userId : jsval;
  cu_userName : jsval;
  cu_color : jsval
}.

Record ccursor : Type := CCursor {
  cc_x : jsval;
  cc_y : jsval;
  cc_name : jsval;
  cc_color : jsval
}.

(** The fields of the application that [handleMessage] reads or writes. *)
Record app : Type := App {
  this_userId : string;
  this_userColor : jsval;
  onlineUsers : list (jsval * cuser);
  remoteCursors : list (jsval * ccursor);
  lastHistory : list stroke
}.

(** Key equality in the client's maps.  Every key comes out of the
    [JSON.parse] of its own message, so a key that is an array or an
    object is a fresh one and equals no key stored before. *)
Definition fresh_eq (stored incoming : jsval) : bool :=
  match stored, incoming with
  | Ref _, _ | _, Ref _ => false
  | _, _ => strict_eq stored incoming
  end.

Fixpoint cmap_set {V : Type} (k : jsval) (v : V) (m : list (jsval * V)) : list (jsval * V) :=
  match m with
  | [] => [(k, v)]
  | (k', v') :: m' =>
      if fresh_eq k' k then (k, v) :: m' else (k', v') :: cmap_set k v m'
  end.

Fixpoint cmap_delete {V : Type} (k : jsval) (m : list (jsval * V)) : list (jsval * V) :=
  match m with
  | [] => []
  | (k', v') :: m' =>
      if fresh_eq k' k then m' else (k', v') :: cmap_delete k m'
  end.

(** [new Map(pairs)] *)
Definition cmap_of_pairs {V : Type} (pairs : list (jsval * V)) : list (jsval * V) :=
  fold_left (fun m kv => cmap_set kv.1 kv.2 m) pairs [].

Section Client.

(** The objects the messages carry: [prop a k] is property [k] of the
    object with reference [a]. *)
Variable prop : nat -> string -> jsval.

(** [v.k] for a [v] that is neither [undefined] nor [null]. *)
Definition read (v : jsval) (k : string) : jsval :=
  match v with
  | Ref a => prop a k
  | _ => Undefined
  end.

(** Reading a property of [undefined] or [null] throws. *)
Definition nullish (v : jsval) : bool :=
  match v with
  | Undefined | Null => true
  | _ => false
  end.

(** [redrawHistory(history)], for a history as the server sends it (an
    array of arrays of segments, for which both [Array.isArray] tests
    hold): the canvas is cleared, then each segment that has a truthy
    [data] is drawn, in order. *)
Definition redrawHistory (h : list stroke) : list canvas_op :=
  OpClear ::
  flat_map (fun segments : stroke =>
    flat_map (fun a : action =>
      if negb (truthy (a_data a)) then []
      else [OpRemoteDrawLine (read (a_data a) "x") (read (a_data a) "y")
              (js_or (read (a_data a) "x2") (read (a_data a) "x"))
              (js_or (read (a_data a) "y2") (read (a_data a) "y"))
              (read (a_data a) "color") (read (a_data a) "width") (a_type a)])
      segments) h.

(** [handleMessage(msg)]: the application after the message, the calls
    made, and whether the handler completed or threw. *)
Definition handleMessage (st : app) (msg : out_msg) : app * list canvas_op * completion :=
  match msg with
  | Joined color roster h =>
      ({| this_userId := this_userId st; this_userColor := color;
          onlineUsers :=
            cmap_of_pairs
              (map (fun u => (u.1, CUser u.1 (u_userName u.2) (u_color u.2))) roster);
          remoteCursors := remoteCursors st; lastHistory := h |},
       ([OpUpdateUserList] ++ redrawHistory h ++ [OpUpdateConnectionStatus])%list, Normal)
  | UserJoined uid uname color =>
      ({| this_userId := this_userId st; this_userColor := this_userColor st;
          onlineUsers := cmap_set uid (CUser Undefined uname color) (onlineUsers st);
          remoteCursors := remoteCursors st; lastHistory := lastHistory st |},
       [OpUpdateUserList; OpShowNotification uname], Normal)
  | UserLeft uid =>
      ({| this_userId := this_userId st; this_userColor := this_userColor st;
          onlineUsers := cmap_delete uid (onlineUsers st);
          remoteCursors := cmap_delete uid (remoteCursors st);
          lastHistory := lastHistory st |},
       [OpUpdateUserList], Normal)
  | Draw a =>
      if negb (strict_eq (a_userId a) (Str (this_userId st))) then
        if nullish (a_data a) then (st, [], Throw)
        else (st,
              [OpRemoteDrawLine (read (a_data a) "x") (read (a_data a) "y")
                 (js_or (read (a_data a) "x2") (read (a_data a) "x"))
                 (js_or (read (a_data a) "y2") (read (a_data a) "y"))
                 (read (a_data a) "color") (read (a_data a) "width") (a_type a)],
              Normal)
      else (st, [], Normal)
  | CursorMove uid uname color x y =>
      if strict_eq uid (Str (this_userId st)) then (st, [], Normal)
      else
        ({| this_userId := this_userId st; this_userColor := this_userColor st;
            onlineUsers := onlineUsers st;
            remoteCursors := cmap_set uid (CCursor x y uname color) (remoteCursors st);
            lastHistory := lastHistory st |},
         [OpDrawRemoteCursor x y uname color], Normal)
  | History h =>
      ({| this_userId := this_userId st; this_userColor := this_userColor st;
          onlineUsers := onlineUsers st; remoteCursors := remoteCursors st;
          lastHistory := h |},
       redrawHistory h, Normal)
  end.

(** The application after a list of messages, in order; a handler that
    throws leaves the application as it found it. *)
Definition handleMessages (st : app) (msgs : list out_msg) : app :=
  fold_left (fun st msg => (handleMessage st msg).1.1) msgs st.

End Client.

(** ** The client: the pen

    The input side of [DrawingCanvas]: mouse events in, window events
    and local drawing out.  Coordinates are the event's position within
    the canvas ([e.clientX - rect.left], [e.clientY - rect.top]); [now]
    is what [Date.now()] returns. *)

Record pen : Type := Pen {
  isConnected : bool;
  isDrawing : bool;
  currentTool : jsval;
  currentColor : jsval;
  brushWidth : jsval;
  eraserWidth : jsval;
  lastX : jsval;
  lastY : jsval;
  lastCursorSend : Z
}.

(** The pen the constructor makes, on a page that is not connected yet. *)
Definition new_pen : pen :=
  {| isConnected := false; isDrawing := false; currentTool := Str "stroke";
     currentColor := Str "#000000"; brushWidth := Num 2; eraserWidth := Num 10;
     lastX := Num 0; lastY := Num 0; lastCursorSend := 0 |}.

Inductive input : Type :=
  | MouseDown (x y : jsval)
  | MouseMove (x y : jsval) (now : Z)
  | MouseUp
  | MouseOut
  | SetTool (tool : jsval)
  | SetColor (color : jsval)
  | SetBrushWidth (width : jsval)
  | SetEraserWidth (width : jsval)
  | SetConnected (b : bool).

(** What the pen does: the custom events it dispatches on [window] and
    the line it draws on its own canvas. *)
Inductive pen_out : Type :=
  | StrokeStart (tool color width : jsval)
  | DrawSeg (tool x y x2 y2 color width : jsval)
  | StrokeEnd
  | CursorAt (x y : jsval)
  | LocalLine (fromX fromY toX toY tool : jsval).

Definition getCurrentWidth (p : pen) : jsval :=
  if strict_eq (currentTool p) (Str "erase") then eraserWidth p else brushWidth p.

Definition startDrawing (p : pen) (x y : jsval) : pen * list pen_out :=
  if negb (isConnected p) then (p, [])
  else
    ({| isConnected := isConnected p; isDrawing := true; currentTool := currentTool p;
        currentColor := currentColor p; brushWidth := brushWidth p;
        eraserWidth := eraserWidth p; lastX := x; lastY := y;
        lastCursorSend := lastCursorSend p |},
     [StrokeStart (currentTool p) (currentColor p) (getCurrentWidth p)]).

Definition onMove (p : pen) (x y : jsval) (now : Z) : pen * list pen_out :=
  if negb (isConnected p) then (p, [])
  else
    let throttled := negb (30 <? now - lastCursorSend p)%Z in
    let sent_at := if throttled then lastCursorSend p else now in
    let cursor := if throttled then [] else [CursorAt x y] in
    if negb (isDrawing p) then
      ({| isConnected := isConnected p; isDrawing := isDrawing p;
          currentTool := currentTool p; currentColor := currentColor p;
          brushWidth := brushWidth p; eraserWidth := eraserWidth p;
          lastX := lastX p; lastY := lastY p; lastCursorSend := sent_at |},
       cursor)
    else
      ({| isConnected := isConnected p; isDrawing := isDrawing p;
          currentTool := currentTool p; currentColor := currentColor p;
          brushWidth := brushWidth p; eraserWidth := eraserWidth p;
          lastX := x; lastY := y; lastCursorSend := sent_at |},
       (cursor ++ [LocalLine (lastX p) (lastY p) x y (currentTool p);
                   DrawSeg (currentTool p) (lastX p) (lastY p) x y (currentColor p)
                     (getCurrentWidth p)])%list).

Definition stopDrawing (p : pen) : pen * list pen_out :=
  if negb (isDrawing p) then (p, [])
  else
    ({| isConnected := isConnected p; isDrawing := false; currentTool := currentTool p;
        currentColor := currentColor p; brushWidth := brushWidth p;
        eraserWidth := eraserWidth p; lastX := lastX p; lastY := lastY p;
        lastCursorSend := lastCursorSend p |},
     [StrokeEnd]).

(** One input: the listeners of [setupEventListeners], the setters, and
    the application switching [window.isConnected]. *)
Definition pen_step (p : pen) (i : input) : pen * list pen_out :=
  match i with
  | MouseDown x y => startDrawing p x y
  | MouseMove x y now => onMove p x y now
  | MouseUp => stopDrawing p
  | MouseOut => stopDrawing p
  | SetTool tool =>
      ({| isConnected := isConnected p; isDrawing := isDrawing p; currentTool := tool;
          currentColor := currentColor p; brushWidth := brushWidth p;
          eraserWidth := eraserWidth p; lastX := lastX p; lastY := lastY p;
          lastCursorSend := lastCursorSend p |}, [])
  | SetColor color =>
      ({| isConnected := isConnected p; isDrawing := isDrawing p;
          currentTool := currentTool p; currentColor := color;
          brushWidth := brushWidth p; eraserWidth := eraserWidth p; lastX := lastX p;
          lastY := lastY p; lastCursorSend := lastCursorSend p |}, [])
  | SetBrushWidth width =>
      ({| isConnected := isConnected p; isDrawing := isDrawing p;
          currentTool := currentTool p; currentColor := currentColor p;
          brushWidth := width; eraserWidth := eraserWidth p; lastX := lastX p;
          lastY := lastY p; lastCursorSend := lastCursorSend p |}, [])
  | SetEraserWidth width =>
      ({| isConnected := isConnected p; isDrawing := isDrawing p;
          currentTool := currentTool p; currentColor := currentColor p;
          brushWidth := brushWidth p; eraserWidth := width; lastX := lastX p;
          lastY := lastY p; lastCursorSend := lastCursorSend p |}, [])
  | SetConnected b =>
      ({| isConnected := b; isDrawing := isDrawing p; currentTool := currentTool p;
          currentColor := currentColor p; brushWidth := brushWidth p;
          eraserWidth := eraserWidth p; lastX := lastX p; lastY := lastY p;
          lastCursorSend := lastCursorSend p |}, [])
  end.

(** The pen after a list of inputs, and everything it put out. *)
Fixpoint pen_run (p : pen) (ins : list input) : pen * list pen_out :=
  match ins with
  | [] => (p, [])
  | i :: ins' =>
      let '(p1, out1) := pen_step p i in
      let '(p2, out2) := pen_run p1 ins' in
      (p2, (out1 ++ out2)%list)
  end.

(** The stroke protocol: a segment and the end of a stroke come only
    while a stroke is open. [in_stroke] tells whether one is open at
    the start; the result is whether one is open at the end, or [None]
    if the list breaks the protocol. *)
Fixpoint stroke_protocol (in_stroke : bool) (outs : list pen_out) : option bool :=
  match outs with
  | [] => Some in_stroke
  | StrokeStart _ _ _ :: outs' => stroke_protocol true outs'
  | DrawSeg _ _ _ _ _ _ _ :: outs' =>
      if in_stroke then stroke_protocol true outs' else None
  | StrokeEnd :: outs' => if in_stroke then stroke_protocol false outs' else None
  | _ :: outs' => stroke_protocol in_stroke outs'
  end.

(** The times at which the moves of a list of inputs send the cursor. *)
Fixpoint cursor_sends (p : pen) (ins : list input) : list Z :=
  match ins with
  | [] => []
  | i :: ins' =>
      match i with
      | MouseMove x y now =>
          if isConnected p && (30 <? now - lastCursorSend p)%Z
          then now :: cursor_sends (pen_step p i).1 ins'
          else cursor_sends (pen_step p i).1 ins'
      | _ => cursor_sends (pen_step p i).1 ins'
      end
  end.

(** Each time is more than 30 ms after the one before, [t] being the
    one before the first. *)
Fixpoint spaced (t : Z) (ts : list Z) : Prop :=
  match ts with
  | [] => True
  | t' :: ts' => (30 < t' - t)%Z ∧ spaced t' ts'
  end.

(** The segments of a polyline through the given points, drawn with the
    pen's tool, colour and width. *)
Fixpoint polyline (p : pen) (x y : jsval) (pts : list (jsval * jsval)) : list pen_out :=
  match pts with
  | [] => []
  | (x', y') :: pts' =>
      DrawSeg (currentTool p) x y x' y' (currentColor p) (getCurrentWidth p)
        :: polyline p x' y' pts'
  end.

(** The stroke events among what the pen put out. *)
Definition is_stroke_event (o : pen_out) : bool :=
  match o with
  | StrokeStart _ _ _ | DrawSeg _ _ _ _ _ _ _ | StrokeEnd => true
  | _ => false
  end.

Definition stroke_events (outs : list pen_out) : list pen_out :=
  List.filter is_stroke_event outs.

(** The cursor events among what the pen put out. *)
Definition is_cursor_event (o : pen_out) : bool :=
  match o with
  | CursorAt _ _ => true
  | _ => false
  end.

(** A press or a move of the mouse. *)
Definition is_press_or_move (i : input) : bool :=
  match i with
  | MouseDown _ _ | MouseMove _ _ _ => true
  | _ => false
  end.

(** The moves of the mouse through the given points at the given times. *)
Definition moves_through (pts : list (jsval * jsval * Z)) : list input :=
  map (fun m => MouseMove m.1.1 m.1.2 m.2) pts.

(** ** The client: from the pen to the wire *)

(** [send(obj)]: the object goes out when there is a socket and it is
    open; [ws] is [None] without a socket, its [readyState] otherwise. *)
Definition app_send {A : Type} (ws : option nat) (obj : A) : list A :=
  match ws with
  | Some 1 => [obj]
  | _ => []
  end.

Section Wire.

(** [decoded_at o] is the reference under which the server holds the
    [detail] object of the [draw] event [o] once its frame is decoded. *)
Variable decoded_at : pen_out -> nat.

(** The listeners [setupUIBindings] puts on the pen's events: the
    object each passes to [send], as the server decodes it (of a
    [startStroke] the server reads the type only). *)
Definition listener (o : pen_out) : option message :=
  match o with
  | StrokeStart tool color width =>
      Some (Message (Str "startStroke") Undefined Undefined Undefined (json tool) Undefined
              Undefined Undefined)
  | DrawSeg tool x y x2 y2 color width =>
      Some (Message (Str "draw") Undefined Undefined Undefined (json tool)
              (Ref (decoded_at o)) Undefined Undefined)
  | StrokeEnd =>
      Some (Message (Str "endStroke") Undefined Undefined Undefined Undefined Undefined
              Undefined Undefined)
  | CursorAt x y =>
      Some (Message (Str "cursor") Undefined Undefined Undefined Undefined Undefined
              (json x) (json y))
  | LocalLine _ _ _ _ _ => None
  end.

(** The frames a list of pen outputs puts on the wire. *)
Definition frames (ws : option nat) (outs : list pen_out) : list message :=
  flat_map (fun o => match listener o with
                     | Some m => app_send ws m
                     | None => []
                     end) outs.

(** The segment the server records for a [draw] event of user [uid]. *)
Definition recorded (uid : jsval) (o : pen_out) : action :=
  match o with
  | DrawSeg tool _ _ _ _ _ _ =>
      {| a_userId := uid; a_type := json tool; a_data := Ref (decoded_at o) |}
  | _ => {| a_userId := uid; a_type := Undefined; a_data := Undefined |}
  end.

End Wire.

(** What a move of the mouse puts out: cursor, local line, segment. *)
Definition is_move_out (o : pen_out) : bool :=
  match o with
  | CursorAt _ _ | LocalLine _ _ _ _ _ | DrawSeg _ _ _ _ _ _ _ => true
  | _ => false
  end.

(** ** Server and clients together

    Each connection has its client application, which handles, in
    order, the messages the server sends to that connection over a
    transport on which no send throws. *)

(** A roster as the server holds it and as a client shows it: the user
    identifiers in order, each with its name and colour. *)
Definition listed (m : list (jsval * user)) : list (jsval * (jsval * jsval)) :=
  map (fun e => (e.1, (u_userName e.2, u_color e.2))) m.

Definition shown (m : list (jsval * cuser)) : list (jsval * (jsval * jsval)) :=
  map (fun e => (e.1, (cu_userName e.2, cu_color e.2))) m.

(** A value that a message carries across as it is: [undefined],
    [null], a boolean, a number that is no infinity, or a string. *)
Definition json_safe (v : jsval) : Prop :=
  match v with
  | Ref _ | Inf _ => False
  | _ => True
  end.

#[global] Instance json_safe_dec v : Decision (json_safe v).
Proof. destruct v; simpl; apply _. Defined.

(** A roster entry whose identifier, name and colour are such values. *)
Definition json_safe_entry (e : jsval * user) : Prop :=
  json_safe e.1 ∧ json_safe (u_userName e.2) ∧ json_safe (u_color e.2).

Section System.

Variable prop : nat -> string -> jsval.

Record system : Type := System {
  srv : server;
  apps : list app
}.

Definition initial_system : system := {| srv := initial; apps := [] |}.

(** The applications after each has handled the messages sent to its
    connection, decoded, in the order they were sent. *)
Definition deliver (xs : list app) (ds : list (nat * out_msg)) : list app :=
  fold_left (fun xs d => alter (fun a => (handleMessage prop a (json_msg d.2)).1.1) d.1 xs)
    ds xs.

(** The messages of a list that are addressed to connection [j]. *)
Definition inbox (j : nat) (ds : list (nat * out_msg)) : list out_msg :=
  (List.filter (fun d => d.1 =? j) ds).*2.

(** A page connects, in whatever state it is; a frame arrives; a
    socket starts closing; a connection has closed. *)
Inductive sys_event : Type :=
  | SConnection (a : app)
  | SMessage (i : nat) (rnd : double) (data : frame)
  | SClosing (i : nat)
  | SClose (i : nat).

Definition sys_step (S : system) (ev : sys_event) : system :=
  match ev with
  | SConnection a => {| srv := on_connection (srv S); apps := apps S ++ [a] |}
  | SMessage i rnd data =>
      {| srv := (on_message reliable (srv S) i rnd data).1;
         apps := deliver (apps S) (sent (on_message reliable (srv S) i rnd data).2) |}
  | SClosing i => {| srv := on_closing (srv S) i; apps := apps S |}
  | SClose i =>
      {| srv := (on_close reliable (srv S) i).1;
         apps := deliver (apps S) (sent (on_close reliable (srv S) i).2) |}
  end.

Definition sys_run (S : system) (evs : list sys_event) : system := fold_left sys_step evs S.

End System.

(** Server and clients agree: there is one application per connection;
    no roster lists a user twice, and every roster entry and the user
    of every connection is held in values that messages carry across
    as they are; and the application of every open connection that has
    joined shows the roster of the room its socket is marked with. *)
Definition coherent (S : system) : Prop :=
  length (apps S) = length (clients (srv S))
  ∧ (∀ rid, NoDup (users (the_room (srv S) rid)).*1
            ∧ Forall json_safe_entry (users (the_room (srv S) rid)))
  ∧ (∀ j c, clients (srv S) !! j = Some c → json_safe (userId c))
  ∧ (∀ j c a, clients (srv S) !! j = Some c → apps S !! j = Some a →
       readyState c = 1 → ws_roomId c ≠ Undefined →
       shown (onlineUsers a) = listed (users (the_room (srv S) (ws_roomId c)))).

(** A connection as the handlers leave it: its room is truthy; it
    either has not joined, and then is in "default" without a user, or
    has joined, and then its socket carries the room and the user of its
    handler. *)
Definition well_formed (c : conn) : Prop :=
  truthy (roomId c) = true
  ∧ ((not_joined c ∧ userId c = Null ∧ ws_userId c = Undefined)
     ∨ (joined c ∧ ws_userId c = userId c)).

(** A message that tells nothing about the roster. *)
Definition roster_silent (m : out_msg) : Prop :=
  match m with
  | Draw _ | CursorMove _ _ _ _ _ | History _ => True
  | _ => False
  end.

(** The event is not a [join] that names its user, or gives the user's
    name, by an array, an object or an infinity. *)
Definition json_safe_user (ev : sys_event) : Prop :=
  match ev with
  | SMessage _ _ (Parsed msg) =>
      case_of (m_type msg) = Some LJoin →
      json_safe (m_userId msg) ∧ json_safe (m_userName msg)
  | _ => True
  end.

#[global] Instance json_safe_user_dec ev : Decision (json_safe_user ev).
Proof. destruct ev as [a|j rnd [| |msg]|j|j]; simpl; apply _. Defined.

(** ** Basic facts *)

Lemma strict_eq_true (a b : jsval) : strict_eq a b = true ↔ a = b.
Proof.
  destruct a, b; simpl;
    rewrite ?Bool.eqb_true_iff, ?Z.eqb_eq, ?String.eqb_eq, ?Nat.eqb_eq;
    split; intros H; congruence.
Qed.

Lemma strict_eq_refl (a : jsval) : strict_eq a a = true.
Proof. by apply strict_eq_true. Qed.

Lemma pop_nil {A : Type} : pop (@nil A) = (None, []).
Proof. reflexivity. Qed.

Lemma pop_push {A : Type} (a : list A) (x : A) : pop (push a x) = (Some x, a).
Proof. unfold pop, push. by rewrite rev_unit, rev_involutive. Qed.

Lemma pop_cases {A : Type} (a : list A) :
  (a = [] ∧ pop a = (None, [])) ∨ (∃ x a', a = push a' x ∧ pop a = (Some x, a')).
Proof.
  destruct a as [|y a] using rev_ind.
  - by left.
  - right. exists y, a. split; [done | apply pop_push].
Qed.

Lemma the_room_lookup (s : server) (rid : jsval) :
  the_room s rid = default new_room (rooms s !! rid).
Proof. unfold the_room, getRoom. by destruct (rooms s !! rid). Qed.

Lemma getRoom_fst_lookup (m : gmap jsval room) (rid rid' : jsval) :
  default new_room ((getRoom m rid).1 !! rid') = default new_room (m !! rid').
Proof.
  unfold getRoom. destruct (m !! rid) eqn:E; simpl; [done |].
  destruct (decide (rid = rid')) as [<- | Hne].
  - by rewrite lookup_insert_eq, E.
  - by rewrite lookup_insert_ne.
Qed.

Lemma getRoom_snd (m : gmap jsval room) (rid : jsval) :
  (getRoom m rid).2 = default new_room (m !! rid).
Proof. unfold getRoom. by destruct (m !! rid). Qed.

Lemma getRoom_present (m : gmap jsval room) (rid : jsval) (r : room) :
  m !! rid = Some r → getRoom m rid = (m, r).
Proof. intros H. unfold getRoom. by rewrite H. Qed.

(** The room updated in place by a case, and the other rooms. *)
Lemma room_written (s : server) (cs : list conn) (rid : jsval) (r' : room) :
  the_room {| rooms := <[rid := r']> (getRoom (rooms s) rid).1; clients := cs |} rid = r'.
Proof. rewrite the_room_lookup. simpl. by rewrite lookup_insert_eq. Qed.

Lemma room_untouched (s : server) (cs : list conn) (rid rid' : jsval) (r' : room) :
  rid' ≠ rid →
  the_room {| rooms := <[rid := r']> (getRoom (rooms s) rid).1; clients := cs |} rid'
  = the_room s rid'.
Proof.
  intros Hne. rewrite !the_room_lookup. simpl.
  rewrite lookup_insert_ne by done. apply getRoom_fst_lookup.
Qed.

Lemma room_fetched (s : server) (cs : list conn) (rid rid' : jsval) :
  the_room {| rooms := (getRoom (rooms s) rid).1; clients := cs |} rid' = the_room s rid'.
Proof. rewrite !the_room_lookup. simpl. apply getRoom_fst_lookup. Qed.

Lemma getRoom_pair (m : gmap jsval room) (rid : jsval) :
  getRoom m rid = ((getRoom m rid).1, (getRoom m rid).2).
Proof. by destruct (getRoom m rid). Qed.

Lemma try_catch_outcome (e : effects) : outcome (try_catch e) = Normal.
Proof. unfold try_catch. by destruct (outcome e) eqn:E. Qed.

Lemma sent_try_catch (e : effects) : sent (try_catch e) = sent e.
Proof. unfold try_catch. by destruct (outcome e). Qed.


Lemma on_message_parsed tx (s : server) (i : nat) (c : conn) (rnd : double) (msg : message) :
  clients s !! i = Some c →
  on_message tx s i rnd (Parsed msg)
  = ((dispatch tx s i c rnd msg).1, try_catch (dispatch tx s i c rnd msg).2).
Proof.
  intros H. unfold on_message. rewrite H. by destruct (dispatch tx s i c rnd msg).
Qed.

Lemma dispatch_endStroke tx (s : server) (i : nat) (c : conn) (rnd : double) (msg : message) :
  m_type msg = Str "endStroke" → dispatch tx s i c rnd msg = case_endStroke s i c.
Proof. intros H. unfold dispatch. by rewrite H. Qed.

Lemma slot_written (cs : list conn) (i : nat) (c c' : conn) :
  cs !! i = Some c → <[i := c']> cs !! i = Some c'.
Proof. intros H. apply list_lookup_insert_eq. by eapply lookup_lt_Some. Qed.

(** A socket that starts closing changes no room, and no connection but
    in its [readyState]. *)
Lemma on_closing_rooms (s : server) (i : nat) : rooms (on_closing s i) = rooms s.
Proof.
  unfold on_closing. destruct (clients s !! i) as [c|]; [| done].
  by destruct (readyState c =? 1).
Qed.

Lemma on_closing_room (s : server) (i : nat) (rid : jsval) :
  the_room (on_closing s i) rid = the_room s rid.
Proof. unfold the_room. by rewrite on_closing_rooms. Qed.

Lemma on_closing_slot (s : server) (i j : nat) (c' : conn) :
  clients (on_closing s i) !! j = Some c' →
  ∃ c, clients s !! j = Some c
       ∧ ws_roomId c' = ws_roomId c ∧ ws_userId c' = ws_userId c ∧ userId c' = userId c
       ∧ userName c' = userName c ∧ userColor c' = userColor c ∧ roomId c' = roomId c
       ∧ currentStroke c' = currentStroke c
       ∧ (readyState c' = readyState c ∨ (j = i ∧ readyState c = 1 ∧ readyState c' = 2)).
Proof.
  unfold on_closing. destruct (clients s !! i) as [c|] eqn:Hc.
  - destruct (readyState c =? 1) eqn:Eo.
    + apply Nat.eqb_eq in Eo. simpl. destruct (decide (i = j)) as [<- | Hne].
      * rewrite (slot_written _ _ c) by done. intros [= <-]. exists c.
        repeat split; try done. by right.
      * rewrite list_lookup_insert_ne by done. intros H. exists c'.
        repeat split; try done. by left.
    + intros H. exists c'. repeat split; try done. by left.
  - intros H. exists c'. repeat split; try done. by left.
Qed.

Lemma on_closing_keeps (s : server) (i j : nat) (c : conn) :
  clients s !! j = Some c →
  ∃ c', clients (on_closing s i) !! j = Some c'
        ∧ ws_roomId c' = ws_roomId c ∧ ws_userId c' = ws_userId c ∧ userId c' = userId c
        ∧ userName c' = userName c ∧ userColor c' = userColor c ∧ roomId c' = roomId c
        ∧ currentStroke c' = currentStroke c
        ∧ (readyState c' = readyState c ∨ (j = i ∧ readyState c = 1 ∧ readyState c' = 2)).
Proof.
  intros Hc. unfold on_closing. destruct (clients s !! i) as [ci|] eqn:Hi.
  - destruct (readyState ci =? 1) eqn:Eo.
    + apply Nat.eqb_eq in Eo. simpl. destruct (decide (i = j)) as [<- | Hne].
      * rewrite (slot_written _ _ ci) by done. rewrite Hi in Hc. injection Hc as <-.
        eexists. split; [done |]. repeat split; try done. by right.
      * rewrite list_lookup_insert_ne by done. exists c.
        repeat split; try done. by left.
    + exists c. repeat split; try done. by left.
  - exists c. repeat split; try done. by left.
Qed.

Lemma on_closing_length (s : server) (i : nat) :
  length (clients (on_closing s i)) = length (clients s).
Proof.
  unfold on_closing. destruct (clients s !! i) as [c|]; [| done].
  destruct (readyState c =? 1); [| done]. simpl. by rewrite length_insert.
Qed.

(** ** Stroke commit *)

(** C1. An [endStroke] on a connection whose accumulator is not empty
    appends the accumulated segments, in order and as one entry, to the
    history of the connection's room, empties that room's redo stack and
    leaves the connection with an empty accumulator and nothing else
    changed, every other room and every other connection staying as it
    was; with an empty accumulator every room keeps its history and redo
    stack and the connections are untouched. *)
Theorem endStroke_commits tx (s : server) (i : nat) (c : conn) (rnd : double) (msg : message) :
  clients s !! i = Some c →
  m_type msg = Str "endStroke" →
  let r := the_room s (roomId c) in
  let s' := (on_message tx s i rnd (Parsed msg)).1 in
  (currentStroke c ≠ [] →
     the_room s' (roomId c)
       = {| users := users r; history := history r ++ [currentStroke c]; redoStack := [] |}
     ∧ (∀ rid, rid ≠ roomId c → the_room s' rid = the_room s rid)
     ∧ clients s' !! i
       = Some {| readyState := readyState c; ws_roomId := ws_roomId c;
                 ws_userId := ws_userId c; userId := userId c; userName := userName c;
                 userColor := userColor c; roomId := roomId c; currentStroke := [] |}
     ∧ (∀ j, j ≠ i → clients s' !! j = clients s !! j))
  ∧ (currentStroke c = [] →
     (∀ rid, the_room s' rid = the_room s rid) ∧ clients s' = clients s).
Proof.
  intros Hc Ht r s'. subst s'.
  rewrite (on_message_parsed _ _ _ c) by done.
  rewrite dispatch_endStroke by done.
  unfold case_endStroke. rewrite getRoom_pair.
  split; intros Hcur.
  - destruct (currentStroke c) as [|a cur] eqn:E; [done |]. simpl.
    split; [| split; [| split]].
    + by rewrite room_written.
    + intros rid Hne. by apply room_untouched.
    + by eapply slot_written.
    + intros j Hne. by rewrite list_lookup_insert_ne.
  - rewrite Hcur. simpl. split; [| done].
    intros rid. apply room_fetched.
Qed.

Example studio_clients : clients studio = [alice_drawing; bob_idle].
Proof. reflexivity. Qed.

Example studio_room :
  rooms studio !! Str "default"
  = Some {| users := [(Str "alice", User (Str "Alice") (Str "#FF6B6B"));
                      (Str "bob", User (Str "Bob") (Str "#FF6B6B"))];
            history := []; redoStack := [] |}.
Proof. vm_compute. reflexivity. Qed.

Example gallery_clients : clients gallery = [alice_idle; bob_idle; new_conn].
Proof. reflexivity. Qed.

Example gallery_room :
  rooms gallery !! Str "default"
  = Some {| users := [(Str "alice", User (Str "Alice") (Str "#FF6B6B"));
                      (Str "bob", User (Str "Bob") (Str "#FF6B6B"))];
            history := [[seg "alice" 1; seg "alice" 2]];
            redoStack := [[seg "bob" 3]] |}.
Proof. vm_compute. reflexivity. Qed.

Lemma endStroke_commits_witness :
  currentStroke alice_drawing = [seg "alice" 1; seg "alice" 2]
  ∧ the_room (on_message reliable studio 0 rnd_zero (Parsed (plain "endStroke"))).1
      (Str "default")
    = {| users := users (the_room studio (Str "default"));
         history := [[seg "alice" 1; seg "alice" 2]]; redoStack := [] |}
  ∧ currentStroke
      <$> clients (on_message reliable studio 0 rnd_zero (Parsed (plain "endStroke"))).1 !! 0
    = Some [].
Proof.
  destruct (endStroke_commits reliable studio 0 alice_drawing rnd_zero (plain "endStroke"))
    as [Hcommit _]; [reflexivity | reflexivity |].
  destruct Hcommit as (Hroom & _ & Hslot & _); [discriminate |].
  split; [reflexivity |]. split; [exact Hroom |].
  cbv zeta in Hslot. rewrite Hslot. reflexivity.
Defined.

(** ** The fan-out *)

Lemma recipients_from_elem (i : nat) (cs : list conn) (rid : jsval) (j : nat) :
  j ∈ recipients_from i cs rid
  ↔ ∃ c, i ≤ j ∧ cs !! (j - i) = Some c ∧ readyState c = 1 ∧ ws_roomId c = rid.
Proof.
  revert i. induction cs as [|client cs IH]; intros i; simpl.
  - split; [by intros ?%elem_of_nil | by intros (c & _ & ? & _)].
  - assert (Hstep : (∃ c, S i ≤ j ∧ cs !! (j - S i) = Some c
                       ∧ readyState c = 1 ∧ ws_roomId c = rid)
                    ↔ (∃ c, i < j ∧ (client :: cs) !! (j - i) = Some c
                       ∧ readyState c = 1 ∧ ws_roomId c = rid)).
    { split; intros (c & Hle & Hl & Ho & Hr); exists c; (split; [lia |]);
        (split; [| done]).
      - replace (j - i) with (S (j - S i)) by lia. done.
      - replace (j - i) with (S (j - S i)) in Hl by lia. done. }
    destruct (readyState client =? 1) eqn:Eo; simpl.
    + destruct (strict_eq (ws_roomId client) rid) eqn:Er.
      * apply Nat.eqb_eq in Eo. apply strict_eq_true in Er.
        rewrite elem_of_cons, IH, Hstep. split.
        -- intros [-> | (c & Hlt & Hrest)].
           ++ exists client. rewrite Nat.sub_diag. by repeat split.
           ++ exists c. split; [lia | done].
        -- intros (c & Hle & Hl & Ho & Hr).
           destruct (decide (j = i)) as [-> | Hne]; [by left | right].
           exists c. split; [lia | done].
      * rewrite IH, Hstep. split.
        -- intros (c & Hlt & Hrest). exists c. split; [lia | done].
        -- intros (c & Hle & Hl & Ho & Hr).
           destruct (decide (j = i)) as [-> | Hne].
           ++ rewrite Nat.sub_diag in Hl. simpl in Hl. injection Hl as ->.
              apply strict_eq_true in Hr. congruence.
           ++ exists c. split; [lia | done].
    + rewrite IH, Hstep. split.
      * intros (c & Hlt & Hrest). exists c. split; [lia | done].
      * intros (c & Hle & Hl & Ho & Hr).
        destruct (decide (j = i)) as [-> | Hne].
        -- rewrite Nat.sub_diag in Hl. simpl in Hl. injection Hl as ->.
           apply Nat.eqb_neq in Eo. done.
        -- exists c. split; [lia | done].
Qed.

(** A connection is served exactly when it is open and in the room. *)
Lemma recipients_elem (cs : list conn) (rid : jsval) (j : nat) :
  j ∈ recipients cs rid
  ↔ ∃ c, cs !! j = Some c ∧ readyState c = 1 ∧ ws_roomId c = rid.
Proof.
  unfold recipients. rewrite recipients_from_elem. rewrite Nat.sub_0_r.
  split.
  - intros (c & _ & H). by exists c.
  - intros (c & H). exists c. split; [lia | done].
Qed.

(** No connection is served twice. *)
Lemma recipients_from_NoDup (i : nat) (cs : list conn) (rid : jsval) :
  NoDup (recipients_from i cs rid).
Proof.
  revert i. induction cs as [|client cs IH]; intros i; simpl.
  - constructor.
  - destruct ((readyState client =? 1) && strict_eq (ws_roomId client) rid); [| apply IH].
    constructor; [| apply IH].
    rewrite recipients_from_elem. intros (c & Hle & _). lia.
Qed.

Lemma recipients_NoDup (cs : list conn) (rid : jsval) : NoDup (recipients cs rid).
Proof. apply recipients_from_NoDup. Qed.

Lemma forEach_reaches tx (i : nat) (cs : list conn) (rid : jsval) (m : out_msg) :
  (∀ j, j ∈ recipients_from i cs rid → tx j = false) →
  forEach i cs (fun i client =>
    if (readyState client =? 1) && strict_eq (ws_roomId client) rid
    then ws_send tx i m else nothing)
  = {| sent := (fun j => (j, m)) <$> recipients_from i cs rid;
       logged := false; outcome := Normal |}.
Proof.
  revert i. induction cs as [|client cs IH]; intros i Hok; simpl in *.
  - reflexivity.
  - destruct ((readyState client =? 1) && strict_eq (ws_roomId client) rid).
    + unfold ws_send. rewrite (Hok i) by (apply elem_of_cons; by left).
      rewrite IH; [reflexivity |].
      intros j Hj. apply Hok. apply elem_of_cons. by right.
    + rewrite IH by done. reflexivity.
Qed.

(** When the sockets it serves accept the message, a broadcast sends it
    once to each of them, in the order of [wss.clients], and completes. *)
Lemma broadcast_reaches tx (cs : list conn) (rid : jsval) (m : out_msg) :
  deliverable tx cs rid →
  broadcastToRoom tx cs rid m
  = {| sent := (fun j => (j, m)) <$> recipients cs rid; logged := false; outcome := Normal |}.
Proof. intros H. by apply forEach_reaches. Qed.

(** A broadcast looks at the [readyState] and the [roomId] property of a
    socket only. *)
Lemma forEach_slot tx (k i : nat) (cs : list conn) (c c' : conn) (rid : jsval) (m : out_msg) :
  cs !! i = Some c →
  readyState c' = readyState c → ws_roomId c' = ws_roomId c →
  forEach k (<[i := c']> cs) (fun i client =>
    if (readyState client =? 1) && strict_eq (ws_roomId client) rid
    then ws_send tx i m else nothing)
  = forEach k cs (fun i client =>
    if (readyState client =? 1) && strict_eq (ws_roomId client) rid
    then ws_send tx i m else nothing).
Proof.
  intros Hc Ho Hr. revert k i Hc.
  induction cs as [|client cs IH]; intros k i Hc; [done |].
  destruct i as [|i]; simpl in *.
  - injection Hc as ->. by rewrite Ho, Hr.
  - by rewrite IH.
Qed.

Lemma broadcast_slot tx (i : nat) (cs : list conn) (c c' : conn) (rid : jsval) (m : out_msg) :
  cs !! i = Some c →
  readyState c' = readyState c → ws_roomId c' = ws_roomId c →
  broadcastToRoom tx (<[i := c']> cs) rid m = broadcastToRoom tx cs rid m.
Proof. apply forEach_slot. Qed.

Lemma sent_elem (cs : list conn) (rid : jsval) (m : out_msg) (j : nat) (c : conn) :
  cs !! j = Some c → readyState c = 1 → ws_roomId c = rid →
  (j, m) ∈ (fun j => (j, m)) <$> recipients cs rid.
Proof.
  intros Hc Ho Hr. apply list_elem_of_fmap. exists j. split; [done |].
  apply recipients_elem. by exists c.
Qed.

(** Whatever the transport, a broadcast sends to sockets it serves only. *)
Lemma forEach_sent_served tx (i : nat) (cs : list conn) (rid : jsval) (m m' : out_msg)
    (j : nat) :
  (j, m') ∈ sent (forEach i cs (fun i client =>
    if (readyState client =? 1) && strict_eq (ws_roomId client) rid
    then ws_send tx i m else nothing)) →
  j ∈ recipients_from i cs rid.
Proof.
  revert i. induction cs as [|client cs IH]; intros i; simpl.
  - by intros ?%elem_of_nil.
  - destruct ((readyState client =? 1) && strict_eq (ws_roomId client) rid).
    + unfold ws_send. destruct (tx i); simpl; [by intros ?%elem_of_nil |].
      unfold andThen. simpl. rewrite !elem_of_cons.
      intros [[= -> _] | H]; [by left | right; by apply IH].
    + unfold andThen. simpl. apply IH.
Qed.

Lemma broadcast_sent_served tx (cs : list conn) (rid : jsval) (m m' : out_msg) (j : nat) :
  (j, m') ∈ sent (try_catch (broadcastToRoom tx cs rid m)) → j ∈ recipients cs rid.
Proof.
  intros H. apply (forEach_sent_served tx 0 cs rid m m').
  unfold try_catch in H. by destruct (outcome _).
Qed.

(** ** The commands on the room *)

Lemma dispatch_draw tx (s : server) (i : nat) (c : conn) (rnd : double) (msg : message) :
  m_type msg = Str "draw" → dispatch tx s i c rnd msg = case_draw tx s i c msg.
Proof. intros H. unfold dispatch. by rewrite H. Qed.

Lemma dispatch_undo tx (s : server) (i : nat) (c : conn) (rnd : double) (msg : message) :
  m_type msg = Str "undo" → dispatch tx s i c rnd msg = case_undo tx s c.
Proof. intros H. unfold dispatch. by rewrite H. Qed.

Lemma dispatch_redo tx (s : server) (i : nat) (c : conn) (rnd : double) (msg : message) :
  m_type msg = Str "redo" → dispatch tx s i c rnd msg = case_redo tx s c.
Proof. intros H. unfold dispatch. by rewrite H. Qed.

Lemma dispatch_clear tx (s : server) (i : nat) (c : conn) (rnd : double) (msg : message) :
  m_type msg = Str "clear" → dispatch tx s i c rnd msg = case_clear tx s c.
Proof. intros H. unfold dispatch. by rewrite H. Qed.

(** What [undo], [redo] and [clear] do, the room named by what
    [getRoom] returns for it. *)
Lemma case_undo_eq tx (s : server) (c : conn) :
  case_undo tx s c
  = ({| rooms := <[roomId c := undo_room (the_room s (roomId c))]>
                   (getRoom (rooms s) (roomId c)).1;
        clients := clients s |},
     broadcastToRoom tx (clients s) (roomId c)
       (History (history (undo_room (the_room s (roomId c)))))).
Proof. unfold case_undo, the_room. by rewrite getRoom_pair. Qed.

Lemma case_redo_eq tx (s : server) (c : conn) :
  case_redo tx s c
  = ({| rooms := <[roomId c := redo_room (the_room s (roomId c))]>
                   (getRoom (rooms s) (roomId c)).1;
        clients := clients s |},
     broadcastToRoom tx (clients s) (roomId c)
       (History (history (redo_room (the_room s (roomId c)))))).
Proof. unfold case_redo, the_room. by rewrite getRoom_pair. Qed.

Lemma case_clear_eq tx (s : server) (c : conn) :
  case_clear tx s c
  = ({| rooms := <[roomId c := {| users := users (the_room s (roomId c));
                                 history := []; redoStack := [] |}]>
                   (getRoom (rooms s) (roomId c)).1;
        clients := clients s |},
     broadcastToRoom tx (clients s) (roomId c) (History [])).
Proof. unfold case_clear, the_room. by rewrite getRoom_pair. Qed.

(** C5. A [clear] leaves the history and the redo stack of the
    connection's room empty, whatever they held, and, the sockets of
    the room accepting the message, sends the empty history once to each
    open connection of that room: to all of them, the issuer included
    when it has joined. *)
Theorem clear_empties_room tx (s : server) (i : nat) (c : conn) (rnd : double) (msg : message) :
  clients s !! i = Some c →
  m_type msg = Str "clear" →
  deliverable tx (clients s) (roomId c) →
  let s' := (on_message tx s i rnd (Parsed msg)).1 in
  let e := (on_message tx s i rnd (Parsed msg)).2 in
  history (the_room s' (roomId c)) = []
  ∧ redoStack (the_room s' (roomId c)) = []
  ∧ sent e = (fun j => (j, History [])) <$> recipients (clients s) (roomId c)
  ∧ (∀ j cj, clients s !! j = Some cj → readyState cj = 1 → ws_roomId cj = roomId c →
       (j, History []) ∈ sent e)
  ∧ (readyState c = 1 → joined c → (i, History []) ∈ sent e).
Proof.
  intros Hc Ht Hok s' e. subst s' e.
  rewrite (on_message_parsed _ _ _ c) by done.
  rewrite dispatch_clear by done. rewrite case_clear_eq. simpl.
  rewrite room_written. simpl.
  rewrite broadcast_reaches by done. simpl.
  repeat split.
  - intros j cj Hj Ho Hr. by eapply sent_elem.
  - intros Ho Hj. by eapply sent_elem.
Qed.

Lemma clear_empties_room_witness :
  history (the_room (on_message reliable gallery 1 rnd_zero (Parsed (plain "clear"))).1
             (Str "default")) = []
  ∧ (1, History []) ∈ sent (on_message reliable gallery 1 rnd_zero (Parsed (plain "clear"))).2.
Proof.
  destruct (clear_empties_room reliable gallery 1 bob_idle rnd_zero (plain "clear"))
    as (Hh & _ & _ & _ & Hme); [reflexivity | reflexivity | by intros j _ |].
  split; [exact Hh | apply Hme; reflexivity].
Defined.

Lemma history_broadcast tx (s : server) (i : nat) (c : conn) (rnd : double) (msg : message) :
  clients s !! i = Some c →
  m_type msg = Str "undo" ∨ m_type msg = Str "redo" ∨ m_type msg = Str "clear" →
  (on_message tx s i rnd (Parsed msg)).2
  = try_catch (broadcastToRoom tx (clients s) (roomId c)
      (History (history (the_room (on_message tx s i rnd (Parsed msg)).1 (roomId c))))).
Proof.
  intros Hc Ht. rewrite (on_message_parsed _ _ _ c) by done.
  destruct Ht as [Ht | [Ht | Ht]].
  - rewrite dispatch_undo by done. rewrite case_undo_eq. simpl. by rewrite room_written.
  - rewrite dispatch_redo by done. rewrite case_redo_eq. simpl. by rewrite room_written.
  - rewrite dispatch_clear by done. rewrite case_clear_eq. simpl. by rewrite room_written.
Qed.

Lemma try_catch_reaches tx (cs : list conn) (rid : jsval) (m : out_msg) :
  deliverable tx cs rid →
  try_catch (broadcastToRoom tx cs rid m)
  = {| sent := (fun j => (j, m)) <$> recipients cs rid; logged := false; outcome := Normal |}.
Proof. intros H. by rewrite broadcast_reaches. Qed.

Lemma fmap_pair_fst (m : out_msg) (js : list nat) : ((fun j => (j, m)) <$> js).*1 = js.
Proof. induction js as [|j js IH]; [done |]. cbn. f_equal. exact IH. Qed.

(** C10. Every [undo] and every [redo] makes exactly one call of
    [broadcastToRoom], with the room's history as it is after the
    command, whether or not a stroke was moved; when the sockets of the
    room accept it, each open connection of the room receives that one
    [history] message and nothing else. *)
Theorem undo_redo_one_broadcast tx (s : server) (i : nat) (c : conn) (rnd : double)
    (msg : message) :
  clients s !! i = Some c →
  m_type msg = Str "undo" ∨ m_type msg = Str "redo" →
  let s' := (on_message tx s i rnd (Parsed msg)).1 in
  let e := (on_message tx s i rnd (Parsed msg)).2 in
  let h := history (the_room s' (roomId c)) in
  e = try_catch (broadcastToRoom tx (clients s) (roomId c) (History h))
  ∧ (deliverable tx (clients s) (roomId c) →
       sent e = (fun j => (j, History h)) <$> recipients (clients s) (roomId c)
       ∧ NoDup (sent e).*1).
Proof.
  intros Hc Ht s' e h. subst s' e h.
  assert (He := history_broadcast tx s i c rnd msg Hc).
  rewrite He by tauto. split; [done |].
  intros Hok. rewrite try_catch_reaches by done. simpl.
  split; [done |]. rewrite fmap_pair_fst. apply recipients_NoDup.
Qed.

Lemma undo_redo_one_broadcast_witness :
  sent (on_message reliable gallery 0 rnd_zero (Parsed (plain "redo"))).2
  = [(0, History [[seg "alice" 1; seg "alice" 2]; [seg "bob" 3]]);
     (1, History [[seg "alice" 1; seg "alice" 2]; [seg "bob" 3]])].
Proof.
  destruct (undo_redo_one_broadcast reliable gallery 0 alice_idle rnd_zero (plain "redo"))
    as [_ Hsent]; [reflexivity | by right |].
  destruct Hsent as [Hsent _]; [by intros j _ |].
  rewrite Hsent. vm_compute. reflexivity.
Defined.

(** C3, as the server has it. Every [undo], [redo] and [clear] ends
    with one broadcast of the room's history as the command left it,
    which reaches every open connection of the room when their sockets
    accept it; an [endStroke] sends nothing at all, also when it commits
    a stroke. *)
Theorem history_broadcast_after_command tx (s : server) (i : nat) (c : conn) (rnd : double)
    (msg : message) :
  clients s !! i = Some c →
  let s' := (on_message tx s i rnd (Parsed msg)).1 in
  let e := (on_message tx s i rnd (Parsed msg)).2 in
  let h := history (the_room s' (roomId c)) in
  (m_type msg = Str "undo" ∨ m_type msg = Str "redo" ∨ m_type msg = Str "clear" →
     e = try_catch (broadcastToRoom tx (clients s) (roomId c) (History h))
     ∧ (deliverable tx (clients s) (roomId c) →
          sent e = (fun j => (j, History h)) <$> recipients (clients s) (roomId c)))
  ∧ (m_type msg = Str "endStroke" → e = nothing).
Proof.
  intros Hc s' e h. subst s' e h. split.
  - intros Ht. rewrite (history_broadcast tx s i c) by done. split; [done |].
    intros Hok. by rewrite try_catch_reaches.
  - intros Ht. rewrite (on_message_parsed _ _ _ c) by done.
    rewrite dispatch_endStroke by done.
    unfold case_endStroke. rewrite getRoom_pair.
    by destruct (0 <? length (currentStroke c)).
Qed.

Lemma history_broadcast_after_command_witness :
  (on_message reliable studio 0 rnd_zero (Parsed (plain "endStroke"))).2 = nothing.
Proof.
  destruct (history_broadcast_after_command reliable studio 0 alice_drawing rnd_zero
              (plain "endStroke")) as [_ Hend]; [reflexivity |].
  apply Hend. reflexivity.
Defined.

(** C3 as stated fails on a stroke commit: Alice's [endStroke] puts her
    stroke into the history of the room and nothing is sent to anyone. *)
Lemma commit_without_broadcast :
  history (the_room studio (Str "default")) = []
  ∧ history (the_room (on_message reliable studio 0 rnd_zero (Parsed (plain "endStroke"))).1
               (Str "default")) = [[seg "alice" 1; seg "alice" 2]]
  ∧ sent (on_message reliable studio 0 rnd_zero (Parsed (plain "endStroke"))).2 = [].
Proof. vm_compute. done. Qed.

(** ** Live segments *)

Lemma case_draw_sends tx (s : server) (i : nat) (c : conn) (msg : message) :
  clients s !! i = Some c →
  (case_draw tx s i c msg).2
  = broadcastToRoom tx (clients s) (roomId c)
      (Draw {| a_userId := userId c; a_type := m_tool msg; a_data := m_data msg |}).
Proof.
  intros Hc. unfold case_draw. rewrite getRoom_pair. simpl.
  by apply (broadcast_slot tx i (clients s) c).
Qed.

(** The decoding turns no value into a string and leaves a string as it
    is: the comparison with a client's [userId] is the same before and
    after. *)
Lemma strict_eq_json_Str (v : jsval) (u : string) :
  strict_eq (json v) (Str u) = strict_eq v (Str u).
Proof. by destruct v. Qed.

(** C4, as the code has it. A [draw] is sent, when their sockets accept
    it, once to every open connection of the sender's room and to no
    other: the originating connection, once it has joined, receives its
    own segment too.  It is the originator's client that drops it.  The
    client of any other user draws the segment when the [data] it
    decodes is neither [undefined] nor [null], and throws without
    drawing when it is. *)
Theorem draw_reaches_whole_room tx (s : server) (i : nat) (c : conn) (rnd : double)
    (msg : message) :
  clients s !! i = Some c →
  m_type msg = Str "draw" →
  deliverable tx (clients s) (roomId c) →
  let a := {| a_userId := userId c; a_type := m_tool msg; a_data := m_data msg |} in
  let e := (on_message tx s i rnd (Parsed msg)).2 in
  let d := json (m_data msg) in
  sent e = (fun j => (j, Draw a)) <$> recipients (clients s) (roomId c)
  ∧ (readyState c = 1 → joined c → (i, Draw a) ∈ sent e)
  ∧ (∀ prop st, Str (this_userId st) = userId c →
       handleMessage prop st (json_msg (Draw a)) = (st, [], Normal))
  ∧ (∀ prop st, Str (this_userId st) ≠ userId c →
       handleMessage prop st (json_msg (Draw a))
       = if nullish d then (st, [], Throw)
         else (st,
               [OpRemoteDrawLine (read prop d "x") (read prop d "y")
                  (js_or (read prop d "x2") (read prop d "x"))
                  (js_or (read prop d "y2") (read prop d "y"))
                  (read prop d "color") (read prop d "width") (json (m_tool msg))],
               Normal)).
Proof.
  intros Hc Ht Hok a e d. subst a e d.
  rewrite (on_message_parsed _ _ _ c) by done.
  rewrite dispatch_draw by done. simpl.
  rewrite case_draw_sends by done.
  rewrite try_catch_reaches by done. simpl.
  split; [done |]. split; [| split].
  - intros Ho Hj. by eapply sent_elem.
  - intros prop st Hme. rewrite strict_eq_json_Str, <- Hme. by rewrite strict_eq_refl.
  - intros prop st Hme. rewrite strict_eq_json_Str.
    destruct (strict_eq (userId c) (Str (this_userId st))) eqn:E; [| done].
    apply strict_eq_true in E. congruence.
Qed.

Lemma draw_reaches_whole_room_witness :
  sent (on_message reliable studio 0 rnd_zero (Parsed (draw_msg 3))).2
  = [(0, Draw (seg "alice" 3)); (1, Draw (seg "alice" 3))].
Proof.
  destruct (draw_reaches_whole_room reliable studio 0 alice_drawing rnd_zero (draw_msg 3))
    as [Hsent _]; [reflexivity | reflexivity | by intros j _ |].
  rewrite Hsent. vm_compute. reflexivity.
Defined.

(** C4 as stated fails: Alice, connection 0, has joined "default" and
    sends a segment; the server sends it back to connection 0. *)
Lemma draw_echoed_to_originator :
  clients studio !! 0 = Some alice_drawing
  ∧ (0, Draw (seg "alice" 3))
      ∈ sent (on_message reliable studio 0 rnd_zero (Parsed (draw_msg 3))).2.
Proof. split; [reflexivity |]. vm_compute. apply elem_of_cons. by left. Qed.

(** ** Commands that find nothing to do *)

Lemma undo_room_empty (r : room) : history r = [] → undo_room r = r.
Proof. intros H. unfold undo_room. by rewrite H. Qed.

Lemma redo_room_empty (r : room) : redoStack r = [] → redo_room r = r.
Proof. intros H. unfold redo_room. by rewrite H. Qed.

(** Writing back the room [getRoom] returned changes no room. *)
Lemma room_rewritten (s : server) (cs : list conn) (rid rid' : jsval) :
  the_room {| rooms := <[rid := the_room s rid]> (getRoom (rooms s) rid).1; clients := cs |}
    rid' = the_room s rid'.
Proof.
  destruct (decide (rid' = rid)) as [-> | Hne].
  - apply room_written.
  - by apply room_untouched.
Qed.

Lemma registry_rewritten (s : server) (rid : jsval) :
  is_Some (rooms s !! rid) →
  <[rid := the_room s rid]> (getRoom (rooms s) rid).1 = rooms s.
Proof.
  intros [r Hr]. unfold the_room. rewrite (getRoom_present _ _ r) by done. simpl.
  by apply insert_id.
Qed.

(** C6. An [undo] that finds the history of the room empty, and a
    [redo] that finds its redo stack empty, change no room (history,
    redo stack and roster alike) and no connection; the registry itself
    is the same when the room was there already.  The handler completes
    normally, and logs no error when the sockets of the room accept the
    broadcast. *)
Theorem undo_redo_on_empty_stack tx (s : server) (i : nat) (c : conn) (rnd : double)
    (msg : message) :
  clients s !! i = Some c →
  (m_type msg = Str "undo" ∧ history (the_room s (roomId c)) = [])
  ∨ (m_type msg = Str "redo" ∧ redoStack (the_room s (roomId c)) = []) →
  let s' := (on_message tx s i rnd (Parsed msg)).1 in
  let e := (on_message tx s i rnd (Parsed msg)).2 in
  (∀ rid, the_room s' rid = the_room s rid)
  ∧ (is_Some (rooms s !! roomId c) → rooms s' = rooms s)
  ∧ clients s' = clients s
  ∧ outcome e = Normal
  ∧ (deliverable tx (clients s) (roomId c) → logged e = false).
Proof.
  intros Hc Hcase s' e. subst s' e.
  rewrite (on_message_parsed _ _ _ c) by done.
  destruct Hcase as [[Ht Hempty] | [Ht Hempty]].
  - rewrite dispatch_undo by done. rewrite case_undo_eq.
    rewrite undo_room_empty by done. simpl.
    split; [intros rid; apply room_rewritten |].
    split; [apply registry_rewritten |].
    split; [done |]. split; [apply try_catch_outcome |].
    intros Hok. by rewrite try_catch_reaches.
  - rewrite dispatch_redo by done. rewrite case_redo_eq.
    rewrite redo_room_empty by done. simpl.
    split; [intros rid; apply room_rewritten |].
    split; [apply registry_rewritten |].
    split; [done |]. split; [apply try_catch_outcome |].
    intros Hok. by rewrite try_catch_reaches.
Qed.

Lemma undo_redo_on_empty_stack_witness :
  rooms (on_message reliable studio 1 rnd_zero (Parsed (plain "undo"))).1 = rooms studio.
Proof.
  destruct (undo_redo_on_empty_stack reliable studio 1 bob_idle rnd_zero (plain "undo"))
    as (_ & Hsame & _); [reflexivity | left; split; reflexivity |].
  apply Hsame. change (roomId bob_idle) with (Str "default").
  rewrite studio_room. by eexists.
Defined.

(** ** Frames that are no message *)

Lemma reliable_deliverable (cs : list conn) (rid : jsval) : deliverable reliable cs rid.
Proof. by intros j _. Qed.

(** On a transport on which no send throws no case of the handler
    throws, so its [catch] block logs nothing. *)
Lemma dispatch_reliable (s : server) (i : nat) (c : conn) (rnd : double) (msg : message) :
  outcome (dispatch reliable s i c rnd msg).2 = Normal
  ∧ logged (dispatch reliable s i c rnd msg).2 = false.
Proof.
  unfold dispatch. destruct (case_of (m_type msg)) as [[]|]; try done.
  - unfold case_join. rewrite getRoom_pair. simpl.
    by rewrite broadcast_reaches by apply reliable_deliverable.
  - unfold case_draw. rewrite getRoom_pair. simpl.
    by rewrite broadcast_reaches by apply reliable_deliverable.
  - unfold case_endStroke. rewrite getRoom_pair.
    by destruct (0 <? length (currentStroke c)).
  - unfold case_cursor. simpl.
    by rewrite broadcast_reaches by apply reliable_deliverable.
  - rewrite case_undo_eq. simpl.
    by rewrite broadcast_reaches by apply reliable_deliverable.
  - rewrite case_redo_eq. simpl.
    by rewrite broadcast_reaches by apply reliable_deliverable.
  - rewrite case_clear_eq. simpl.
    by rewrite broadcast_reaches by apply reliable_deliverable.
Qed.

(** C7, as the code has it. A frame that does not decode, that decodes
    to [null], or whose [type] selects no [case] is dropped: the server
    (every room with its history, redo stack and roster, every
    connection with its socket state) is exactly as before, nothing is
    sent, and the handler completes normally; on a live connection the
    frame that does not decode and the one that decodes to [null] are
    logged.  That is all the handler rejects: a frame that decodes to a
    message is never logged when the sends succeed, whatever its fields,
    be its [type] unknown or known and the fields of that command
    missing. *)
Theorem malformed_frame_discarded tx (s : server) (i : nat) (rnd : double) (data : frame) :
  (malformed data →
     (on_message tx s i rnd data).1 = s
     ∧ sent (on_message tx s i rnd data).2 = []
     ∧ outcome (on_message tx s i rnd data).2 = Normal
     ∧ (is_Some (clients s !! i) → data = Unparsable ∨ data = ParsedNull →
          logged (on_message tx s i rnd data).2 = true))
  ∧ (∀ msg, data = Parsed msg → logged (on_message reliable s i rnd data).2 = false).
Proof.
  split.
  - intros Hbad. unfold on_message.
    destruct (clients s !! i) as [c|] eqn:Hc.
    + destruct data as [| |msg]; simpl in *.
      * repeat split; done.
      * repeat split; done.
      * unfold dispatch. rewrite Hbad. simpl.
        repeat split; try done; intros _ [? | ?]; discriminate.
    + simpl. repeat split; try done; by intros [? ?].
  - intros msg ->. destruct (clients s !! i) as [c|] eqn:Hc.
    + rewrite (on_message_parsed _ _ _ c) by done. simpl.
      destruct (dispatch_reliable s i c rnd msg) as [Ho Hl].
      unfold try_catch. by rewrite Ho.
    + unfold on_message. by rewrite Hc.
Qed.

Lemma malformed_frame_discarded_witness :
  (on_message reliable gallery 0 rnd_zero (Parsed (plain "resize"))).1 = gallery
  ∧ (on_message reliable gallery 0 rnd_zero Unparsable).1 = gallery.
Proof.
  split.
  - apply (malformed_frame_discarded reliable gallery 0 rnd_zero (Parsed (plain "resize"))).
    reflexivity.
  - apply (malformed_frame_discarded reliable gallery 0 rnd_zero Unparsable). exact I.
Defined.

(** C7 as stated fails on a frame that has a known [type] and nothing
    else.  On a connection that has just been made, the frame
    [{"type":"join"}] lists a user [undefined] without a name in the
    roster of "default"; the frames [{"type":"draw"}] and
    [{"type":"endStroke"}] after it put a segment without tool and data
    into the history of that room.  None of them is logged. *)
Lemma fieldless_frames_are_executed :
  let s0 := on_connection initial in
  let s1 := (on_message reliable s0 0 rnd_zero (Parsed (plain "join"))).1 in
  let s2 := run reliable s1 [EMessage 0 rnd_zero (Parsed (plain "draw"));
                             EMessage 0 rnd_zero (Parsed (plain "endStroke"))] in
  users (the_room s0 (Str "default")) = []
  ∧ users (the_room s1 (Str "default")) = [(Undefined, User Undefined (Str "#FF6B6B"))]
  ∧ history (the_room s1 (Str "default")) = []
  ∧ history (the_room s2 (Str "default")) = [[Action Undefined Undefined Undefined]]
  ∧ logged (on_message reliable s0 0 rnd_zero (Parsed (plain "join"))).2 = false
  ∧ logged (on_message reliable s1 0 rnd_zero (Parsed (plain "draw"))).2 = false.
Proof. vm_compute. done. Qed.

(** ** Sends that fail *)





Lemma forEach_until_throw tx (i : nat) (cs : list conn) (rid : jsval) (m : out_msg) :
  sent (forEach i cs (fun i client =>
    if (readyState client =? 1) && strict_eq (ws_roomId client) rid
    then ws_send tx i m else nothing))
  = (fun j => (j, m)) <$> served_before_throw tx (recipients_from i cs rid)
  ∧ (outcome (forEach i cs (fun i client =>
       if (readyState client =? 1) && strict_eq (ws_roomId client) rid
       then ws_send tx i m else nothing)) = Throw
     ↔ ∃ j, j ∈ recipients_from i cs rid ∧ tx j = true).
Proof.
  revert i. induction cs as [|client cs IH]; intros i; simpl.
  - split; [reflexivity |]. split; [discriminate |].
    intros (j & Hj & _). by apply elem_of_nil in Hj.
  - destruct (IH (S i)) as [IHs IHo].
    destruct ((readyState client =? 1) && strict_eq (ws_roomId client) rid).
    + destruct (tx i) eqn:Ei.
      * assert (ws_send tx i m = thrown) as -> by (unfold ws_send; by rewrite Ei).
        simpl. rewrite Ei.
        split; [reflexivity |]. split; [| reflexivity]. intros _. exists i.
        split; [apply list_elem_of_here | done].
      * assert (ws_send tx i m = {| sent := [(i, m)]; logged := false; outcome := Normal |})
          as -> by (unfold ws_send; by rewrite Ei).
        unfold andThen. simpl. rewrite Ei, IHs. split; [reflexivity |].
        rewrite IHo. split.
        -- intros (j & Hj & Ht). exists j. split; [by apply list_elem_of_further | done].
        -- intros (j & Hj & Ht). apply elem_of_cons in Hj as [-> | Hj]; [congruence |].
           by exists j.
    + unfold andThen. simpl. by rewrite IHs.
Qed.









(** ** Commands before [join] *)

Lemma getRoom_fst_ne (m : gmap jsval room) (rid rid' : jsval) :
  rid' ≠ rid → (getRoom m rid).1 !! rid' = m !! rid'.
Proof.
  intros Hne. unfold getRoom. destruct (m !! rid); simpl; [done |].
  by rewrite lookup_insert_ne.
Qed.

(** C9, as the server has it. An [undo], [redo] or [clear] on a
    connection that has not joined acts on the room "default", the
    handler's initial [roomId]: that room is there afterwards (created
    if it was not), its stacks are moved or emptied as for any member,
    no other entry of the registry is created or changed, and the
    issuing connection is not among those the history is sent to. *)
Theorem command_before_join tx (s : server) (i : nat) (c : conn) (rnd : double) (msg : message) :
  clients s !! i = Some c →
  not_joined c →
  m_type msg = Str "undo" ∨ m_type msg = Str "redo" ∨ m_type msg = Str "clear" →
  let s' := (on_message tx s i rnd (Parsed msg)).1 in
  let e := (on_message tx s i rnd (Parsed msg)).2 in
  let r := the_room s (Str "default") in
  is_Some (rooms s' !! Str "default")
  ∧ (m_type msg = Str "undo" → the_room s' (Str "default") = undo_room r)
  ∧ (m_type msg = Str "redo" → the_room s' (Str "default") = redo_room r)
  ∧ (m_type msg = Str "clear" →
       the_room s' (Str "default") = {| users := users r; history := []; redoStack := [] |})
  ∧ (∀ rid, rid ≠ Str "default" → rooms s' !! rid = rooms s !! rid)
  ∧ (∀ m, (i, m) ∉ sent e).
Proof.
  intros Hc [Hrid Hws] Ht s' e r. subst s' e r.
  assert (Hnot : i ∉ recipients (clients s) (Str "default")).
  { intros (c' & Hc' & _ & Hr)%recipients_elem. congruence. }
  rewrite (on_message_parsed _ _ _ c) by done.
  destruct Ht as [Ht | [Ht | Ht]].
  - rewrite dispatch_undo by done. rewrite case_undo_eq, Hrid. simpl.
    split; [rewrite lookup_insert_eq; by eexists |].
    split; [intros _; apply room_written |].
    split; [rewrite Ht; discriminate |]. split; [rewrite Ht; discriminate |].
    split; [intros rid Hne; rewrite lookup_insert_ne by done; by apply getRoom_fst_ne |].
    intros m Hm. by apply broadcast_sent_served in Hm.
  - rewrite dispatch_redo by done. rewrite case_redo_eq, Hrid. simpl.
    split; [rewrite lookup_insert_eq; by eexists |].
    split; [rewrite Ht; discriminate |].
    split; [intros _; apply room_written |]. split; [rewrite Ht; discriminate |].
    split; [intros rid Hne; rewrite lookup_insert_ne by done; by apply getRoom_fst_ne |].
    intros m Hm. by apply broadcast_sent_served in Hm.
  - rewrite dispatch_clear by done. rewrite case_clear_eq, Hrid. simpl.
    split; [rewrite lookup_insert_eq; by eexists |].
    split; [rewrite Ht; discriminate |]. split; [rewrite Ht; discriminate |].
    split; [intros _; apply room_written |].
    split; [intros rid Hne; rewrite lookup_insert_ne by done; by apply getRoom_fst_ne |].
    intros m Hm. by apply broadcast_sent_served in Hm.
Qed.

Lemma command_before_join_witness :
  the_room (on_message reliable gallery 2 rnd_zero (Parsed (plain "undo"))).1 (Str "default")
  = undo_room (the_room gallery (Str "default")).
Proof.
  destruct (command_before_join reliable gallery 2 new_conn rnd_zero (plain "undo"))
    as (_ & Hundo & _); [reflexivity | by split | by left |].
  apply Hundo. reflexivity.
Defined.

(** C9 as stated fails: Carol, connection 2, has not joined, and her
    [undo] takes Alice's stroke out of the history of "default"; on a
    server without rooms the [undo] of a connection that has not joined
    creates the room "default". *)
Lemma undo_before_join_hits_default :
  clients gallery !! 2 = Some new_conn
  ∧ history (the_room gallery (Str "default")) = [[seg "alice" 1; seg "alice" 2]]
  ∧ history (the_room (on_message reliable gallery 2 rnd_zero (Parsed (plain "undo"))).1
               (Str "default")) = []
  ∧ rooms (on_connection initial) !! Str "default" = None
  ∧ rooms (on_message reliable (on_connection initial) 0 rnd_zero (Parsed (plain "undo"))).1
      !! Str "default" = Some new_room.
Proof. vm_compute. done. Qed.

(** ** Undo and redo as a stack round trip *)

(** On a room with a stroke to undo, or without a pending redo, [redo]
    after [undo] gives the room back. *)
Lemma undo_redo_room (r : room) :
  history r ≠ [] ∨ redoStack r = [] → redo_room (undo_room r) = r.
Proof.
  destruct r as [u h rs]. simpl. intros Hr.
  destruct (pop_cases h) as [[-> Hp] | (x & h' & -> & Hp)].
  - destruct Hr as [? | ->]; [done |]. reflexivity.
  - unfold undo_room. simpl. rewrite Hp.
    unfold redo_room. simpl. by rewrite pop_push.
Qed.

Lemma no_pending_redo_getRoom (m : gmap jsval room) (rid : jsval) :
  no_pending_redo m →
  no_pending_redo (getRoom m rid).1 ∧ redoStack (getRoom m rid).2 = [].
Proof.
  intros Hm. unfold getRoom. destruct (m !! rid) as [r|] eqn:E; simpl.
  - split; [done | by eapply Hm].
  - split; [| done]. intros rid' r'.
    rewrite lookup_insert. case_decide; [by intros [= <-] | apply Hm].
Qed.

Lemma no_pending_redo_insert (m : gmap jsval room) (rid : jsval) (r : room) :
  no_pending_redo m → redoStack r = [] → no_pending_redo (<[rid := r]> m).
Proof.
  intros Hm Hr rid' r'. rewrite lookup_insert.
  case_decide; [by intros [= <-] | apply Hm].
Qed.

Lemma no_pending_redo_room (s : server) (rid : jsval) :
  no_pending_redo (rooms s) → redoStack (the_room s rid) = [].
Proof. intros Hs. by apply no_pending_redo_getRoom. Qed.

(** Only [undo] puts a stroke on a redo stack. *)
Lemma dispatch_no_pending_redo tx (s : server) (i : nat) (c : conn) (rnd : double)
    (msg : message) :
  no_pending_redo (rooms s) →
  case_of (m_type msg) ≠ Some LUndo →
  no_pending_redo (rooms (dispatch tx s i c rnd msg).1).
Proof.
  intros Hs Hl. unfold dispatch.
  destruct (case_of (m_type msg)) as [[]|]; try done.
  - unfold case_join. rewrite getRoom_pair. simpl.
    apply no_pending_redo_insert; simpl; by apply no_pending_redo_getRoom.
  - unfold case_draw. rewrite getRoom_pair. simpl. by apply no_pending_redo_getRoom.
  - unfold case_endStroke. rewrite getRoom_pair.
    destruct (0 <? length (currentStroke c)); simpl.
    + apply no_pending_redo_insert; [by apply no_pending_redo_getRoom | done].
    + by apply no_pending_redo_getRoom.
  - rewrite case_redo_eq. simpl.
    apply no_pending_redo_insert; [by apply no_pending_redo_getRoom |].
    rewrite redo_room_empty; by apply no_pending_redo_room.
  - rewrite case_clear_eq. simpl.
    apply no_pending_redo_insert; [by apply no_pending_redo_getRoom | done].
Qed.

Lemma step_no_pending_redo tx (s : server) (ev : event) :
  no_pending_redo (rooms s) → drawing_traffic ev →
  no_pending_redo (rooms (step tx s ev)).
Proof.
  intros Hs Hev. destruct ev as [|i rnd data|i|i]; simpl.
  - done.
  - destruct (clients s !! i) as [c|] eqn:Hc.
    + destruct data as [| |msg].
      * unfold on_message. by rewrite Hc.
      * unfold on_message. by rewrite Hc.
      * rewrite (on_message_parsed _ _ _ c) by done. simpl.
        apply dispatch_no_pending_redo; [done | apply Hev].
    + unfold on_message. by rewrite Hc.
  - by rewrite on_closing_rooms.
  - unfold on_close. destruct (clients s !! i) as [c|]; [| done].
    destruct (truthy (userId c) && truthy (roomId c)); [| done].
    rewrite getRoom_pair. simpl.
    apply no_pending_redo_insert; simpl; by apply no_pending_redo_getRoom.
Qed.

Lemma run_no_pending_redo tx (s : server) (evs : list event) :
  no_pending_redo (rooms s) → Forall drawing_traffic evs →
  no_pending_redo (rooms (run tx s evs)).
Proof.
  revert s. induction evs as [|ev evs IH]; intros s Hs Hevs; [done |].
  inversion Hevs as [|? ? Hev Hrest]; subst. simpl.
  apply IH; [by apply step_no_pending_redo | done].
Qed.

(** C2. From the start of the server, after any stroke traffic
    (connections, joins, strokes begun, drawn and committed, cursor
    moves and disconnections, but no [undo], [redo] or [clear]), an
    [undo] followed at once by a [redo] on the same room leaves the
    history of that room, and its redo stack, as they were before the
    [undo]. *)
Theorem undo_then_redo_restores tx (evs : list event) (i j : nat) (ci cj : conn)
    (rnd1 rnd2 : double) (mu mr : message) :
  Forall drawing_traffic evs →
  clients (run tx initial evs) !! i = Some ci →
  clients (run tx initial evs) !! j = Some cj →
  roomId cj = roomId ci →
  m_type mu = Str "undo" →
  m_type mr = Str "redo" →
  let s := run tx initial evs in
  let s1 := (on_message tx s i rnd1 (Parsed mu)).1 in
  let s2 := (on_message tx s1 j rnd2 (Parsed mr)).1 in
  history (the_room s2 (roomId ci)) = history (the_room s (roomId ci))
  ∧ redoStack (the_room s2 (roomId ci)) = redoStack (the_room s (roomId ci)).
Proof.
  intros Hevs Hi Hj Hrid Hu Hr s s1 s2.
  assert (Hs : no_pending_redo (rooms s)) by (by apply run_no_pending_redo).
  assert (H1 : s1 = {| rooms := <[roomId ci := undo_room (the_room s (roomId ci))]>
                                  (getRoom (rooms s) (roomId ci)).1;
                       clients := clients s |}).
  { subst s1. rewrite (on_message_parsed _ _ _ ci) by done.
    rewrite dispatch_undo by done. by rewrite case_undo_eq. }
  assert (H2 : the_room s2 (roomId ci) = redo_room (the_room s1 (roomId ci))).
  { subst s2. rewrite (on_message_parsed _ _ _ cj) by (by rewrite H1).
    rewrite dispatch_redo by done. rewrite case_redo_eq, Hrid. simpl.
    apply room_written. }
  rewrite H2, H1, room_written.
  rewrite undo_redo_room; [done |].
  right. by apply no_pending_redo_room.
Qed.

Lemma undo_then_redo_restores_witness :
  history (the_room
    (on_message reliable
       (on_message reliable
          (run reliable initial (studio_events ++ [EMessage 0 rnd_zero (Parsed (plain "endStroke"))]))
          0 rnd_zero (Parsed (plain "undo"))).1
       1 rnd_zero (Parsed (plain "redo"))).1 (Str "default"))
  = [[seg "alice" 1; seg "alice" 2]].
Proof.
  assert (Htraffic : Forall drawing_traffic
            (studio_events ++ [EMessage 0 rnd_zero (Parsed (plain "endStroke"))])).
  { repeat (constructor; [cbv; intuition discriminate |]). constructor. }
  exact (proj1 (undo_then_redo_restores reliable _ 0 1 alice_idle bob_idle rnd_zero rnd_zero
                  (plain "undo") (plain "redo") Htraffic eq_refl eq_refl eq_refl
                  eq_refl eq_refl)).
Defined.

(** ** Joined and not joined, on the running server *)

(** A case touches the slot of its own connection only; but for [join]
    it leaves the handler's [roomId] and the socket's [roomId] property
    alone, and [join] sets them to the same room. *)
Lemma dispatch_slot tx (s : server) (i : nat) (c : conn) (rnd : double) (msg : message) :
  clients s !! i = Some c →
  ∃ c', clients (dispatch tx s i c rnd msg).1 = <[i := c']> (clients s)
        ∧ (case_of (m_type msg) ≠ Some LJoin →
             roomId c' = roomId c ∧ ws_roomId c' = ws_roomId c)
        ∧ (case_of (m_type msg) = Some LJoin → joined c').
Proof.
  intros Hc. unfold dispatch.
  assert (Hsame : ∃ c', clients s = <[i := c']> (clients s)
        ∧ (roomId c' = roomId c ∧ ws_roomId c' = ws_roomId c)).
  { exists c. by rewrite list_insert_id. }
  destruct (case_of (m_type msg)) as [[]|].
  - unfold case_join. rewrite getRoom_pair. simpl. eexists. split; [done |].
    split; [done |]. intros _. reflexivity.
  - simpl. eexists. split; [done |]. split; [done |]. discriminate.
  - unfold case_draw. rewrite getRoom_pair. simpl. eexists. split; [done |].
    split; [done |]. discriminate.
  - unfold case_endStroke. rewrite getRoom_pair.
    destruct (0 <? length (currentStroke c)); simpl.
    + eexists. split; [done |]. split; [done |]. discriminate.
    + destruct Hsame as (c' & ? & ?). exists c'. split; [done |].
      split; [done |]. discriminate.
  - simpl. destruct Hsame as (c' & ? & ?). exists c'. split; [done |].
    split; [done |]. discriminate.
  - rewrite case_undo_eq. simpl. destruct Hsame as (c' & ? & ?). exists c'.
    split; [done |]. split; [done |]. discriminate.
  - rewrite case_redo_eq. simpl. destruct Hsame as (c' & ? & ?). exists c'.
    split; [done |]. split; [done |]. discriminate.
  - rewrite case_clear_eq. simpl. destruct Hsame as (c' & ? & ?). exists c'.
    split; [done |]. split; [done |]. discriminate.
  - simpl. destruct Hsame as (c' & ? & ?). exists c'. split; [done |].
    split; [done |]. discriminate.
Qed.

Lemma step_slot tx (s : server) (ev : event) (i : nat) (c' : conn) :
  clients (step tx s ev) !! i = Some c' →
  (clients s !! i = None ∧ c' = new_conn)
  ∨ (∃ c, clients s !! i = Some c
          ∧ ((roomId c' = roomId c ∧ ws_roomId c' = ws_roomId c)
             ∨ (join_on i ev ∧ joined c'))).
Proof.
  destruct ev as [|j rnd data|j|j]; simpl.
  - intros [H | [Hlen H]]%lookup_app_Some.
    + right. exists c'. split; [done |]. by left.
    + left. split; [by apply lookup_ge_None |].
      destruct (i - length (clients s)); simpl in H; [by injection H | done].
  - intros H. right.
    destruct (clients s !! j) as [cj|] eqn:Hj.
    + destruct data as [| |msg].
      * unfold on_message in H. rewrite Hj in H. exists c'. split; [done | by left].
      * unfold on_message in H. rewrite Hj in H. exists c'. split; [done | by left].
      * rewrite (on_message_parsed _ _ _ cj) in H by done. simpl in H.
        destruct (dispatch_slot tx s j cj rnd msg Hj) as (c'' & Hcs & Hkeep & Hjoin).
        rewrite Hcs in H.
        destruct (decide (j = i)) as [-> | Hne].
        -- rewrite list_lookup_insert_eq in H by (by eapply lookup_lt_Some).
           injection H as <-. exists cj. split; [done |].
           destruct (decide (case_of (m_type msg) = Some LJoin)) as [Hl | Hl].
           ++ right. split; [by split | by apply Hjoin].
           ++ left. by apply Hkeep.
        -- rewrite list_lookup_insert_ne in H by done.
           exists c'. split; [done | by left].
    + unfold on_message in H. rewrite Hj in H. exists c'. split; [done | by left].
  - intros (c & Hc & Hw & _ & _ & _ & _ & Hr & _)%on_closing_slot.
    right. exists c. split; [done | by left].
  - intros H. right. unfold on_close in H.
    destruct (clients s !! j) as [cj|] eqn:Hj; [| exists c'; split; [done | by left]].
    assert (Hcs : clients s !! i = Some c' ∨
                  (clients s !! i = Some cj ∧ roomId c' = roomId cj
                   ∧ ws_roomId c' = ws_roomId cj)).
    { destruct (truthy (userId cj) && truthy (roomId cj));
        [rewrite getRoom_pair in H |]; simpl in H;
        (destruct (decide (j = i)) as [-> | Hne];
          [rewrite list_lookup_insert_eq in H by (by eapply lookup_lt_Some);
           injection H as <-; by right
          | rewrite list_lookup_insert_ne in H by done; by left]). }
    destruct Hcs as [? | (? & ? & ?)].
    + exists c'. split; [done | by left].
    + exists cj. split; [done | by left].
Qed.

Lemma run_snoc tx (s : server) (evs : list event) (ev : event) :
  run tx s (evs ++ [ev]) = step tx (run tx s evs) ev.
Proof. unfold run. by rewrite fold_left_app. Qed.

(** On the running server every connection either has not joined or
    has joined, in the sense of [not_joined] and [joined]. *)
Lemma connection_status tx (evs : list event) (i : nat) (c : conn) :
  clients (run tx initial evs) !! i = Some c → not_joined c ∨ joined c.
Proof.
  revert i c. induction evs as [|ev evs IH] using rev_ind; intros i c.
  - simpl. by rewrite lookup_nil.
  - rewrite run_snoc. intros [[_ ->] | (c0 & Hc0 & Hc)]%step_slot.
    + by left.
    + destruct Hc as [[Hr Hw] | [_ Hj]]; [| by right].
      destruct (IH i c0 Hc0) as [[? ?] | Hj0].
      * left. split; congruence.
      * right. unfold joined in *. congruence.
Qed.

(** A connection has not joined for as long as it has sent no [join]. *)
Lemma not_joined_until_join tx (evs : list event) (i : nat) (c : conn) :
  Forall (fun ev => ¬ join_on i ev) evs →
  clients (run tx initial evs) !! i = Some c → not_joined c.
Proof.
  revert c. induction evs as [|ev evs IH] using rev_ind; intros c Hevs.
  - simpl. by rewrite lookup_nil.
  - apply Forall_app in Hevs as [Hevs Hev]. rewrite Forall_singleton in Hev.
    rewrite run_snoc. intros [[_ ->] | (c0 & Hc0 & Hc)]%step_slot.
    + by split.
    + destruct Hc as [[Hr Hw] | [Hj _]]; [| by destruct Hev].
      destruct (IH c0 Hevs Hc0) as [? ?]. split; congruence.
Qed.

(** ** The scenarios of the design notes, run on the model *)

(** With Alice's stroke committed: [undo] empties the history and parks
    the stroke, [redo] brings it back, and Bob's next stroke lands
    behind it with the redo stack empty. *)
Example scenario_undo_redo_commit :
  let s0 := run reliable initial
              (studio_events ++ [EMessage 0 rnd_zero (Parsed (plain "endStroke"))]) in
  let s1 := (on_message reliable s0 0 rnd_zero (Parsed (plain "undo"))).1 in
  let s2 := (on_message reliable s1 0 rnd_zero (Parsed (plain "redo"))).1 in
  let s3 := run reliable s2
              [EMessage 1 rnd_zero (Parsed (plain "startStroke"));
               EMessage 1 rnd_zero (Parsed (draw_msg 3));
               EMessage 1 rnd_zero (Parsed (plain "endStroke"))] in
  rooms s1 !! Str "default"
    = Some {| users := users (the_room s0 (Str "default")); history := [];
              redoStack := [[seg "alice" 1; seg "alice" 2]] |}
  ∧ sent (on_message reliable s0 0 rnd_zero (Parsed (plain "undo"))).2
    = [(0, History []); (1, History [])]
  ∧ rooms s2 !! Str "default" = rooms s0 !! Str "default"
  ∧ history (the_room s3 (Str "default"))
    = [[seg "alice" 1; seg "alice" 2]; [seg "bob" 3]]
  ∧ redoStack (the_room s3 (Str "default")) = [].
Proof. vm_compute. done. Qed.

(** A commit after an [undo] drops the undone stroke for good: the
    [redo] that follows finds nothing. *)
Example scenario_commit_after_undo :
  let s1 := run reliable gallery
              [EMessage 0 rnd_zero (Parsed (plain "startStroke"));
               EMessage 0 rnd_zero (Parsed (draw_msg 4));
               EMessage 0 rnd_zero (Parsed (plain "endStroke"))] in
  let s2 := (on_message reliable s1 1 rnd_zero (Parsed (plain "redo"))).1 in
  redoStack (the_room s1 (Str "default")) = []
  ∧ history (the_room s2 (Str "default"))
    = [[seg "alice" 1; seg "alice" 2]; [seg "alice" 4]].
Proof. vm_compute. done. Qed.

(** A connection that closes while assembling leaves no entry behind. *)
Example scenario_close_while_assembling :
  history (the_room (on_close reliable studio 0).1 (Str "default")) = []
  ∧ users (the_room (on_close reliable studio 0).1 (Str "default"))
    = [(Str "bob", User (Str "Bob") (Str "#FF6B6B"))]
  ∧ sent (on_close reliable studio 0).2 = [(1, UserLeft (Str "alice"))].
Proof. vm_compute. done. Qed.

(** * Further properties of the server *)

(** ** The room registry *)

(** X1. [getRoom] registers an empty room for an identifier it does not
    know and returns the registered room for one it knows, without
    replacing it; either way the room it returns is registered
    afterwards, a second call finds that same room and changes nothing,
    and no other identifier is touched. *)
Theorem getRoom_get_or_create (m : gmap jsval room) (rid : jsval) :
  (getRoom m rid).1 !! rid = Some (getRoom m rid).2
  ∧ getRoom (getRoom m rid).1 rid = getRoom m rid
  ∧ (∀ rid', rid' ≠ rid → (getRoom m rid).1 !! rid' = m !! rid')
  ∧ (m !! rid = None → (getRoom m rid).2 = new_room)
  ∧ (∀ r, m !! rid = Some r → getRoom m rid = (m, r)).
Proof.
  assert (Hreg : (getRoom m rid).1 !! rid = Some (getRoom m rid).2).
  { unfold getRoom. destruct (m !! rid) eqn:E; simpl; [done |].
    by rewrite lookup_insert_eq. }
  split; [done |]. split.
  - rewrite (getRoom_present _ _ _ Hreg). by rewrite <- getRoom_pair.
  - split; [intros rid' Hne; by apply getRoom_fst_ne |].
    split; [intros Hm; unfold getRoom; by rewrite Hm |].
    intros r. apply getRoom_present.
Qed.

(** ** Colours *)

Section Colours.

Local Open Scope Z_scope.

(** Rounding moves the quotient by at most half a unit. *)
Lemma round_shift_bounds (m s : Z) :
  0 ≤ m → 0 < s →
  m / 2 ^ s ≤ round_shift m s ≤ (m + 2 ^ (s - 1)) / 2 ^ s.
Proof.
  intros Hm Hs. unfold round_shift.
  rewrite Z.shiftr_div_pow2, !Z.shiftl_mul_pow2 by lia.
  rewrite Z.mul_1_l.
  assert (Hpow : 2 ^ s = 2 * 2 ^ (s - 1)).
  { rewrite <- Z.pow_succ_r by lia. f_equal. lia. }
  assert (Hhalf : 0 < 2 ^ (s - 1)) by (apply Z.pow_pos_nonneg; lia).
  set (h := 2 ^ (s - 1)) in *.
  set (q := m / 2 ^ s).
  assert (Hq : m = 2 ^ s * q + m mod 2 ^ s) by (apply Z.div_mod; lia).
  assert (Hr : 0 ≤ m mod 2 ^ s < 2 ^ s) by (apply Z.mod_pos_bound; lia).
  assert (Hup : ∀ k, k * 2 ^ s ≤ m + h → k ≤ (m + h) / 2 ^ s).
  { intros k Hk. apply Z.div_le_lower_bound; lia. }
  destruct (s =? 0) eqn:E0; [lia |].
  destruct (_ <? h) eqn:E1; [split; [lia | apply Hup; lia] |].
  apply Z.ltb_ge in E1.
  assert (Hq1 : q + 1 ≤ (m + h) / 2 ^ s) by (apply Hup; lia).
  destruct (h <? _) eqn:E2; [lia |].
  destruct (Z.even q); lia.
Qed.

Lemma excess_cases (m : Z) :
  (Z.log2 m ≤ 52 ∧ excess m = 0) ∨ (53 ≤ Z.log2 m ∧ excess m = Z.log2 m - 52).
Proof. unfold excess. lia. Qed.

(** Six times a double below 1 is, once rounded, still below 6: the
    largest double below 1 is [1 - 2 ^ -53], and six times it lies
    three quarters of a unit in the last place under 6. *)
Lemma color_index_bounds (d : double) :
  unit_double d → 0 ≤ double_floor (double_mul d 6) < 6.
Proof.
  intros ([Hm0 Hm53] & He & Hlt). unfold double_floor, double_mul. simpl mant. simpl expo.
  change (Z.of_nat 6) with 6.
  set (m := mant d) in *. set (e := expo d) in *. set (M := m * 6).
  assert (He0 : e ≤ 0).
  { destruct (decide (e ≤ 0)) as [? | Hpos]; [done |].
    rewrite Z.pow_neg_r in Hlt by lia. lia. }
  assert (Hu : 0 < 2 ^ (- e)) by (apply Z.pow_pos_nonneg; lia).
  destruct (excess_cases M) as [[Hlog ->] | [Hlog ->]].
  - unfold round_shift. simpl. rewrite Z.add_0_r.
    rewrite Z.shiftl_div_pow2 by done.
    split; [apply Z.div_pos; lia | apply Z.div_lt_upper_bound; lia].
  - set (s := Z.log2 M - 52).
    assert (HM : 0 < M).
    { destruct (decide (0 < M)) as [? | Hn]; [done |].
      rewrite Z.log2_nonpos in Hlog by lia. lia. }
    destruct (Z.log2_spec M HM) as [Hlo Hhi].
    assert (Hs3 : s ≤ 3).
    { assert (Z.log2 M < 56); [| lia]. apply Z.log2_lt_pow2; [done |].
      change (2 ^ 56) with (6 * 2 ^ 53 + 2 * 2 ^ 53). lia. }
    assert (Hs1 : 1 ≤ s) by lia.
    assert (Hsu : 49 + s < - e).
    { assert (2 ^ (52 + s) < 2 ^ (- e + 3)) as Hp; [| apply Z.pow_lt_mono_r_iff in Hp; lia].
      replace (52 + s) with (Z.log2 M) by lia.
      rewrite Z.pow_add_r by lia. change (2 ^ 3) with 8. lia. }
    set (t := - e - s).
    assert (Hpow : 2 ^ (- e) = 2 ^ t * 2 ^ s).
    { rewrite <- Z.pow_add_r by lia. f_equal. lia. }
    assert (Ht : 0 < 2 ^ t) by (apply Z.pow_pos_nonneg; lia).
    assert (Hps : 0 < 2 ^ s) by (apply Z.pow_pos_nonneg; lia).
    assert (Hhalf : 2 ^ (s - 1) ≤ 4).
    { change 4 with (2 ^ 2). apply Z.pow_le_mono_r; lia. }
    destruct (round_shift_bounds M s) as [Hr0 Hr1]; [lia | lia |].
    assert (Hq0 : 0 ≤ M / 2 ^ s) by (apply Z.div_pos; lia).
    assert (Hr6 : round_shift M s < 6 * 2 ^ t).
    { eapply Z.le_lt_trans; [exact Hr1 |]. apply Z.div_lt_upper_bound; [done |]. nia. }
    rewrite Z.shiftl_div_pow2 by lia.
    replace (- (e + s)) with t by lia.
    split; [apply Z.div_pos; lia | apply Z.div_lt_upper_bound; lia].
Qed.

End Colours.

(** Whatever [Math.random()] returns, the colour is a string of the
    palette or [undefined]. *)
Lemma assignColor_cases (rnd : double) : assignColor rnd = Undefined ∨ assignColor rnd ∈ colors.
Proof.
  unfold assignColor. destruct (_ <? 0)%Z; [by left |].
  destruct (colors !! _) as [v|] eqn:E; [right | by left].
  simpl. by eapply list_elem_of_lookup_2.
Qed.

(** X2. For a [Math.random()] value in the interval from 0 (included)
    to 1 (excluded), [assignColor] returns one of the six colours of the
    palette, never [undefined]: the product with the length of the
    palette, rounded as the double arithmetic rounds it, stays below
    that length. *)
Theorem assignColor_in_palette (rnd : double) :
  unit_double rnd → assignColor rnd ∈ colors.
Proof.
  intros Hrnd. unfold assignColor.
  change (length colors) with 6.
  destruct (color_index_bounds rnd Hrnd) as [Hk0 Hk6].
  set (k := double_floor (double_mul rnd 6)) in *.
  destruct (k <? 0)%Z eqn:E; [apply Z.ltb_lt in E; lia |].
  assert (Hn : Z.to_nat k < 6) by lia.
  destruct (Z.to_nat k) as [|[|[|[|[|[|n]]]]]]; [| | | | | | lia]; simpl;
    repeat (first [apply list_elem_of_here | apply list_elem_of_further]).
Qed.

(** The product of [3752999689475413 / 2 ^ 52] and 6 lies halfway
    between two doubles, [5 - 2 ^ -50] and 5, and is rounded to 5: the
    colour is the sixth of the palette, where the floor of the exact
    product would pick the fifth.  Likewise six times the double next
    to one sixth is rounded to 1. *)
Example assignColor_rounds :
  assignColor {| mant := 3752999689475413; expo := -52 |} = Str "#F7DC6F"
  ∧ (3752999689475413 * 6 / 2 ^ 52 = 4)%Z
  ∧ assignColor {| mant := 6004799503160661; expo := -55 |} = Str "#4ECDC4"
  ∧ (6004799503160661 * 6 / 2 ^ 55 = 0)%Z.
Proof. by vm_compute. Qed.

Lemma assignColor_in_palette_witness :
  assignColor {| mant := 3752999689475413; expo := -52 |} ∈ colors.
Proof. apply assignColor_in_palette. unfold unit_double. simpl. lia. Defined.

(** ** Rosters as maps *)

Lemma map_get_set_eq (k : jsval) (v : user) (m : list (jsval * user)) :
  map_get k (map_set k v m) = Some v.
Proof.
  induction m as [|[k' v'] m IH]; simpl.
  - by rewrite strict_eq_refl.
  - destruct (strict_eq k' k) eqn:E; simpl.
    + by rewrite strict_eq_refl.
    + by rewrite E.
Qed.

Lemma map_get_set_ne (k k0 : jsval) (v : user) (m : list (jsval * user)) :
  k0 ≠ k → map_get k0 (map_set k v m) = map_get k0 m.
Proof.
  intros Hne. induction m as [|[k' v'] m IH]; simpl.
  - destruct (strict_eq k k0) eqn:E; [| done]. apply strict_eq_true in E. congruence.
  - destruct (strict_eq k' k) eqn:E; simpl.
    + apply strict_eq_true in E. subst k'.
      destruct (strict_eq k k0) eqn:E0; [| done]. apply strict_eq_true in E0. congruence.
    + by rewrite IH.
Qed.

Lemma map_set_keys (k x : jsval) (v : user) (m : list (jsval * user)) :
  x ∈ (map_set k v m).*1 ↔ x = k ∨ x ∈ m.*1.
Proof.
  induction m as [|[k' v'] m IH]; simpl.
  - rewrite elem_of_cons. tauto.
  - destruct (strict_eq k' k) eqn:E; simpl; rewrite !elem_of_cons.
    + apply strict_eq_true in E. subst k'. tauto.
    + rewrite IH. tauto.
Qed.

Lemma map_set_NoDup (k : jsval) (v : user) (m : list (jsval * user)) :
  NoDup m.*1 → NoDup (map_set k v m).*1.
Proof.
  induction m as [|[k' v'] m IH]; simpl; intros Hm.
  - apply NoDup_singleton.
  - apply NoDup_cons in Hm as [Hk' Hm].
    destruct (strict_eq k' k) eqn:E; simpl.
    + apply strict_eq_true in E. subst k'. by apply NoDup_cons.
    + apply NoDup_cons. split; [| by apply IH].
      rewrite map_set_keys. intros [-> | ?]; [| done].
      by rewrite strict_eq_refl in E.
Qed.

Lemma map_delete_keys (k x : jsval) (m : list (jsval * user)) :
  x ∈ (map_delete k m).*1 → x ∈ m.*1.
Proof.
  induction m as [|[k' v'] m IH]; simpl; [done |].
  destruct (strict_eq k' k); simpl; rewrite !elem_of_cons; [by right |].
  intros [-> | ?]; [by left | right; by apply IH].
Qed.

Lemma map_delete_NoDup (k : jsval) (m : list (jsval * user)) :
  NoDup m.*1 → NoDup (map_delete k m).*1.
Proof.
  induction m as [|[k' v'] m IH]; simpl; intros Hm; [done |].
  apply NoDup_cons in Hm as [Hk' Hm].
  destruct (strict_eq k' k); simpl; [done |].
  apply NoDup_cons. split; [| by apply IH].
  intros H. by apply map_delete_keys in H.
Qed.

Lemma map_get_None (k : jsval) (m : list (jsval * user)) :
  map_get k m = None ↔ k ∉ m.*1.
Proof.
  induction m as [|[k' v'] m IH]; simpl.
  - split; [intros _; by apply not_elem_of_nil | done].
  - rewrite not_elem_of_cons. destruct (strict_eq k' k) eqn:E.
    + apply strict_eq_true in E. subst k'. split; [done | by intros [? _]].
    + rewrite IH. split; [| by intros [_ ?]]. intros H. split; [| done].
      intros ->. by rewrite strict_eq_refl in E.
Qed.

Lemma map_get_delete_eq (k : jsval) (m : list (jsval * user)) :
  NoDup m.*1 → map_get k (map_delete k m) = None.
Proof.
  induction m as [|[k' v'] m IH]; simpl; intros Hm; [done |].
  apply NoDup_cons in Hm as [Hk' Hm].
  destruct (strict_eq k' k) eqn:E; simpl.
  - apply strict_eq_true in E. subst k'. by apply map_get_None.
  - rewrite E. by apply IH.
Qed.

Lemma map_get_delete_ne (k k0 : jsval) (m : list (jsval * user)) :
  k0 ≠ k → map_get k0 (map_delete k m) = map_get k0 m.
Proof.
  intros Hne. induction m as [|[k' v'] m IH]; simpl; [done |].
  destruct (strict_eq k' k) eqn:E; simpl.
  - apply strict_eq_true in E. subst k'.
    destruct (strict_eq k k0) eqn:E0; [| done]. apply strict_eq_true in E0. congruence.
  - by rewrite IH.
Qed.

(** ** Joining *)

Lemma dispatch_join tx (s : server) (i : nat) (c : conn) (rnd : double) (msg : message) :
  m_type msg = Str "join" → dispatch tx s i c rnd msg = case_join tx s i c rnd msg.
Proof. intros H. unfold dispatch. by rewrite H. Qed.

(** X3. A [join] lists the user in the roster of the room the message
    names, or of "default" when it names none, with the name sent and
    the colour drawn: a later lookup of that user finds this entry, the
    other users of the roster are as before, and so are the history and
    the redo stack of the room and every other room.  The connection is
    joined to that room under that user, its accumulator and socket
    state untouched. *)
Theorem join_registers tx (s : server) (i : nat) (c : conn) (rnd : double) (msg : message) :
  clients s !! i = Some c →
  m_type msg = Str "join" →
  let rid := js_or (m_roomId msg) (Str "default") in
  let s' := (on_message tx s i rnd (Parsed msg)).1 in
  map_get (m_userId msg) (users (the_room s' rid))
    = Some (User (m_userName msg) (assignColor rnd))
  ∧ (∀ uid, uid ≠ m_userId msg →
       map_get uid (users (the_room s' rid)) = map_get uid (users (the_room s rid)))
  ∧ history (the_room s' rid) = history (the_room s rid)
  ∧ redoStack (the_room s' rid) = redoStack (the_room s rid)
  ∧ (∀ rid', rid' ≠ rid → the_room s' rid' = the_room s rid')
  ∧ (truthy (m_roomId msg) = false → rid = Str "default")
  ∧ clients s' !! i
    = Some {| readyState := readyState c; ws_roomId := rid; ws_userId := m_userId msg;
              userId := m_userId msg; userName := m_userName msg;
              userColor := assignColor rnd; roomId := rid;
              currentStroke := currentStroke c |}.
Proof.
  intros Hc Ht rid s'. subst s'.
  rewrite (on_message_parsed _ _ _ c) by done.
  rewrite dispatch_join by done.
  unfold case_join. fold rid. rewrite getRoom_pair. simpl.
  rewrite room_written. simpl.
  split; [apply map_get_set_eq |].
  split; [intros uid Hne; by apply map_get_set_ne |].
  split; [done |]. split; [done |].
  split; [intros rid' Hne; by apply room_untouched |].
  split; [intros Hf; subst rid; unfold js_or; by rewrite Hf |].
  by eapply slot_written.
Qed.

Lemma join_registers_witness :
  map_get (Str "carol")
    (users (the_room (on_message reliable gallery 2 rnd_zero
                        (Parsed (join_msg "carol" "Carol" ""))).1 (Str "default")))
  = Some (User (Str "Carol") (Str "#FF6B6B")).
Proof.
  destruct (join_registers reliable gallery 2 new_conn rnd_zero (join_msg "carol" "Carol" ""))
    as [Hget _]; [reflexivity | reflexivity |].
  exact Hget.
Defined.

(** X4. When the sends succeed, a [join] is answered to the joining
    connection first, with its colour, the roster of the room with the
    new user in it and the history of the room; then [userJoined] goes
    to every open connection of the room, the one that has just joined
    included. *)
Theorem join_replies tx (s : server) (i : nat) (c : conn) (rnd : double) (msg : message) :
  clients s !! i = Some c →
  m_type msg = Str "join" →
  tx i = false →
  deliverable tx (clients (on_message tx s i rnd (Parsed msg)).1)
    (js_or (m_roomId msg) (Str "default")) →
  let rid := js_or (m_roomId msg) (Str "default") in
  let s' := (on_message tx s i rnd (Parsed msg)).1 in
  let e := (on_message tx s i rnd (Parsed msg)).2 in
  sent e
  = (i, Joined (assignColor rnd) (users (the_room s' rid)) (history (the_room s' rid)))
    :: ((fun j => (j, UserJoined (m_userId msg) (m_userName msg) (assignColor rnd)))
          <$> recipients (clients s') rid)
  ∧ (readyState c = 1 → i ∈ recipients (clients s') rid)
  ∧ logged e = false.
Proof.
  intros Hc Ht Hi. rewrite (on_message_parsed _ _ _ c) by done.
  rewrite dispatch_join by done.
  unfold case_join. set (rid := js_or (m_roomId msg) (Str "default")).
  rewrite getRoom_pair. simpl. intros Hok.
  rewrite room_written. simpl.
  rewrite broadcast_reaches by done.
  unfold ws_send. rewrite Hi. simpl.
  split; [done |]. split; [| done].
  intros Ho. apply recipients_elem. eexists. split; [by eapply slot_written |].
  by split.
Qed.

Lemma join_replies_witness :
  sent (on_message reliable gallery 2 rnd_zero (Parsed (join_msg "carol" "Carol" "default"))).2
  = [(2, Joined (Str "#FF6B6B")
           [(Str "alice", User (Str "Alice") (Str "#FF6B6B"));
            (Str "bob", User (Str "Bob") (Str "#FF6B6B"));
            (Str "carol", User (Str "Carol") (Str "#FF6B6B"))]
           [[seg "alice" 1; seg "alice" 2]]);
     (0, UserJoined (Str "carol") (Str "Carol") (Str "#FF6B6B"));
     (1, UserJoined (Str "carol") (Str "Carol") (Str "#FF6B6B"));
     (2, UserJoined (Str "carol") (Str "Carol") (Str "#FF6B6B"))].
Proof.
  destruct (join_replies reliable gallery 2 new_conn rnd_zero (join_msg "carol" "Carol" "default"))
    as [Hsent _]; [reflexivity | reflexivity | reflexivity | by intros j _ |].
  rewrite Hsent. vm_compute. reflexivity.
Defined.

(** ** Invariants of the rooms *)

Section RoomInvariant.

(** A property of rooms that the empty room has and that every change a
    handler makes to a room keeps. *)
Variable P : room -> Prop.
Hypothesis P_new : P new_room.
Hypothesis P_set : ∀ r k v, P r →
  P {| users := map_set k v (users r); history := history r; redoStack := redoStack r |}.
Hypothesis P_delete : ∀ r k, P r →
  P {| users := map_delete k (users r); history := history r; redoStack := redoStack r |}.
Hypothesis P_commit : ∀ r st, st ≠ [] → P r →
  P {| users := users r; history := push (history r) st; redoStack := [] |}.
Hypothesis P_undo : ∀ r, P r → P (undo_room r).
Hypothesis P_redo : ∀ r, P r → P (redo_room r).
Hypothesis P_clear : ∀ r, P r → P {| users := users r; history := []; redoStack := [] |}.

Lemma invariant_getRoom (m : gmap jsval room) (rid : jsval) :
  map_Forall (fun _ => P) m →
  map_Forall (fun _ => P) (getRoom m rid).1 ∧ P (getRoom m rid).2.
Proof.
  intros Hm. unfold getRoom. destruct (m !! rid) as [r|] eqn:E; simpl.
  - split; [done | by eapply Hm].
  - split; [| done]. by apply map_Forall_insert_2.
Qed.

Lemma invariant_the_room (s : server) (rid : jsval) :
  map_Forall (fun _ => P) (rooms s) → P (the_room s rid).
Proof. intros Hs. by apply invariant_getRoom. Qed.

Lemma invariant_dispatch tx (s : server) (i : nat) (c : conn) (rnd : double) (msg : message) :
  map_Forall (fun _ => P) (rooms s) →
  map_Forall (fun _ => P) (rooms (dispatch tx s i c rnd msg).1).
Proof.
  intros Hs. unfold dispatch.
  destruct (case_of (m_type msg)) as [[]|]; try done.
  - unfold case_join. rewrite getRoom_pair. simpl.
    apply map_Forall_insert_2; [apply P_set |]; by apply invariant_getRoom.
  - unfold case_draw. rewrite getRoom_pair. simpl. by apply invariant_getRoom.
  - unfold case_endStroke. rewrite getRoom_pair.
    destruct (currentStroke c) as [|a cur] eqn:E; simpl.
    + by apply invariant_getRoom.
    + apply map_Forall_insert_2; [| by apply invariant_getRoom].
      apply P_commit; [done | by apply invariant_getRoom].
  - rewrite case_undo_eq. simpl.
    apply map_Forall_insert_2; [| by apply invariant_getRoom].
    apply P_undo. by apply invariant_the_room.
  - rewrite case_redo_eq. simpl.
    apply map_Forall_insert_2; [| by apply invariant_getRoom].
    apply P_redo. by apply invariant_the_room.
  - rewrite case_clear_eq. simpl.
    apply map_Forall_insert_2; [| by apply invariant_getRoom].
    apply P_clear. by apply invariant_the_room.
Qed.

Lemma invariant_step tx (s : server) (ev : event) :
  map_Forall (fun _ => P) (rooms s) → map_Forall (fun _ => P) (rooms (step tx s ev)).
Proof.
  intros Hs. destruct ev as [|i rnd data|i|i]; simpl.
  - done.
  - destruct (clients s !! i) as [c|] eqn:Hc.
    + destruct data as [| |msg].
      * unfold on_message. by rewrite Hc.
      * unfold on_message. by rewrite Hc.
      * rewrite (on_message_parsed _ _ _ c) by done. simpl.
        by apply invariant_dispatch.
    + unfold on_message. by rewrite Hc.
  - by rewrite on_closing_rooms.
  - unfold on_close. destruct (clients s !! i) as [c|]; [| done].
    destruct (truthy (userId c) && truthy (roomId c)); [| done].
    rewrite getRoom_pair. simpl.
    apply map_Forall_insert_2; [apply P_delete |]; by apply invariant_getRoom.
Qed.

Lemma invariant_run tx (s : server) (evs : list event) :
  map_Forall (fun _ => P) (rooms s) → map_Forall (fun _ => P) (rooms (run tx s evs)).
Proof.
  revert s. induction evs as [|ev evs IH]; intros s Hs; [done |].
  simpl. apply IH. by apply invariant_step.
Qed.

Lemma invariant_running tx (evs : list event) (rid : jsval) :
  P (the_room (run tx initial evs) rid).
Proof.
  apply invariant_the_room, invariant_run. simpl. apply map_Forall_empty.
Qed.

End RoomInvariant.

Lemma undo_room_cases (r : room) :
  (history r = [] ∧ undo_room r = r)
  ∨ (∃ h last, history r = (h ++ [last])%list
       ∧ undo_room r = {| users := users r; history := h;
                          redoStack := (redoStack r ++ [last])%list |}).
Proof.
  unfold undo_room.
  destruct (pop_cases (history r)) as [[Hh Hp] | (x & h & Hh & Hp)]; rewrite Hp.
  - left. done.
  - right. by exists h, x.
Qed.

Lemma redo_room_cases (r : room) :
  (redoStack r = [] ∧ redo_room r = r)
  ∨ (∃ rs top, redoStack r = (rs ++ [top])%list
       ∧ redo_room r = {| users := users r; history := (history r ++ [top])%list;
                          redoStack := rs |}).
Proof.
  unfold redo_room.
  destruct (pop_cases (redoStack r)) as [[Hh Hp] | (x & h & Hh & Hp)]; rewrite Hp.
  - left. done.
  - right. by exists h, x.
Qed.

(** X5. On the running server no user is listed twice in a roster:
    whatever the events since the start, the user identifiers of every
    room's roster are pairwise different (a [join] under an identifier
    already listed replaces that entry). *)
Theorem roster_one_entry_per_user tx (evs : list event) (rid : jsval) :
  one_entry_per_user (the_room (run tx initial evs) rid).
Proof.
  apply invariant_running; unfold one_entry_per_user; simpl; try done.
  - constructor.
  - intros r k v. apply map_set_NoDup.
  - intros r k. apply map_delete_NoDup.
  - intros r Hr. destruct (undo_room_cases r) as [[_ ->] | (h & x & _ & ->)]; done.
  - intros r Hr. destruct (redo_room_cases r) as [[_ ->] | (h & x & _ & ->)]; done.
Qed.

(** X6. On the running server a stroke is never empty: whatever the
    events since the start, every entry of every history and of every
    redo stack holds at least one segment. *)
Theorem strokes_never_empty tx (evs : list event) (rid : jsval) :
  whole_strokes (the_room (run tx initial evs) rid).
Proof.
  apply invariant_running; unfold whole_strokes; simpl; try done.
  - intros r st Hst [Hh _]. split; [| done].
    unfold push. apply Forall_app. split; [done |]. by apply Forall_singleton.
  - intros r [Hh Hr].
    destruct (undo_room_cases r) as [[_ ->] | (h & x & Eh & ->)]; [done |]. simpl.
    rewrite Eh in Hh. apply Forall_app in Hh as [Hh Hx].
    split; [done |]. apply Forall_app. by split.
  - intros r [Hh Hr].
    destruct (redo_room_cases r) as [[_ ->] | (rs & x & Er & ->)]; [done |]. simpl.
    rewrite Er in Hr. apply Forall_app in Hr as [Hr Hx].
    split; [| done]. apply Forall_app. by split.
Qed.

(** ** Connections under the message handler *)

Lemma dispatch_own_slot tx (s : server) (i : nat) (c : conn) (rnd : double) (msg : message) :
  clients s !! i = Some c →
  ∃ c', clients (dispatch tx s i c rnd msg).1 = <[i := c']> (clients s)
        ∧ readyState c' = readyState c.
Proof.
  intros Hc. unfold dispatch.
  assert (Hsame : ∃ c', clients s = <[i := c']> (clients s) ∧ readyState c' = readyState c).
  { exists c. by rewrite list_insert_id. }
  destruct (case_of (m_type msg)) as [[]|]; try done.
  - unfold case_join. rewrite getRoom_pair. simpl. by eexists.
  - simpl. by eexists.
  - unfold case_draw. rewrite getRoom_pair. simpl. by eexists.
  - unfold case_endStroke. rewrite getRoom_pair.
    destruct (0 <? length (currentStroke c)); simpl; [by eexists | done].
  - by rewrite case_undo_eq.
  - by rewrite case_redo_eq.
  - by rewrite case_clear_eq.
Qed.

Lemma on_message_own_slot tx (s : server) (i : nat) (rnd : double) (data : frame) :
  clients (on_message tx s i rnd data).1 = clients s
  ∨ ∃ c c', clients s !! i = Some c
            ∧ clients (on_message tx s i rnd data).1 = <[i := c']> (clients s)
            ∧ readyState c' = readyState c.
Proof.
  destruct (clients s !! i) as [c|] eqn:Hc.
  - destruct data as [| |msg].
    + left. unfold on_message. by rewrite Hc.
    + left. unfold on_message. by rewrite Hc.
    + right. rewrite (on_message_parsed _ _ _ c) by done. simpl.
      destruct (dispatch_own_slot tx s i c rnd msg Hc) as (c' & ? & ?).
      by exists c, c'.
  - left. unfold on_message. by rewrite Hc.
Qed.

Lemma on_message_length tx (s : server) (i : nat) (rnd : double) (data : frame) :
  length (clients (on_message tx s i rnd data).1) = length (clients s).
Proof.
  destruct (on_message_own_slot tx s i rnd data) as [-> | (c & c' & Hc & -> & Ho)];
    [done | apply length_insert].
Qed.

Lemma on_message_other tx (s : server) (i j : nat) (rnd : double) (data : frame) :
  j ≠ i → clients (on_message tx s j rnd data).1 !! i = clients s !! i.
Proof.
  intros Hne.
  destruct (on_message_own_slot tx s j rnd data) as [-> | (c & c' & Hc & -> & Ho)];
    [done |].
  by apply list_lookup_insert_ne.
Qed.

(** X7. A message handler opens and closes nothing and stays within
    its own connection: the server has as many connections after a
    message as before, every other connection is exactly as it was
    (socket, user, room and accumulator), and the [readyState] of the
    connection the message came in on is unchanged. *)
Theorem message_keeps_connections tx (s : server) (i : nat) (rnd : double) (data : frame) :
  length (clients (on_message tx s i rnd data).1) = length (clients s)
  ∧ (∀ j, j ≠ i → clients (on_message tx s i rnd data).1 !! j = clients s !! j)
  ∧ (∀ c, clients s !! i = Some c →
       ∃ c', clients (on_message tx s i rnd data).1 !! i = Some c'
             ∧ readyState c' = readyState c).
Proof.
  destruct (on_message_own_slot tx s i rnd data) as [-> | (c & c' & Hc & -> & Ho)].
  - split; [done |]. split; [done |]. intros c Hc. by exists c.
  - split; [apply length_insert |].
    split; [intros j Hne; by apply list_lookup_insert_ne |].
    intros c0 Hc0. exists c'. split; [by eapply slot_written | congruence].
Qed.


(** ** Strokes in the making *)

Lemma dispatch_startStroke tx (s : server) (i : nat) (c : conn) (rnd : double) (msg : message) :
  m_type msg = Str "startStroke" → dispatch tx s i c rnd msg = case_startStroke s i c.
Proof. intros H. unfold dispatch. by rewrite H. Qed.

Lemma on_close_slot tx (s : server) (i j : nat) (c : conn) :
  clients s !! i = Some c →
  ∃ c', clients (on_close tx s j).1 !! i = Some c'
        ∧ userId c' = userId c ∧ roomId c' = roomId c
        ∧ ws_roomId c' = ws_roomId c ∧ currentStroke c' = currentStroke c
        ∧ (j ≠ i → c' = c) ∧ (j = i → readyState c' = 3).
Proof.
  intros Hc. unfold on_close.
  destruct (clients s !! j) as [cj|] eqn:Hj;
    [| exists c; repeat split; try done; intros ->; congruence].
  assert (Hslot : ∀ rs, ∃ c',
    clients {| rooms := rs;
               clients := <[j := {| readyState := 3; ws_roomId := ws_roomId cj;
                                    ws_userId := ws_userId cj; userId := userId cj;
                                    userName := userName cj; userColor := userColor cj;
                                    roomId := roomId cj;
                                    currentStroke := currentStroke cj |}]> (clients s) |}
      !! i = Some c'
    ∧ userId c' = userId c ∧ roomId c' = roomId c
    ∧ ws_roomId c' = ws_roomId c ∧ currentStroke c' = currentStroke c
    ∧ (j ≠ i → c' = c) ∧ (j = i → readyState c' = 3)).
  { intros rs. simpl. destruct (decide (j = i)) as [-> | Hne].
    - rewrite Hc in Hj. injection Hj as <-. eexists.
      split; [by eapply slot_written |]. by repeat split.
    - exists c. rewrite list_lookup_insert_ne by done. by repeat split. }
  destruct (truthy (userId cj) && truthy (roomId cj)); [| apply Hslot].
  rewrite getRoom_pair. apply Hslot.
Qed.

(** One event that is no [join], [startStroke] or [endStroke] of the
    connection adds to its accumulator the segment it carries, if it is
    a [draw] of that connection, and nothing otherwise. *)
Lemma step_assembling tx (s : server) (ev : event) (i : nat) (c : conn) :
  clients s !! i = Some c →
  assembling i ev →
  ∃ c', clients (step tx s ev) !! i = Some c'
        ∧ userId c' = userId c ∧ roomId c' = roomId c
        ∧ currentStroke c' = (currentStroke c ++ assembled i (userId c) [ev])%list.
Proof.
  intros Hc (Hj & Hs & He).
  destruct ev as [|j rnd data|j|j]; simpl.
  - exists c. rewrite lookup_app_l by (by eapply lookup_lt_Some).
    by rewrite app_nil_r.
  - destruct (decide (j = i)) as [-> | Hne].
    + destruct data as [| |msg].
      * exists c. unfold on_message. rewrite Hc. simpl. by rewrite app_nil_r.
      * exists c. unfold on_message. rewrite Hc. simpl. by rewrite app_nil_r.
      * rewrite (on_message_parsed _ _ _ c) by done.
        unfold label_on in *. rewrite Nat.eqb_refl in *.
        unfold dispatch.
        destruct (case_of (m_type msg)) as [[]|]; try done; simpl;
          try (exists c; by rewrite app_nil_r).
        -- unfold case_draw. rewrite getRoom_pair. simpl.
           eexists. split; [by eapply slot_written | done].
        -- rewrite case_undo_eq. simpl. exists c. by rewrite app_nil_r.
        -- rewrite case_redo_eq. simpl. exists c. by rewrite app_nil_r.
        -- rewrite case_clear_eq. simpl. exists c. by rewrite app_nil_r.
    + exists c. rewrite on_message_other by done.
      assert (Hl : label_on i (EMessage j rnd data) = None).
      { unfold label_on. destruct data; try done.
        destruct (j =? i) eqn:E; [apply Nat.eqb_eq in E; done | done]. }
      destruct data as [| |msg]; simpl; rewrite ?app_nil_r; try done.
      simpl in Hl. rewrite Hl. by rewrite app_nil_r.
  - destruct (on_closing_keeps s j i c Hc) as (c' & Hc' & _ & _ & ? & _ & _ & ? & ? & _).
    exists c'. by rewrite app_nil_r.
  - destruct (on_close_slot tx s i j c Hc) as (c' & Hc' & ? & ? & _ & ? & _).
    exists c'. by rewrite app_nil_r.
Qed.

Lemma assembled_cons (i : nat) (uid : jsval) (ev : event) (evs : list event) :
  assembled i uid (ev :: evs) = (assembled i uid [ev] ++ assembled i uid evs)%list.
Proof.
  simpl. destruct ev as [|j rnd [| |msg]|j|j]; try done.
  by destruct (label_on i (EMessage j rnd (Parsed msg))) as [[]|].
Qed.

Lemma run_assembling tx (s : server) (evs : list event) (i : nat) (c : conn) :
  clients s !! i = Some c →
  Forall (assembling i) evs →
  ∃ c', clients (run tx s evs) !! i = Some c'
        ∧ userId c' = userId c ∧ roomId c' = roomId c
        ∧ currentStroke c' = (currentStroke c ++ assembled i (userId c) evs)%list.
Proof.
  revert s c. induction evs as [|ev evs IH]; intros s c Hc Hevs.
  - exists c. simpl. by rewrite app_nil_r.
  - inversion Hevs as [|? ? Hev Hrest]; subst.
    destruct (step_assembling tx s ev i c Hc Hev) as (c1 & Hc1 & Hu1 & Hr1 & Hs1).
    destruct (IH (step tx s ev) c1 Hc1 Hrest) as (c2 & Hc2 & Hu2 & Hr2 & Hs2).
    exists c2. split; [exact Hc2 |]. split; [congruence |]. split; [congruence |].
    rewrite Hs2, Hs1, Hu1, (assembled_cons i (userId c) ev evs). by rewrite app_assoc.
Qed.

(** X8. Stroke assembly survives interleaving. After a [startStroke]
    of a connection, let any events follow that are no [join],
    [startStroke] or [endStroke] of that connection: messages, joins,
    strokes, commands, connections and disconnections of the others
    included.  The [endStroke] of the connection then appends to the
    history of its room one entry, holding exactly the segments of its
    own [draw] messages in the order they came, and empties the redo
    stack; if it has drawn nothing, no room changes. *)
Theorem stroke_assembled_whole tx (s : server) (i : nat) (c : conn) (rnd0 rnd1 : double)
    (m0 m1 : message) (evs : list event) :
  clients s !! i = Some c →
  m_type m0 = Str "startStroke" →
  m_type m1 = Str "endStroke" →
  Forall (assembling i) evs →
  let s1 := (on_message tx s i rnd0 (Parsed m0)).1 in
  let s2 := run tx s1 evs in
  let s3 := (on_message tx s2 i rnd1 (Parsed m1)).1 in
  let st := assembled i (userId c) evs in
  (st ≠ [] →
     history (the_room s3 (roomId c)) = (history (the_room s2 (roomId c)) ++ [st])%list
     ∧ redoStack (the_room s3 (roomId c)) = [])
  ∧ (st = [] → ∀ rid, the_room s3 rid = the_room s2 rid).
Proof.
  intros Hc H0 H1 Hevs s1 s2 s3 st.
  assert (Hc1 : clients s1 !! i = Some (set_currentStroke c [])).
  { subst s1. rewrite (on_message_parsed _ _ _ c) by done.
    rewrite dispatch_startStroke by done. simpl. by eapply slot_written. }
  destruct (run_assembling tx s1 evs i _ Hc1 Hevs) as (c2 & Hc2 & Hu & Hr & Hs).
  simpl in Hu, Hr, Hs. fold s2 in Hc2. fold st in Hs.
  subst s3. rewrite (on_message_parsed _ _ _ c2) by done.
  rewrite dispatch_endStroke by done.
  unfold case_endStroke. rewrite getRoom_pair, Hs, Hr.
  split; intros Hst.
  - destruct st as [|a st']; [done |]. simpl.
    rewrite room_written. done.
  - rewrite Hst. simpl. intros rid. apply room_fetched.
Qed.

Lemma stroke_assembled_whole_witness :
  history (the_room
    (on_message reliable
       (run reliable (on_message reliable gallery 0 rnd_zero (Parsed (plain "startStroke"))).1
          [EMessage 0 rnd_zero (Parsed (draw_msg 5));
           EMessage 1 rnd_zero (Parsed (plain "startStroke"));
           EMessage 1 rnd_zero (Parsed (draw_msg 6));
           EMessage 0 rnd_zero (Parsed (draw_msg 7));
           EMessage 1 rnd_zero (Parsed (plain "endStroke"))])
       0 rnd_zero (Parsed (plain "endStroke"))).1 (Str "default"))
  = [[seg "alice" 1; seg "alice" 2]; [seg "bob" 6]; [seg "alice" 5; seg "alice" 7]].
Proof.
  assert (Hevs : Forall (assembling 0)
            [EMessage 0 rnd_zero (Parsed (draw_msg 5));
             EMessage 1 rnd_zero (Parsed (plain "startStroke"));
             EMessage 1 rnd_zero (Parsed (draw_msg 6));
             EMessage 0 rnd_zero (Parsed (draw_msg 7));
             EMessage 1 rnd_zero (Parsed (plain "endStroke"))]).
  { repeat (constructor; [cbv; intuition discriminate |]). constructor. }
  destruct (stroke_assembled_whole reliable gallery 0 alice_idle rnd_zero rnd_zero
              (plain "startStroke") (plain "endStroke") _ eq_refl eq_refl eq_refl Hevs)
    as [Hcommit _].
  destruct Hcommit as [Hh _]; [discriminate |].
  etrans; [exact Hh |]. vm_compute. reflexivity.
Defined.

(** ** Disconnection *)

Lemma broadcast_sent_open tx (cs : list conn) (rid : jsval) (m m' : out_msg) (j : nat) :
  (j, m') ∈ sent (broadcastToRoom tx cs rid m) →
  ∃ cj, cs !! j = Some cj ∧ readyState cj = 1 ∧ ws_roomId cj = rid.
Proof.
  intros H. apply recipients_elem.
  by apply (forEach_sent_served tx 0 cs rid m m').
Qed.

Lemma close_leaves_room_aux tx (s : server) (i : nat) (c : conn) (rid : jsval) :
  clients s !! i = Some c →
  history (the_room (on_close tx s i).1 rid) = history (the_room s rid)
  ∧ redoStack (the_room (on_close tx s i).1 rid) = redoStack (the_room s rid).
Proof.
  intros Hc. unfold on_close. rewrite Hc.
  destruct (truthy (userId c) && truthy (roomId c)); [| done].
  rewrite getRoom_pair. simpl.
  destruct (decide (rid = roomId c)) as [-> | Hne].
  - by rewrite room_written.
  - by rewrite room_untouched.
Qed.

(** X9. When a connection closes, no history and no redo stack
    changes, so a stroke it was assembling is never committed; the other
    connections are untouched and nothing is sent to the closed socket.
    If the connection had joined under a user identifier that is truthy,
    that user is taken off the roster of its room, no other room
    changes, and [userLeft] goes to the open connections of the room
    when their sockets accept it; otherwise no room changes and nothing
    is sent. *)
Theorem close_leaves_room tx (s : server) (i : nat) (c : conn) :
  clients s !! i = Some c →
  let s' := (on_close tx s i).1 in
  let e := (on_close tx s i).2 in
  (∀ rid, history (the_room s' rid) = history (the_room s rid)
          ∧ redoStack (the_room s' rid) = redoStack (the_room s rid))
  ∧ (∀ j, j ≠ i → clients s' !! j = clients s !! j)
  ∧ (∀ m, (i, m) ∉ sent e)
  ∧ (truthy (userId c) && truthy (roomId c) = true →
       users (the_room s' (roomId c))
         = map_delete (userId c) (users (the_room s (roomId c)))
       ∧ (one_entry_per_user (the_room s (roomId c)) →
            map_get (userId c) (users (the_room s' (roomId c))) = None)
       ∧ (∀ rid, rid ≠ roomId c → the_room s' rid = the_room s rid)
       ∧ (deliverable tx (clients s') (roomId c) →
            sent e = (fun j => (j, UserLeft (userId c)))
                       <$> recipients (clients s') (roomId c)))
  ∧ (truthy (userId c) && truthy (roomId c) = false → rooms s' = rooms s ∧ sent e = []).
Proof.
  intros Hc s' e.
  assert (Hothers : ∀ j, j ≠ i → clients s' !! j = clients s !! j).
  { intros j Hne. destruct (clients s !! j) as [cj|] eqn:Hj.
    - destruct (on_close_slot tx s j i cj Hj) as (c' & Hc' & _ & _ & _ & _ & Hsame & _).
      subst s'. rewrite Hc'. f_equal. apply Hsame. done.
    - subst s'. unfold on_close. rewrite Hc.
      destruct (truthy (userId c) && truthy (roomId c));
        [rewrite getRoom_pair |]; simpl; by rewrite list_lookup_insert_ne. }
  subst s' e. unfold on_close in *. rewrite Hc in *.
  destruct (truthy (userId c) && truthy (roomId c)) eqn:Hu.
  - rewrite getRoom_pair in *. simpl in *.
    split.
    { intros rid. destruct (decide (rid = roomId c)) as [-> | Hne].
      - by rewrite room_written.
      - by rewrite room_untouched. }
    split; [done |]. split.
    { intros m Hm. apply broadcast_sent_open in Hm as (cj & Hj & Ho & _).
      rewrite (slot_written _ _ c) in Hj by done. injection Hj as <-. done. }
    split; [| done]. intros _.
    rewrite room_written. simpl. split; [done |].
    split; [intros Hone; by apply map_get_delete_eq |].
    split; [intros rid Hne; by apply room_untouched |].
    intros Hok. by rewrite broadcast_reaches.
  - simpl in *. split; [done |]. split; [done |].
    split; [intros m Hm; by apply elem_of_nil in Hm |].
    split; [done |]. done.
Qed.

Lemma close_leaves_room_witness :
  users (the_room (on_close reliable studio 0).1 (Str "default"))
  = [(Str "bob", User (Str "Bob") (Str "#FF6B6B"))].
Proof.
  destruct (close_leaves_room reliable studio 0 alice_drawing eq_refl)
    as (_ & _ & _ & Hjoined & _).
  destruct (Hjoined eq_refl) as [Husers _].
  etrans; [exact Husers |]. vm_compute. reflexivity.
Defined.

(** ** What touches a room *)

Lemma room_after_write (s : server) (cs : list conn) (rid rid' : jsval) (r' : room) :
  the_room {| rooms := <[rid := r']> (getRoom (rooms s) rid).1; clients := cs |} rid'
  = if decide (rid' = rid) then r' else the_room s rid'.
Proof.
  case_decide as H; [subst; apply room_written | by apply room_untouched].
Qed.

Lemma dispatch_cursor tx (s : server) (i : nat) (c : conn) (rnd : double) (msg : message) :
  m_type msg = Str "cursor" → dispatch tx s i c rnd msg = case_cursor tx s c msg.
Proof. intros H. unfold dispatch. by rewrite H. Qed.

Lemma step_keeps_stacks tx (s : server) (ev : event) :
  ¬ edits_history ev →
  ∀ rid, history (the_room (step tx s ev) rid) = history (the_room s rid)
         ∧ redoStack (the_room (step tx s ev) rid) = redoStack (the_room s rid).
Proof.
  intros Hev rid. destruct ev as [|i rnd data|i|i]; simpl.
  - done.
  - destruct (clients s !! i) as [c|] eqn:Hc.
    + destruct data as [| |msg].
      * unfold on_message. by rewrite Hc.
      * unfold on_message. by rewrite Hc.
      * rewrite (on_message_parsed _ _ _ c) by done. simpl in *.
        unfold dispatch.
        destruct (case_of (m_type msg)) as [[]|]; try done; try (exfalso; tauto).
        -- unfold case_join. rewrite getRoom_pair. simpl.
           rewrite room_after_write. by case_decide; subst.
        -- unfold case_draw. rewrite getRoom_pair. simpl. by rewrite room_fetched.
    + unfold on_message. by rewrite Hc.
  - by rewrite on_closing_room.
  - destruct (clients s !! i) as [c|] eqn:Hc.
    + by apply (close_leaves_room_aux tx s i c).
    + unfold on_close. by rewrite Hc.
Qed.

(** X10. Only [endStroke], [undo], [redo] and [clear] edit the stacks:
    a connection, a socket closing or closed, a frame that is no
    message, and a [join], [startStroke], [draw] or [cursor] message
    leave the history and the redo stack of every room as they were. *)
Theorem stacks_edited_by_four_messages tx (s : server) (ev : event) :
  ¬ edits_history ev →
  ∀ rid, history (the_room (step tx s ev) rid) = history (the_room s rid)
         ∧ redoStack (the_room (step tx s ev) rid) = redoStack (the_room s rid).
Proof. apply step_keeps_stacks. Qed.

Lemma stacks_edited_by_four_messages_witness :
  history (the_room
    (step reliable gallery (EMessage 2 rnd_zero (Parsed (join_msg "carol" "Carol" "default"))))
    (Str "default"))
  = [[seg "alice" 1; seg "alice" 2]].
Proof.
  destruct (stacks_edited_by_four_messages reliable gallery
              (EMessage 2 rnd_zero (Parsed (join_msg "carol" "Carol" "default"))))
    with (rid := Str "default") as [Hh _].
  - cbv. intuition discriminate.
  - etrans; [exact Hh |]. vm_compute. reflexivity.
Defined.

(** X11. A message changes one room at most: after any frame on a
    connection, every room other than the one the connection then is
    in (the room just joined, for a [join]) is as before, roster,
    history and redo stack. *)
Theorem message_touches_one_room tx (s : server) (i : nat) (c : conn) (rnd : double)
    (data : frame) :
  clients s !! i = Some c →
  ∃ c', clients (on_message tx s i rnd data).1 !! i = Some c'
        ∧ ∀ rid, rid ≠ roomId c' →
            the_room (on_message tx s i rnd data).1 rid = the_room s rid.
Proof.
  intros Hc. destruct data as [| |msg].
  - exists c. unfold on_message. by rewrite Hc.
  - exists c. unfold on_message. by rewrite Hc.
  - rewrite (on_message_parsed _ _ _ c) by done. simpl. unfold dispatch.
    destruct (case_of (m_type msg)) as [[]|]; try (by exists c).
    + unfold case_join. rewrite getRoom_pair. simpl. eexists.
      split; [by eapply slot_written |]. simpl. intros rid Hne. by apply room_untouched.
    + simpl. eexists. split; [by eapply slot_written | done].
    + unfold case_draw. rewrite getRoom_pair. simpl. eexists.
      split; [by eapply slot_written |]. intros rid _. apply room_fetched.
    + unfold case_endStroke. rewrite getRoom_pair.
      destruct (0 <? length (currentStroke c)); simpl.
      * eexists. split; [by eapply slot_written |]. simpl.
        intros rid Hne. by apply room_untouched.
      * exists c. split; [done |]. intros rid _. apply room_fetched.
    + rewrite case_undo_eq. simpl. exists c. split; [done |].
      intros rid Hne. by apply room_untouched.
    + rewrite case_redo_eq. simpl. exists c. split; [done |].
      intros rid Hne. by apply room_untouched.
    + rewrite case_clear_eq. simpl. exists c. split; [done |].
      intros rid Hne. by apply room_untouched.
Qed.

Lemma message_touches_one_room_witness :
  the_room (on_message reliable gallery 2 rnd_zero (Parsed (join_msg "carol" "Carol" "loft"))).1
    (Str "default")
  = the_room gallery (Str "default").
Proof.
  destruct (message_touches_one_room reliable gallery 2 new_conn rnd_zero
              (Parsed (join_msg "carol" "Carol" "loft")) eq_refl) as (c' & Hc' & Hrooms).
  apply Hrooms. vm_compute in Hc'. injection Hc' as <-. discriminate.
Defined.

(** ** The stacks *)

Lemma timeline_undo (r : room) : timeline (undo_room r) = timeline r.
Proof.
  unfold timeline.
  destruct (undo_room_cases r) as [[_ ->] | (h & x & Eh & ->)]; [done |]. simpl.
  rewrite Eh, rev_unit. by rewrite <- app_assoc.
Qed.

Lemma timeline_redo (r : room) : timeline (redo_room r) = timeline r.
Proof.
  unfold timeline.
  destruct (redo_room_cases r) as [[_ ->] | (rs & x & Er & ->)]; [done |]. simpl.
  rewrite Er, rev_unit. by rewrite <- app_assoc.
Qed.

Lemma users_undo (r : room) : users (undo_room r) = users r.
Proof. by destruct (undo_room_cases r) as [[_ ->] | (h & x & _ & ->)]. Qed.

Lemma users_redo (r : room) : users (redo_room r) = users r.
Proof. by destruct (redo_room_cases r) as [[_ ->] | (h & x & _ & ->)]. Qed.

(** X12. [undo] and [redo] lose no stroke and reorder none: in every
    room the history followed by the undone strokes, last undone first,
    is the same list after the command as before, and so is the roster.
    One [undo] moves at most one stroke. *)
Theorem undo_redo_keep_timeline tx (s : server) (i : nat) (c : conn) (rnd : double)
    (msg : message) :
  clients s !! i = Some c →
  m_type msg = Str "undo" ∨ m_type msg = Str "redo" →
  let s' := (on_message tx s i rnd (Parsed msg)).1 in
  (∀ rid, timeline (the_room s' rid) = timeline (the_room s rid)
          ∧ users (the_room s' rid) = users (the_room s rid))
  ∧ (m_type msg = Str "undo" →
       length (history (the_room s' (roomId c)))
       = length (history (the_room s (roomId c))) - 1)
  ∧ (m_type msg = Str "redo" →
       length (redoStack (the_room s' (roomId c)))
       = length (redoStack (the_room s (roomId c))) - 1).
Proof.
  intros Hc Ht s'. subst s'.
  rewrite (on_message_parsed _ _ _ c) by done.
  destruct Ht as [Ht | Ht].
  - rewrite dispatch_undo by done. rewrite case_undo_eq. simpl.
    split; [| split; [| rewrite Ht; discriminate]].
    + intros rid. rewrite room_after_write. case_decide; [subst |done].
      by rewrite timeline_undo, users_undo.
    + intros _. rewrite room_written.
      destruct (undo_room_cases (the_room s (roomId c)))
        as [[E ->] | (h & x & E & ->)]; rewrite E; simpl; [done |].
      rewrite length_app. simpl. lia.
  - rewrite dispatch_redo by done. rewrite case_redo_eq. simpl.
    split; [| split; [rewrite Ht; discriminate |]].
    + intros rid. rewrite room_after_write. case_decide; [subst |done].
      by rewrite timeline_redo, users_redo.
    + intros _. rewrite room_written.
      destruct (redo_room_cases (the_room s (roomId c)))
        as [[E ->] | (h & x & E & ->)]; rewrite E; simpl; [done |].
      rewrite length_app. simpl. lia.
Qed.

Lemma undo_redo_keep_timeline_witness :
  timeline (the_room (on_message reliable gallery 0 rnd_zero (Parsed (plain "undo"))).1
              (Str "default"))
  = [[seg "alice" 1; seg "alice" 2]; [seg "bob" 3]].
Proof.
  destruct (undo_redo_keep_timeline reliable gallery 0 alice_idle rnd_zero (plain "undo")
              eq_refl (or_introl eq_refl)) as [Hkeep _].
  destruct (Hkeep (Str "default")) as [Ht _].
  etrans; [exact Ht |]. vm_compute. reflexivity.
Defined.

Lemma redo_undo_room (r : room) :
  redoStack r ≠ [] ∨ history r = [] → undo_room (redo_room r) = r.
Proof.
  destruct r as [u h rs]. simpl. intros Hr.
  destruct (pop_cases rs) as [[-> Hp] | (x & rs' & -> & Hp)].
  - destruct Hr as [? | ->]; [done |]. reflexivity.
  - unfold redo_room. simpl. rewrite Hp.
    unfold undo_room. simpl. by rewrite pop_push.
Qed.

(** X13. With a stroke waiting on the redo stack of a room, a [redo]
    followed at once by an [undo] on that room, from the same or from
    another connection of the room, gives the room back as it was:
    roster, history and redo stack. *)
Theorem redo_then_undo_restores tx (s : server) (i j : nat) (ci cj : conn)
    (rnd1 rnd2 : double) (mr mu : message) :
  clients s !! i = Some ci →
  clients s !! j = Some cj →
  roomId cj = roomId ci →
  m_type mr = Str "redo" →
  m_type mu = Str "undo" →
  redoStack (the_room s (roomId ci)) ≠ [] →
  let s1 := (on_message tx s i rnd1 (Parsed mr)).1 in
  let s2 := (on_message tx s1 j rnd2 (Parsed mu)).1 in
  the_room s2 (roomId ci) = the_room s (roomId ci).
Proof.
  intros Hi Hj Hrid Hr Hu Hpending s1 s2.
  assert (H1 : s1 = {| rooms := <[roomId ci := redo_room (the_room s (roomId ci))]>
                                  (getRoom (rooms s) (roomId ci)).1;
                       clients := clients s |}).
  { subst s1. rewrite (on_message_parsed _ _ _ ci) by done.
    rewrite dispatch_redo by done. by rewrite case_redo_eq. }
  subst s2. rewrite (on_message_parsed _ _ _ cj) by (by rewrite H1).
  rewrite dispatch_undo by done. rewrite case_undo_eq, Hrid. simpl.
  rewrite room_written, H1, room_written.
  apply redo_undo_room. by left.
Qed.

Lemma redo_then_undo_restores_witness :
  the_room (on_message reliable
              (on_message reliable gallery 0 rnd_zero (Parsed (plain "redo"))).1
              1 rnd_zero (Parsed (plain "undo"))).1 (Str "default")
  = the_room gallery (Str "default").
Proof.
  apply (redo_then_undo_restores reliable gallery 0 1 alice_idle bob_idle rnd_zero rnd_zero
           (plain "redo") (plain "undo")); try reflexivity.
  vm_compute. discriminate.
Defined.

(** X14. Right after a stroke is committed, an [undo] on the room, by
    whichever connection of the room, takes exactly that stroke back:
    the history is what it was before the commit and the redo stack
    holds that stroke alone; a [redo] instead finds nothing to bring
    back and leaves the room as the commit left it. *)
Theorem undo_or_redo_after_commit tx (s : server) (i j : nat) (ci cj : conn)
    (rnd0 rnd1 : double) (me mu mr : message) :
  clients s !! i = Some ci →
  currentStroke ci ≠ [] →
  m_type me = Str "endStroke" →
  clients (on_message tx s i rnd0 (Parsed me)).1 !! j = Some cj →
  roomId cj = roomId ci →
  m_type mu = Str "undo" →
  m_type mr = Str "redo" →
  let s1 := (on_message tx s i rnd0 (Parsed me)).1 in
  let su := (on_message tx s1 j rnd1 (Parsed mu)).1 in
  let sr := (on_message tx s1 j rnd1 (Parsed mr)).1 in
  history (the_room su (roomId ci)) = history (the_room s (roomId ci))
  ∧ redoStack (the_room su (roomId ci)) = [currentStroke ci]
  ∧ the_room sr (roomId ci) = the_room s1 (roomId ci).
Proof.
  intros Hi Hcur He Hj Hrid Hu Hr s1 su sr.
  assert (H1 : the_room s1 (roomId ci)
               = {| users := users (the_room s (roomId ci));
                    history := push (history (the_room s (roomId ci))) (currentStroke ci);
                    redoStack := [] |}).
  { subst s1. rewrite (on_message_parsed _ _ _ ci) by done.
    rewrite dispatch_endStroke by done.
    unfold case_endStroke. rewrite getRoom_pair.
    destruct (currentStroke ci) as [|a cur] eqn:E; [done |]. simpl.
    by rewrite room_written. }
  subst su sr. rewrite !(on_message_parsed _ _ _ cj) by done.
  rewrite dispatch_undo, dispatch_redo by done.
  rewrite case_undo_eq, case_redo_eq, Hrid. simpl.
  rewrite !room_written, H1.
  unfold undo_room, redo_room. simpl. by rewrite pop_push.
Qed.

Lemma undo_or_redo_after_commit_witness :
  redoStack (the_room
    (on_message reliable (on_message reliable studio 0 rnd_zero (Parsed (plain "endStroke"))).1
       1 rnd_zero (Parsed (plain "undo"))).1 (Str "default"))
  = [[seg "alice" 1; seg "alice" 2]].
Proof.
  assert (Hcur : currentStroke alice_drawing ≠ []) by discriminate.
  exact (proj1 (proj2 (undo_or_redo_after_commit reliable studio 0 1 alice_drawing
                         bob_idle rnd_zero rnd_zero (plain "endStroke") (plain "undo") (plain "redo")
                         eq_refl Hcur eq_refl eq_refl eq_refl eq_refl eq_refl))).
Defined.

(** ** Where messages go *)

Lemma sent_andThen (e1 e2 : effects) (d : nat * out_msg) :
  d ∈ sent (andThen e1 e2) → d ∈ sent e1 ∨ d ∈ sent e2.
Proof.
  unfold andThen. destruct (outcome e1); simpl; [| by left].
  by rewrite elem_of_app.
Qed.

(** X15. Nothing leaves the room. Whatever the frame and the transport,
    each message the handler sends goes either to an open connection
    whose socket is marked with the room the sender is then in, or, for
    the [joined] answer, to the sender itself: never to a closed socket
    of the broadcast, never to a connection of another room. *)
Theorem messages_stay_in_room tx (s : server) (i : nat) (c : conn) (rnd : double)
    (data : frame) (j : nat) (m : out_msg) :
  clients s !! i = Some c →
  (j, m) ∈ sent (on_message tx s i rnd data).2 →
  ∃ c', clients (on_message tx s i rnd data).1 !! i = Some c'
        ∧ ((∃ cj, clients (on_message tx s i rnd data).1 !! j = Some cj
                  ∧ readyState cj = 1 ∧ ws_roomId cj = roomId c')
           ∨ (j = i ∧ ∃ color roster h, m = Joined color roster h)).
Proof.
  intros Hc. destruct data as [| |msg].
  - unfold on_message. rewrite Hc. simpl. by intros ?%elem_of_nil.
  - unfold on_message. rewrite Hc. simpl. by intros ?%elem_of_nil.
  - rewrite (on_message_parsed _ _ _ c) by done. simpl. rewrite sent_try_catch.
    unfold dispatch. destruct (case_of (m_type msg)) as [[]|]; simpl;
      try (by intros ?%elem_of_nil).
    + unfold case_join. rewrite getRoom_pair. simpl.
      intros [Hm | Hm]%sent_andThen.
      * eexists. split; [by eapply slot_written |]. right.
        unfold ws_send in Hm. destruct (tx i); simpl in Hm;
          [by apply elem_of_nil in Hm |].
        apply list_elem_of_singleton in Hm. injection Hm as -> ->. by eauto.
      * eexists. split; [by eapply slot_written |]. left.
        by apply broadcast_sent_open in Hm.
    + unfold case_draw. rewrite getRoom_pair. simpl. intros Hm.
      eexists. split; [by eapply slot_written |]. left.
      by apply broadcast_sent_open in Hm.
    + unfold case_endStroke. rewrite getRoom_pair.
      destruct (0 <? length (currentStroke c)); simpl; by intros ?%elem_of_nil.
    + intros Hm. exists c. split; [done |]. left. by apply broadcast_sent_open in Hm.
    + rewrite case_undo_eq. simpl. intros Hm. exists c. split; [done |]. left.
      by apply broadcast_sent_open in Hm.
    + rewrite case_redo_eq. simpl. intros Hm. exists c. split; [done |]. left.
      by apply broadcast_sent_open in Hm.
    + rewrite case_clear_eq. simpl. intros Hm. exists c. split; [done |]. left.
      by apply broadcast_sent_open in Hm.
Qed.

Lemma messages_stay_in_room_witness :
  ∃ cj, clients gallery !! 1 = Some cj ∧ readyState cj = 1 ∧ ws_roomId cj = Str "default".
Proof.
  destruct (messages_stay_in_room reliable gallery 0 alice_idle rnd_zero
              (Parsed (plain "undo")) 1 (History [])) as (c' & Hc' & Hto).
  - reflexivity.
  - vm_compute. apply list_elem_of_further, list_elem_of_here.
  - vm_compute in Hc'. injection Hc' as <-.
    destruct Hto as [Hin | [Hne _]]; [exact Hin | discriminate].
Defined.

(** ** A send that throws *)

(** X16. A broadcast serves the open connections of the room in the
    order of [wss.clients] and stops at the first whose send throws:
    those before it have received the message, that one and all the
    later ones have not, and the broadcast ends by throwing exactly when
    some socket it serves throws.  What is sent is thus always a prefix
    of what a sound transport delivers. *)
Theorem broadcast_stops_at_first_throw tx (cs : list conn) (rid : jsval) (m : out_msg) :
  sent (broadcastToRoom tx cs rid m)
    = (fun j => (j, m)) <$> served_before_throw tx (recipients cs rid)
  ∧ (outcome (broadcastToRoom tx cs rid m) = Throw
     ↔ ∃ j, j ∈ recipients cs rid ∧ tx j = true)
  ∧ sent (broadcastToRoom tx cs rid m) `prefix_of` sent (broadcastToRoom reliable cs rid m).
Proof.
  destruct (forEach_until_throw tx 0 cs rid m) as [Hs Ho].
  split; [exact Hs |]. split; [exact Ho |].
  unfold broadcastToRoom. rewrite Hs.
  rewrite (proj1 (forEach_until_throw reliable 0 cs rid m)).
  fold (recipients cs rid). generalize (recipients cs rid). intros js.
  induction js as [|j js IH]; simpl; [apply prefix_nil |].
  destruct (tx j); simpl; [apply prefix_nil | by apply prefix_cons].
Qed.

(** * The pen of the client *)

Lemma stroke_protocol_app (b : bool) (o1 o2 : list pen_out) :
  stroke_protocol b (o1 ++ o2)
  = match stroke_protocol b o1 with
    | Some b' => stroke_protocol b' o2
    | None => None
    end.
Proof.
  revert b. induction o1 as [|o o1 IH]; intros b; [done |].
  destruct o; simpl; try apply IH; destruct b; try done; apply IH.
Qed.

Lemma pen_step_protocol (p : pen) (i : input) :
  stroke_protocol (isDrawing p) (pen_step p i).2 = Some (isDrawing (pen_step p i).1).
Proof.
  destruct i; simpl; try done.
  - unfold startDrawing. by destruct (isConnected p).
  - unfold onMove. destruct (isConnected p); simpl; [| done].
    destruct (isDrawing p) eqn:E; simpl;
      destruct (30 <? now - lastCursorSend p)%Z; simpl; by rewrite ?E.
  - unfold stopDrawing. by destruct (isDrawing p) eqn:E; simpl; rewrite ?E.
  - unfold stopDrawing. by destruct (isDrawing p) eqn:E; simpl; rewrite ?E.
Qed.

Lemma pen_run_cons (p : pen) (i : input) (ins : list input) :
  pen_run p (i :: ins)
  = ((pen_run (pen_step p i).1 ins).1,
     ((pen_step p i).2 ++ (pen_run (pen_step p i).1 ins).2)%list).
Proof.
  simpl. destruct (pen_step p i) as [p1 o1]. simpl.
  by destruct (pen_run p1 ins).
Qed.

(** X17. Whatever the inputs, what the pen dispatches follows the
    stroke protocol the server's accumulator expects: a segment or the
    end of a stroke is dispatched only while a stroke is open, that is
    after a [strokeStart] that no [strokeEnd] has followed yet; and the
    pen's [isDrawing] flag tells at every point whether one is open. *)
Theorem pen_follows_stroke_protocol (p : pen) (ins : list input) :
  stroke_protocol (isDrawing p) (pen_run p ins).2 = Some (isDrawing (pen_run p ins).1).
Proof.
  revert p. induction ins as [|i ins IH]; intros p; [done |].
  rewrite pen_run_cons. simpl.
  rewrite stroke_protocol_app, pen_step_protocol. apply IH.
Qed.

Lemma pen_step_last_send (p : pen) (i : input) :
  lastCursorSend (pen_step p i).1
  = match i with
    | MouseMove x y now =>
        if isConnected p && (30 <? now - lastCursorSend p)%Z then now
        else lastCursorSend p
    | _ => lastCursorSend p
    end.
Proof.
  destruct i; simpl; try done.
  - unfold startDrawing. by destruct (isConnected p).
  - unfold onMove. destruct (isConnected p); simpl; [| done].
    by destruct (isDrawing p); simpl; destruct (30 <? now - lastCursorSend p)%Z.
  - unfold stopDrawing. by destruct (isDrawing p).
  - unfold stopDrawing. by destruct (isDrawing p).
Qed.

Lemma pen_step_cursor (p : pen) (i : input) :
  List.filter is_cursor_event (pen_step p i).2
  = match i with
    | MouseMove x y now =>
        if isConnected p && (30 <? now - lastCursorSend p)%Z then [CursorAt x y] else []
    | _ => []
    end.
Proof.
  destruct i; simpl; try done.
  - unfold startDrawing. by destruct (isConnected p).
  - unfold onMove. destruct (isConnected p); simpl; [| done].
    by destruct (isDrawing p); simpl; destruct (30 <? now - lastCursorSend p)%Z.
  - unfold stopDrawing. by destruct (isDrawing p).
  - unfold stopDrawing. by destruct (isDrawing p).
Qed.

(** X18. The cursor is throttled: whatever the inputs and whatever the
    clock readings, a move sends the cursor only when the clock is more
    than 30 ms past the previous send (past [lastCursorSend] for the
    first), a move of a connected pen that is that late does send it,
    and nothing else sends it. *)
Theorem cursor_sends_are_spaced (p : pen) (ins : list input) :
  spaced (lastCursorSend p) (cursor_sends p ins)
  ∧ length (List.filter is_cursor_event (pen_run p ins).2) = length (cursor_sends p ins).
Proof.
  revert p. induction ins as [|i ins IH]; intros p; [done |].
  destruct (IH (pen_step p i).1) as [IHs IHl].
  rewrite pen_run_cons. simpl snd.
  rewrite List.filter_app, length_app, IHl, pen_step_cursor.
  rewrite pen_step_last_send in IHs.
  destruct i; simpl; try done.
  destruct (isConnected p && (30 <? now - lastCursorSend p)%Z) eqn:E; simpl; [| done].
  split; [| done]. split; [| done].
  apply andb_true_iff in E as [_ E]. by apply Z.ltb_lt in E.
Qed.

(** X19. While the page is not connected the pen ignores presses and
    moves: each leaves it exactly as it was and dispatches nothing, so
    no stroke is begun, no segment drawn and no cursor sent. *)
Theorem offline_pen_ignores_mouse (p : pen) (ins : list input) :
  isConnected p = false →
  Forall (fun i => is_press_or_move i = true) ins →
  pen_run p ins = (p, []).
Proof.
  intros Hoff Hins. induction Hins as [|i ins Hi Hins IH]; [done |].
  rewrite pen_run_cons.
  assert (Hstep : pen_step p i = (p, [])).
  { destruct i; try done; simpl.
    - unfold startDrawing. by rewrite Hoff.
    - unfold onMove. by rewrite Hoff. }
  rewrite Hstep. simpl. by rewrite IH.
Qed.

Lemma offline_pen_ignores_mouse_witness :
  pen_run new_pen [MouseDown (Num 3) (Num 4); MouseMove (Num 5) (Num 6) 100] = (new_pen, []).
Proof.
  apply offline_pen_ignores_mouse; [reflexivity |].
  repeat constructor.
Defined.

Lemma polyline_same (p q : pen) (x y : jsval) (pts : list (jsval * jsval)) :
  currentTool q = currentTool p → currentColor q = currentColor p →
  brushWidth q = brushWidth p → eraserWidth q = eraserWidth p →
  polyline q x y pts = polyline p x y pts.
Proof.
  intros Ht Hc Hb He. revert x y.
  induction pts as [|[x' y'] pts IH]; intros x y; simpl; [done |].
  unfold getCurrentWidth. by rewrite IH, Ht, Hc, Hb, He.
Qed.

Lemma stroke_events_app (o1 o2 : list pen_out) :
  stroke_events (o1 ++ o2) = (stroke_events o1 ++ stroke_events o2)%list.
Proof. apply List.filter_app. Qed.

Lemma drawing_pen_traces (p : pen) (pts : list (jsval * jsval * Z)) :
  isConnected p = true → isDrawing p = true →
  stroke_events (pen_run p (moves_through pts ++ [MouseUp])).2
    = (polyline p (lastX p) (lastY p) (map fst pts) ++ [StrokeEnd])%list
  ∧ isDrawing (pen_run p (moves_through pts ++ [MouseUp])).1 = false.
Proof.
  revert p. induction pts as [|[[x y] now] pts IH]; intros p Hon Hdraw.
  - simpl. unfold stopDrawing. by rewrite Hdraw.
  - change (moves_through (((x, y), now) :: pts) ++ [MouseUp])%list
      with (MouseMove x y now :: (moves_through pts ++ [MouseUp]))%list.
    rewrite pen_run_cons. cbn [fst snd].
    set (q := (pen_step p (MouseMove x y now)).1).
    assert (Hq : isConnected q = true ∧ isDrawing q = true
                 ∧ currentTool q = currentTool p ∧ currentColor q = currentColor p
                 ∧ brushWidth q = brushWidth p ∧ eraserWidth q = eraserWidth p
                 ∧ lastX q = x ∧ lastY q = y).
    { subst q. simpl. unfold onMove. rewrite Hon, Hdraw. simpl. by repeat split. }
    destruct Hq as (Hqon & Hqd & Ht & Hc & Hb & He & Hx & Hy).
    destruct (IH q Hqon Hqd) as [IHs IHd].
    split; [| exact IHd].
    rewrite stroke_events_app, IHs, Hx, Hy.
    rewrite (polyline_same p q) by done.
    simpl. unfold onMove. rewrite Hon, Hdraw. simpl.
    by destruct (30 <? now - lastCursorSend p)%Z.
Qed.

(** X20. A gesture becomes one stroke. On a connected pen, a press at
    a point, moves through further points and a release dispatch, in
    this order, one [strokeStart], one segment per move and one
    [strokeEnd]; the first segment starts at the point of the press,
    each next one where the one before ended, and all carry the tool,
    the colour and the width the pen had at the press.  The pen is not
    drawing afterwards. *)
Theorem gesture_is_one_stroke (p : pen) (x y : jsval) (pts : list (jsval * jsval * Z)) :
  isConnected p = true →
  stroke_events (pen_run p (MouseDown x y :: moves_through pts ++ [MouseUp])).2
    = (StrokeStart (currentTool p) (currentColor p) (getCurrentWidth p)
         :: polyline p x y (map fst pts) ++ [StrokeEnd])%list
  ∧ isDrawing (pen_run p (MouseDown x y :: moves_through pts ++ [MouseUp])).1 = false.
Proof.
  intros Hon. rewrite pen_run_cons. cbn [fst snd].
  set (q := (pen_step p (MouseDown x y)).1).
  assert (Hq : isConnected q = true ∧ isDrawing q = true
               ∧ currentTool q = currentTool p ∧ currentColor q = currentColor p
               ∧ brushWidth q = brushWidth p ∧ eraserWidth q = eraserWidth p
               ∧ lastX q = x ∧ lastY q = y).
  { subst q. simpl. unfold startDrawing. rewrite Hon. simpl. by repeat split. }
  destruct Hq as (Hqon & Hqd & Ht & Hc & Hb & He & Hx & Hy).
  destruct (drawing_pen_traces q pts Hqon Hqd) as [Hs Hd].
  split; [| exact Hd].
  rewrite stroke_events_app, Hs, Hx, Hy, (polyline_same p q) by done.
  simpl. unfold startDrawing. by rewrite Hon.
Qed.

Lemma gesture_is_one_stroke_witness :
  stroke_events
    (pen_run (pen_step new_pen (SetConnected true)).1
       (MouseDown (Num 1) (Num 1)
          :: moves_through [(Num 2, Num 3, 100%Z); (Num 5, Num 8, 110%Z)] ++ [MouseUp])).2
  = [StrokeStart (Str "stroke") (Str "#000000") (Num 2);
     DrawSeg (Str "stroke") (Num 1) (Num 1) (Num 2) (Num 3) (Str "#000000") (Num 2);
     DrawSeg (Str "stroke") (Num 2) (Num 3) (Num 5) (Num 8) (Str "#000000") (Num 2);
     StrokeEnd].
Proof.
  exact (proj1 (gesture_is_one_stroke (pen_step new_pen (SetConnected true)).1
                  (Num 1) (Num 1) [(Num 2, Num 3, 100%Z); (Num 5, Num 8, 110%Z)] eq_refl)).
Defined.

(** * Messages on their way to the canvas *)

Lemma cmap_set_elem {V : Type} (k : jsval) (v : V) (m : list (jsval * V)) :
  (k, v) ∈ cmap_set k v m.
Proof.
  induction m as [|[k' v'] m IH]; simpl; [apply list_elem_of_here |].
  destruct (fresh_eq k' k); [apply list_elem_of_here | by apply list_elem_of_further].
Qed.

(** X21. A [cursor] message changes nothing on the server and is
    relayed, with the sender's user identifier, name and colour, to
    every open connection of the sender's room, the sender's own
    included once it has joined.  The client whose [userId] the message
    carries drops it; every other client records the cursor as it
    decodes it, under the sender's identifier in [remoteCursors], draws
    it, and changes nothing else. *)
Theorem cursor_relayed tx (s : server) (i : nat) (c : conn) (rnd : double) (msg : message) :
  clients s !! i = Some c →
  m_type msg = Str "cursor" →
  deliverable tx (clients s) (roomId c) →
  let m := CursorMove (userId c) (userName c) (userColor c) (m_x msg) (m_y msg) in
  let cursor := CCursor (json (m_x msg)) (json (m_y msg)) (json (userName c))
                  (json (userColor c)) in
  (on_message tx s i rnd (Parsed msg)).1 = s
  ∧ sent (on_message tx s i rnd (Parsed msg)).2
    = (fun j => (j, m)) <$> recipients (clients s) (roomId c)
  ∧ (readyState c = 1 → joined c → (i, m) ∈ sent (on_message tx s i rnd (Parsed msg)).2)
  ∧ (∀ prop st, Str (this_userId st) = userId c →
       handleMessage prop st (json_msg m) = (st, [], Normal))
  ∧ (∀ prop st, Str (this_userId st) ≠ userId c →
       let st' := (handleMessage prop st (json_msg m)).1.1 in
       (handleMessage prop st (json_msg m)).2 = Normal
       ∧ (handleMessage prop st (json_msg m)).1.2
         = [OpDrawRemoteCursor (json (m_x msg)) (json (m_y msg)) (json (userName c))
              (json (userColor c))]
       ∧ remoteCursors st' = cmap_set (json (userId c)) cursor (remoteCursors st)
       ∧ (json (userId c), cursor) ∈ remoteCursors st'
       ∧ onlineUsers st' = onlineUsers st ∧ lastHistory st' = lastHistory st
       ∧ this_userId st' = this_userId st ∧ this_userColor st' = this_userColor st).
Proof.
  intros Hc Ht Hok m cursor. subst m cursor.
  rewrite (on_message_parsed _ _ _ c) by done.
  rewrite dispatch_cursor by done. unfold case_cursor. simpl.
  rewrite try_catch_reaches by done. simpl.
  split; [done |]. split; [done |]. split; [| split].
  - intros Ho Hj. by eapply sent_elem.
  - intros prop st Hme. rewrite strict_eq_json_Str, <- Hme. by rewrite strict_eq_refl.
  - intros prop st Hme. rewrite strict_eq_json_Str.
    destruct (strict_eq (userId c) (Str (this_userId st))) eqn:E.
    { apply strict_eq_true in E. congruence. }
    simpl. repeat split. apply cmap_set_elem.
Qed.

Lemma cursor_relayed_witness :
  sent (on_message reliable gallery 1 rnd_zero
          (Parsed (Message (Str "cursor") Undefined Undefined Undefined Undefined Undefined
                     (Num 240) (Inf false)))).2
  = [(0, CursorMove (Str "bob") (Str "Bob") (Str "#FF6B6B") (Num 240) (Inf false));
     (1, CursorMove (Str "bob") (Str "Bob") (Str "#FF6B6B") (Num 240) (Inf false))]
  ∧ remoteCursors
      (handleMessage (fun _ _ => Undefined)
         {| this_userId := "alice"; this_userColor := Str "#FF6B6B"; onlineUsers := [];
            remoteCursors := []; lastHistory := [] |}
         (json_msg (CursorMove (Str "bob") (Str "Bob") (Str "#FF6B6B") (Num 240)
                      (Inf false)))).1.1
    = [(Str "bob", CCursor (Num 240) Null (Str "Bob") (Str "#FF6B6B"))].
Proof.
  destruct (cursor_relayed reliable gallery 1 bob_idle rnd_zero
              (Message (Str "cursor") Undefined Undefined Undefined Undefined Undefined
                 (Num 240) (Inf false)))
    as (_ & Hsent & _ & _ & Hother); [reflexivity | reflexivity | by intros j _ |].
  split.
  - etrans; [exact Hsent |]. vm_compute. reflexivity.
  - destruct (Hother (fun _ _ => Undefined)
                {| this_userId := "alice"; this_userColor := Str "#FF6B6B";
                   onlineUsers := []; remoteCursors := []; lastHistory := [] |})
      as (_ & _ & Hrec & _); [discriminate |].
    etrans; [exact Hrec |]. reflexivity.
Defined.

(** X22. Seeing a stroke live and replaying it give the same drawing.
    For a stroke of another user whose segments all carry a truthy
    [data], the calls [handleMessage] makes for its [draw] messages,
    one after the other, are exactly the calls [redrawHistory] adds for
    that stroke at the end of a history; none of the [draw] handlers
    throws or changes the application. *)
Theorem live_drawing_matches_replay prop (st : app) (h : list stroke) (segments : stroke) :
  Forall (fun a => a_userId a ≠ Str (this_userId st) ∧ truthy (a_data a) = true) segments →
  redrawHistory prop (h ++ [segments])
  = (redrawHistory prop h
     ++ flat_map (fun a => (handleMessage prop st (Draw a)).1.2) segments)%list
  ∧ Forall (fun a => (handleMessage prop st (Draw a)).1.1 = st
                     ∧ (handleMessage prop st (Draw a)).2 = Normal) segments.
Proof.
  intros Hsegs. split.
  - unfold redrawHistory. rewrite List.flat_map_app. simpl.
    rewrite app_nil_r. do 2 f_equal.
    induction Hsegs as [|a segs [Hu Hd] Hsegs IH]; [done |]. simpl.
    rewrite IH. f_equal. rewrite Hd. simpl.
    destruct (strict_eq (a_userId a) (Str (this_userId st))) eqn:E.
    { apply strict_eq_true in E. done. }
    simpl. destruct (a_data a); try done.
  - induction Hsegs as [|a segs [Hu Hd] Hsegs IH]; constructor; [| done]. simpl.
    destruct (strict_eq (a_userId a) (Str (this_userId st))) eqn:E; [done |].
    simpl. by destruct (a_data a).
Qed.

Lemma live_drawing_matches_replay_witness :
  redrawHistory (fun _ _ => Num 7) [[seg "alice" 1]; [seg "bob" 3]]
  = (redrawHistory (fun _ _ => Num 7) [[seg "alice" 1]]
     ++ [OpRemoteDrawLine (Num 7) (Num 7) (Num 7) (Num 7) (Num 7) (Num 7) (Str "stroke")])%list.
Proof.
  assert (Hsegs : Forall (fun a => a_userId a ≠ Str "carol" ∧ truthy (a_data a) = true)
                    [seg "bob" 3]).
  { repeat constructor. discriminate. }
  exact (proj1 (live_drawing_matches_replay (fun _ _ => Num 7)
                  {| this_userId := "carol"; this_userColor := Null; onlineUsers := [];
                     remoteCursors := []; lastHistory := [] |}
                  [[seg "alice" 1]] [seg "bob" 3] Hsegs)).
Defined.

(** * Server and clients together: the roster *)

(** ** Delivery *)

Lemma deliver_length prop (xs : list app) (ds : list (nat * out_msg)) :
  length (deliver prop xs ds) = length xs.
Proof.
  revert xs. induction ds as [|d ds IH]; intros xs; [done |].
  simpl. rewrite IH. apply length_alter.
Qed.

Lemma deliver_lookup prop (xs : list app) (ds : list (nat * out_msg)) (j : nat) :
  deliver prop xs ds !! j
  = (fun a => handleMessages prop a (json_msg <$> inbox j ds)) <$> (xs !! j).
Proof.
  revert xs. induction ds as [|d ds IH]; intros xs.
  - simpl. by destruct (xs !! j).
  - change (deliver prop xs (d :: ds))
      with (deliver prop (alter (fun a => (handleMessage prop a (json_msg d.2)).1.1) d.1 xs)
              ds).
    rewrite IH. unfold inbox. simpl.
    destruct (d.1 =? j) eqn:E.
    + apply Nat.eqb_eq in E. subst j. rewrite list_lookup_alter_eq.
      by destruct (xs !! d.1).
    + apply Nat.eqb_neq in E. by rewrite list_lookup_alter_ne.
Qed.

Lemma inbox_broadcast (j : nat) (m : out_msg) (js : list nat) :
  NoDup js →
  inbox j ((fun k => (k, m)) <$> js) = if decide (j ∈ js) then [m] else [].
Proof.
  unfold inbox. induction js as [|k js IH]; intros Hjs.
  - by case_decide as H; [apply elem_of_nil in H |].
  - apply NoDup_cons in Hjs as [Hk Hjs]. cbn. destruct (k =? j) eqn:E.
    + apply Nat.eqb_eq in E. subst k. cbn. rewrite (IH Hjs).
      rewrite (decide_True (P := j ∈ j :: js)) by apply list_elem_of_here.
      by rewrite (decide_False (P := j ∈ js)).
    + apply Nat.eqb_neq in E. rewrite (IH Hjs).
      case_decide as H1; case_decide as H2; try done.
      * exfalso. apply H2. by apply list_elem_of_further.
      * apply elem_of_cons in H2 as [-> | ?]; done.
Qed.

Lemma inbox_elem (j : nat) (ds : list (nat * out_msg)) (m : out_msg) :
  m ∈ inbox j ds → (j, m) ∈ ds.
Proof.
  unfold inbox. induction ds as [|[k m'] ds IH]; simpl; [by intros ?%elem_of_nil |].
  destruct (k =? j) eqn:E; cbn.
  - apply Nat.eqb_eq in E. subst k. rewrite !elem_of_cons.
    intros [-> | H]; [by left | right; by apply IH].
  - intros H. apply list_elem_of_further. by apply IH.
Qed.

(** ** Values that cross the wire as they are *)

Lemma json_id (v : jsval) : json_safe v → json v = v.
Proof. by destruct v. Qed.

Lemma json_roster_id (roster : list (jsval * user)) :
  Forall json_safe_entry roster →
  map (fun e => (json e.1, json_user e.2)) roster = roster.
Proof.
  induction 1 as [|[k [n col]] roster (Hk & Hn & Hcol) _ IH]; [done |].
  cbn [map]. rewrite IH. unfold json_user. simpl in *. by rewrite !json_id.
Qed.

Lemma safe_entries_keys (m : list (jsval * user)) :
  Forall json_safe_entry m → Forall json_safe m.*1.
Proof. induction 1 as [|e m [He _] _ IH]; constructor; done. Qed.

Lemma assignColor_safe (rnd : double) : json_safe (assignColor rnd).
Proof.
  destruct (assignColor_cases rnd) as [-> | Hin]; [done |].
  unfold colors in Hin. repeat (apply elem_of_cons in Hin as [-> | Hin]; [done |]).
  by apply elem_of_nil in Hin.
Qed.

Lemma map_set_safe (k : jsval) (v : user) (m : list (jsval * user)) :
  json_safe_entry (k, v) → Forall json_safe_entry m → Forall json_safe_entry (map_set k v m).
Proof.
  intros Hkv. induction 1 as [|[k' v'] m He Hm IH]; simpl.
  - by constructor.
  - destruct (strict_eq k' k); by constructor.
Qed.

Lemma map_delete_safe (k : jsval) (m : list (jsval * user)) :
  Forall json_safe_entry m → Forall json_safe_entry (map_delete k m).
Proof.
  induction 1 as [|[k' v'] m He Hm IH]; simpl; [done |].
  destruct (strict_eq k' k); [done | by constructor].
Qed.

Lemma roster_silent_json (m : out_msg) : roster_silent m → roster_silent (json_msg m).
Proof. by destruct m. Qed.

(** ** What the messages do to the roster a client shows *)

Lemma handleMessages_silent prop (a : app) (ms : list out_msg) :
  Forall roster_silent ms → onlineUsers (handleMessages prop a ms) = onlineUsers a.
Proof.
  intros Hms. revert a. induction Hms as [|m ms Hm Hms IH]; intros a; [done |].
  change (handleMessages prop a (m :: ms))
    with (handleMessages prop (handleMessage prop a m).1.1 ms).
  rewrite IH. destruct m; try done; simpl.
  - destruct (negb (strict_eq (a_userId a0) (Str (this_userId a)))); [| done].
    by destruct (nullish (a_data a0)).
  - by destruct (strict_eq uid (Str (this_userId a))).
Qed.

Lemma fresh_eq_safe (k' k : jsval) :
  json_safe k' → json_safe k → fresh_eq k' k = strict_eq k' k.
Proof. by destruct k', k. Qed.

Lemma cmap_set_mirrors (k x n col : jsval) (cm : list (jsval * cuser))
    (sm : list (jsval * user)) :
  json_safe k → Forall json_safe sm.*1 →
  shown cm = listed sm →
  shown (cmap_set k (CUser x n col) cm) = listed (map_set k (User n col) sm).
Proof.
  intros Hk. revert cm. induction sm as [|[k' u] sm IH]; intros cm Hsm Hmirror.
  - by destruct cm.
  - destruct cm as [|[k'' v] cm]; [done |].
    injection Hmirror as -> Hn Hc Hrest.
    apply Forall_cons in Hsm as [Hk' Hsm]. simpl in Hk'. simpl.
    rewrite fresh_eq_safe by done.
    destruct (strict_eq k' k); simpl.
    + unfold shown, listed in *. simpl. by rewrite Hrest.
    + unfold shown, listed in *. simpl. rewrite Hn, Hc. f_equal. by apply IH.
Qed.

Lemma cmap_delete_mirrors (k : jsval) (cm : list (jsval * cuser))
    (sm : list (jsval * user)) :
  json_safe k → Forall json_safe sm.*1 →
  shown cm = listed sm →
  shown (cmap_delete k cm) = listed (map_delete k sm).
Proof.
  intros Hk. revert cm. induction sm as [|[k' u] sm IH]; intros cm Hsm Hmirror.
  - by destruct cm.
  - destruct cm as [|[k'' v] cm]; [done |].
    injection Hmirror as -> Hn Hc Hrest.
    apply Forall_cons in Hsm as [Hk' Hsm]. simpl in Hk'. simpl.
    rewrite fresh_eq_safe by done.
    destruct (strict_eq k' k); simpl; [done |].
    unfold shown, listed in *. simpl. rewrite Hn, Hc. f_equal. by apply IH.
Qed.

Lemma fresh_eq_true (k' k : jsval) : fresh_eq k' k = true → k' = k.
Proof.
  destruct k', k; unfold fresh_eq; intros H; try discriminate H;
    by apply strict_eq_true in H.
Qed.

Lemma cmap_set_new {V : Type} (k : jsval) (v : V) (m : list (jsval * V)) :
  k ∉ m.*1 → cmap_set k v m = (m ++ [(k, v)])%list.
Proof.
  induction m as [|[k' v'] m IH]; simpl; [done |].
  rewrite not_elem_of_cons. intros [Hne Hk].
  destruct (fresh_eq k' k) eqn:E; [apply fresh_eq_true in E; congruence |].
  by rewrite IH.
Qed.

Lemma cmap_of_pairs_NoDup {V : Type} (acc pairs : list (jsval * V)) :
  NoDup ((acc ++ pairs)%list).*1 →
  fold_left (fun m kv => cmap_set kv.1 kv.2 m) pairs acc = (acc ++ pairs)%list.
Proof.
  revert acc. induction pairs as [|[k v] pairs IH]; intros acc Hnd; simpl.
  - by rewrite app_nil_r.
  - assert (Hk : k ∉ acc.*1).
    { rewrite fmap_app in Hnd. apply NoDup_app in Hnd as (_ & Hdisj & _).
      intros Hin. apply (Hdisj k Hin). simpl. apply list_elem_of_here. }
    rewrite cmap_set_new by done. rewrite IH; rewrite <- app_assoc; done.
Qed.

Lemma joined_roster_mirrors (roster : list (jsval * user)) :
  NoDup roster.*1 →
  shown (cmap_of_pairs (map (fun u => (u.1, CUser u.1 (u_userName u.2) (u_color u.2))) roster))
  = listed roster.
Proof.
  intros Hnd. unfold cmap_of_pairs. rewrite cmap_of_pairs_NoDup.
  - unfold shown, listed. simpl. rewrite map_map. done.
  - simpl. rewrite <- list_fmap_compose.
    replace (fst ∘ (fun u : jsval * user => (u.1, CUser u.1 (u_userName u.2) (u_color u.2))))
      with (@fst jsval user) by done. done.
Qed.

(** The roster a client shows once it has handled the [joined] message
    that carries a roster, and then any [userJoined], as decoded. *)
Lemma joined_decoded_mirrors prop (a : app) (col : jsval) (roster : list (jsval * user))
    (h : list stroke) :
  NoDup roster.*1 → Forall json_safe_entry roster →
  shown (onlineUsers (handleMessage prop a (json_msg (Joined col roster h))).1.1)
  = listed roster.
Proof.
  intros Hnd Hsafe. unfold json_msg, handleMessage. cbn [fst onlineUsers].
  rewrite json_roster_id by done. by apply joined_roster_mirrors.
Qed.

Lemma userJoined_decoded_mirrors prop (a : app) (uid n col : jsval)
    (sm : list (jsval * user)) :
  json_safe uid → json_safe n → json_safe col → Forall json_safe_entry sm →
  shown (onlineUsers a) = listed sm →
  shown (onlineUsers (handleMessage prop a (json_msg (UserJoined uid n col))).1.1)
  = listed (map_set uid (User n col) sm).
Proof.
  intros Hu Hn Hc Hsm Hmirror. simpl. rewrite !json_id by done.
  apply cmap_set_mirrors; [done | by apply safe_entries_keys | done].
Qed.

Lemma userLeft_decoded_mirrors prop (a : app) (uid : jsval) (sm : list (jsval * user)) :
  json_safe uid → Forall json_safe_entry sm →
  shown (onlineUsers a) = listed sm →
  shown (onlineUsers (handleMessage prop a (json_msg (UserLeft uid))).1.1)
  = listed (map_delete uid sm).
Proof.
  intros Hu Hsm Hmirror. simpl. rewrite json_id by done.
  apply cmap_delete_mirrors; [done | by apply safe_entries_keys | done].
Qed.

Lemma map_set_twice (k : jsval) (v : user) (m : list (jsval * user)) :
  map_set k v (map_set k v m) = map_set k v m.
Proof.
  induction m as [|[k' v'] m IH]; simpl.
  - by rewrite strict_eq_refl.
  - destruct (strict_eq k' k) eqn:E; simpl.
    + by rewrite strict_eq_refl.
    + by rewrite E, IH.
Qed.

(** ** What the handlers do, on a sound transport *)

Lemma join_effects (s : server) (i : nat) (c : conn) (rnd : double) (msg : message) :
  clients s !! i = Some c →
  case_of (m_type msg) = Some LJoin →
  let rid := js_or (m_roomId msg) (Str "default") in
  let r' := {| users := map_set (m_userId msg) (User (m_userName msg) (assignColor rnd))
                          (users (the_room s rid));
               history := history (the_room s rid);
               redoStack := redoStack (the_room s rid) |} in
  let c' := {| readyState := readyState c; ws_roomId := rid; ws_userId := m_userId msg;
               userId := m_userId msg; userName := m_userName msg;
               userColor := assignColor rnd; roomId := rid;
               currentStroke := currentStroke c |} in
  on_message reliable s i rnd (Parsed msg)
  = ({| rooms := <[rid := r']> (getRoom (rooms s) rid).1;
        clients := <[i := c']> (clients s) |},
     {| sent := (i, Joined (assignColor rnd) (users r') (history r'))
                  :: ((fun j => (j, UserJoined (m_userId msg) (m_userName msg)
                                      (assignColor rnd)))
                        <$> recipients (<[i := c']> (clients s)) rid);
        logged := false; outcome := Normal |}).
Proof.
  intros Hc Hl rid r' c'. rewrite (on_message_parsed _ _ _ c) by done.
  unfold dispatch. rewrite Hl. unfold case_join. fold rid.
  rewrite getRoom_pair. simpl.
  rewrite broadcast_reaches by apply reliable_deliverable. done.
Qed.

Lemma slot_fields (cs : list conn) (i j : nat) (c c' cj' : conn) :
  cs !! i = Some c →
  readyState c' = readyState c → ws_roomId c' = ws_roomId c → userId c' = userId c →
  <[i := c']> cs !! j = Some cj' →
  ∃ cj, cs !! j = Some cj ∧ readyState cj' = readyState cj
        ∧ ws_roomId cj' = ws_roomId cj ∧ userId cj' = userId cj.
Proof.
  intros Hc Ho Hw Hu Hj. destruct (decide (i = j)) as [<- | Hne].
  - rewrite (slot_written _ _ c) in Hj by done. injection Hj as <-. by exists c.
  - rewrite list_lookup_insert_ne in Hj by done. by exists cj'.
Qed.

Lemma broadcast_reliable_elem (cs : list conn) (rid : jsval) (m : out_msg)
    (d : nat * out_msg) :
  d ∈ sent (try_catch (broadcastToRoom reliable cs rid m)) → d.2 = m.
Proof.
  rewrite try_catch_reaches by apply reliable_deliverable. simpl.
  by intros (j & -> & _)%list_elem_of_fmap.
Qed.

Lemma nonjoin_effects (s : server) (i : nat) (c : conn) (rnd : double) (msg : message) :
  clients s !! i = Some c →
  case_of (m_type msg) ≠ Some LJoin →
  (∀ rid, users (the_room (on_message reliable s i rnd (Parsed msg)).1 rid)
          = users (the_room s rid))
  ∧ (∀ d, d ∈ sent (on_message reliable s i rnd (Parsed msg)).2 → roster_silent d.2)
  ∧ (∀ j cj', clients (on_message reliable s i rnd (Parsed msg)).1 !! j = Some cj' →
       ∃ cj, clients s !! j = Some cj ∧ readyState cj' = readyState cj
             ∧ ws_roomId cj' = ws_roomId cj ∧ userId cj' = userId cj).
Proof.
  intros Hc Hl. rewrite (on_message_parsed _ _ _ c) by done. simpl.
  assert (Hsame : ∀ j cj', clients s !! j = Some cj' →
            ∃ cj, clients s !! j = Some cj ∧ readyState cj' = readyState cj
                  ∧ ws_roomId cj' = ws_roomId cj ∧ userId cj' = userId cj).
  { intros j cj' Hj. by exists cj'. }
  assert (Hslot : ∀ cur j cj', <[i := set_currentStroke c cur]> (clients s) !! j = Some cj' →
            ∃ cj, clients s !! j = Some cj ∧ readyState cj' = readyState cj
                  ∧ ws_roomId cj' = ws_roomId cj ∧ userId cj' = userId cj).
  { intros cur j cj'. by apply (slot_fields _ _ _ c). }
  unfold dispatch. destruct (case_of (m_type msg)) as [[]|]; try done.
  - simpl. split; [done |]. split; [by intros d ?%elem_of_nil | apply Hslot].
  - unfold case_draw. rewrite getRoom_pair. simpl.
    split; [intros rid; by rewrite room_fetched |].
    split; [| apply Hslot].
    intros d Hd. apply broadcast_reliable_elem in Hd. by rewrite Hd.
  - unfold case_endStroke. rewrite getRoom_pair.
    destruct (0 <? length (currentStroke c)); simpl.
    + split; [| split; [by intros d ?%elem_of_nil | apply Hslot]].
      intros rid. rewrite room_after_write. by case_decide; subst.
    + split; [intros rid; by rewrite room_fetched |].
      split; [by intros d ?%elem_of_nil | done].
  - simpl. split; [done |]. split; [| done].
    intros d Hd. apply broadcast_reliable_elem in Hd. by rewrite Hd.
  - rewrite case_undo_eq. simpl. split; [| split; [| done]].
    + intros rid. rewrite room_after_write. case_decide; [subst | done].
      apply users_undo.
    + intros d Hd. apply broadcast_reliable_elem in Hd. by rewrite Hd.
  - rewrite case_redo_eq. simpl. split; [| split; [| done]].
    + intros rid. rewrite room_after_write. case_decide; [subst | done].
      apply users_redo.
    + intros d Hd. apply broadcast_reliable_elem in Hd. by rewrite Hd.
  - rewrite case_clear_eq. simpl. split; [| split; [| done]].
    + intros rid. rewrite room_after_write. by case_decide; subst.
    + intros d Hd. apply broadcast_reliable_elem in Hd. by rewrite Hd.
  - simpl. split; [done |]. split; [by intros d ?%elem_of_nil | done].
Qed.

Lemma close_effects (s : server) (i : nat) (c : conn) :
  clients s !! i = Some c →
  let c' := {| readyState := 3; ws_roomId := ws_roomId c; ws_userId := ws_userId c;
               userId := userId c; userName := userName c; userColor := userColor c;
               roomId := roomId c; currentStroke := currentStroke c |} in
  on_close reliable s i
  = if truthy (userId c) && truthy (roomId c) then
      ({| rooms := <[roomId c := {| users := map_delete (userId c)
                                              (users (the_room s (roomId c)));
                                   history := history (the_room s (roomId c));
                                   redoStack := redoStack (the_room s (roomId c)) |}]>
                     (getRoom (rooms s) (roomId c)).1;
          clients := <[i := c']> (clients s) |},
       {| sent := (fun j => (j, UserLeft (userId c)))
                    <$> recipients (<[i := c']> (clients s)) (roomId c);
          logged := false; outcome := Normal |})
    else ({| rooms := rooms s; clients := <[i := c']> (clients s) |}, nothing).
Proof.
  intros Hc c'. unfold on_close. rewrite Hc.
  destruct (truthy (userId c) && truthy (roomId c)); [| done].
  rewrite getRoom_pair. simpl.
  rewrite broadcast_reaches by apply reliable_deliverable. done.
Qed.

(** ** Coherence is kept *)

Lemma coherent_initial : coherent initial_system.
Proof.
  split; [done |]. split.
  - intros rid. rewrite the_room_lookup. simpl. rewrite lookup_empty. simpl.
    split; constructor.
  - split; [intros j c | intros j c a]; simpl; by rewrite lookup_nil.
Qed.

Lemma coherent_connection prop (S : system) (a0 : app) :
  coherent S → coherent (sys_step prop S (SConnection a0)).
Proof.
  intros (Hlen & Hroster & Hprim & Hmirror). simpl.
  split; [| split; [| split]]; simpl.
  - rewrite !length_app. simpl. lia.
  - exact Hroster.
  - intros j c [Hj | [_ Hj]]%lookup_app_Some; [by eapply Hprim |].
    destruct (j - length (clients (srv S))); simpl in Hj; [by injection Hj as <- | done].
  - intros j c a [Hj | [_ Hj]]%lookup_app_Some Ha Ho Hw.
    + rewrite lookup_app_l in Ha
        by (rewrite Hlen; by eapply lookup_lt_Some).
      by eapply Hmirror.
    + destruct (j - length (clients (srv S))); simpl in Hj; [| done].
      injection Hj as <-. done.
Qed.

Lemma coherent_join prop (S : system) (i : nat) (c : conn) (rnd : double) (msg : message) :
  clients (srv S) !! i = Some c →
  case_of (m_type msg) = Some LJoin →
  json_safe (m_userId msg) → json_safe (m_userName msg) →
  coherent S → coherent (sys_step prop S (SMessage i rnd (Parsed msg))).
Proof.
  intros Hc Hl Huid Hname (Hlen & Hroster & Hprim & Hmirror).
  pose proof (join_effects (srv S) i c rnd msg Hc Hl) as He. cbv zeta in He.
  unfold sys_step. rewrite He. clear He.
  pose proof (assignColor_safe rnd) as Hcol.
  set (rid := js_or (m_roomId msg) (Str "default")).
  set (uid := m_userId msg) in *. set (n := m_userName msg) in *.
  set (col := assignColor rnd) in *.
  set (c' := {| readyState := readyState c; ws_roomId := rid; ws_userId := uid;
                userId := uid; userName := n; userColor := col; roomId := rid;
                currentStroke := currentStroke c |}).
  set (roster' := map_set uid (User n col) (users (the_room (srv S) rid))).
  destruct (Hroster rid) as [Hnd Hpr].
  assert (Hnd' : NoDup roster'.*1) by (by apply map_set_NoDup).
  assert (Hpr' : Forall json_safe_entry roster') by (by apply map_set_safe).
  split; [| split; [| split]]; cbn [srv apps fst snd sent clients].
  - rewrite deliver_length. by rewrite length_insert.
  - intros rid'. rewrite room_after_write. case_decide; [| apply Hroster]. done.
  - intros j cj Hj. destruct (decide (i = j)) as [<- | Hne].
    + rewrite (slot_written _ _ c) in Hj by done. by injection Hj as <-.
    + rewrite list_lookup_insert_ne in Hj by done. by eapply Hprim.
  - intros j cj a' Hj Ha' Ho Hw.
    rewrite deliver_lookup in Ha'.
    destruct (apps S !! j) as [a|] eqn:Ha; [| done]. injection Ha' as <-.
    assert (Hin : ∀ cj0, <[i := c']> (clients (srv S)) !! j = Some cj0 →
              readyState cj0 = 1 → ws_roomId cj0 = rid →
              j ∈ recipients (<[i := c']> (clients (srv S))) rid).
    { intros cj0 ? ? ?. apply recipients_elem. by exists cj0. }
    destruct (decide (i = j)) as [<- | Hne].
    + rewrite (slot_written _ _ c) in Hj by done. injection Hj as <-.
      unfold inbox. cbn [List.filter fst snd]. rewrite Nat.eqb_refl.
      rewrite fmap_cons.
      fold (inbox i ((fun j => (j, UserJoined uid n col))
                       <$> recipients (<[i := c']> (clients (srv S))) rid)).
      rewrite inbox_broadcast by apply recipients_NoDup.
      rewrite decide_True by (apply (Hin c'); [by eapply slot_written | done | done]).
      cbn [snd ws_roomId c']. rewrite room_written. cbn [users].
      change (handleMessages prop a
                (json_msg <$> [Joined col roster' (history (the_room (srv S) rid));
                               UserJoined uid n col]))
        with (handleMessage prop
                (handleMessage prop a
                   (json_msg (Joined col roster' (history (the_room (srv S) rid))))).1.1
                (json_msg (UserJoined uid n col))).1.1.
      rewrite (userJoined_decoded_mirrors prop _ uid n col roster') by
        (try done; by apply joined_decoded_mirrors).
      unfold roster'. by rewrite map_set_twice.
    + rewrite list_lookup_insert_ne in Hj by done.
      unfold inbox. cbn [List.filter fst snd].
      destruct (i =? j) eqn:E; [apply Nat.eqb_eq in E; done |].
      fold (inbox j ((fun j => (j, UserJoined uid n col))
                       <$> recipients (<[i := c']> (clients (srv S))) rid)).
      rewrite inbox_broadcast by apply recipients_NoDup.
      rewrite room_after_write.
      destruct (decide (ws_roomId cj = rid)) as [Hr | Hr].
      * rewrite decide_True
          by (apply (Hin cj); [by rewrite list_lookup_insert_ne | done | done]).
        change (handleMessages prop a (json_msg <$> [UserJoined uid n col]))
          with (handleMessage prop a (json_msg (UserJoined uid n col))).1.1.
        cbn [users]. apply userJoined_decoded_mirrors; try done.
        rewrite <- Hr. by eapply Hmirror.
      * rewrite decide_False.
        -- cbn. by eapply Hmirror.
        -- intros (c0 & Hc0 & _ & Hr0)%recipients_elem.
           rewrite list_lookup_insert_ne in Hc0 by done. congruence.
Qed.

Lemma coherent_nonjoin prop (S : system) (i : nat) (c : conn) (rnd : double) (msg : message) :
  clients (srv S) !! i = Some c →
  case_of (m_type msg) ≠ Some LJoin →
  coherent S → coherent (sys_step prop S (SMessage i rnd (Parsed msg))).
Proof.
  intros Hc Hl (Hlen & Hroster & Hprim & Hmirror).
  destruct (nonjoin_effects (srv S) i c rnd msg Hc Hl) as (Husers & Hsilent & Hconns).
  unfold sys_step.
  split; [| split; [| split]]; cbn [srv apps].
  - rewrite deliver_length.
    by rewrite on_message_length.
  - intros rid. rewrite Husers. apply Hroster.
  - intros j cj' Hj. destruct (Hconns j cj' Hj) as (cj & Hcj & _ & _ & ->).
    by eapply Hprim.
  - intros j cj' a' Hj Ha' Ho Hw.
    destruct (Hconns j cj' Hj) as (cj & Hcj & Ho' & Hw' & _).
    rewrite deliver_lookup in Ha'.
    destruct (apps S !! j) as [a|] eqn:Ha; [| done]. injection Ha' as <-.
    rewrite handleMessages_silent.
    + rewrite Husers, Hw'. eapply Hmirror; [done | done | congruence | congruence].
    + apply Forall_fmap, Forall_forall. intros m Hm%inbox_elem.
      apply roster_silent_json. by apply (Hsilent (j, m)).
Qed.

Lemma coherent_closing (S : system) (i : nat) :
  coherent S → coherent {| srv := on_closing (srv S) i; apps := apps S |}.
Proof.
  intros (Hlen & Hroster & Hprim & Hmirror).
  split; [| split; [| split]]; cbn [srv apps].
  - by rewrite on_closing_length.
  - intros rid. rewrite on_closing_room. apply Hroster.
  - intros j c' (c & Hc & _ & _ & -> & _)%on_closing_slot. by eapply Hprim.
  - intros j c' a (c & Hc & Hw & _ & _ & _ & _ & _ & _ & Hrs)%on_closing_slot Ha Ho Hne.
    rewrite on_closing_room, Hw.
    destruct Hrs as [Hrs | (_ & _ & Hrs)]; [| congruence].
    eapply Hmirror; [done | done | congruence | congruence].
Qed.

Lemma coherent_close prop (S : system) (i : nat) (c : conn) :
  clients (srv S) !! i = Some c →
  coherent S → coherent (sys_step prop S (SClose i)).
Proof.
  intros Hc (Hlen & Hroster & Hprim & Hmirror).
  pose proof (close_effects (srv S) i c Hc) as He. cbv zeta in He.
  unfold sys_step. rewrite He. clear He.
  set (c' := {| readyState := 3; ws_roomId := ws_roomId c; ws_userId := ws_userId c;
                userId := userId c; userName := userName c; userColor := userColor c;
                roomId := roomId c; currentStroke := currentStroke c |}).
  assert (Hslot : ∀ j cj', <[i := c']> (clients (srv S)) !! j = Some cj' →
            (j = i ∧ cj' = c') ∨ (j ≠ i ∧ clients (srv S) !! j = Some cj')).
  { intros j cj' Hj. destruct (decide (i = j)) as [<- | Hne].
    - left. rewrite (slot_written _ _ c) in Hj by done. by injection Hj as <-.
    - right. by rewrite list_lookup_insert_ne in Hj. }
  destruct (Hroster (roomId c)) as [Hnd Hpr].
  destruct (truthy (userId c) && truthy (roomId c));
    (split; [| split; [| split]]); cbn [srv apps fst snd sent clients].
  - rewrite deliver_length. by rewrite length_insert.
  - intros rid. rewrite room_after_write. case_decide; [| apply Hroster]. simpl.
    split; [by apply map_delete_NoDup | by apply map_delete_safe].
  - intros j cj' [[-> ->] | [_ Hj]]%Hslot; [exact (Hprim i c Hc) | by eapply Hprim].
  - intros j cj a' [[-> ->] | [Hne Hj]]%Hslot Ha' Ho Hw; [done |].
    rewrite deliver_lookup in Ha'.
    destruct (apps S !! j) as [a|] eqn:Ha; [| done]. injection Ha' as <-.
    rewrite inbox_broadcast by apply recipients_NoDup.
    rewrite room_after_write.
    destruct (decide (ws_roomId cj = roomId c)) as [Hr | Hr].
    + rewrite decide_True.
      * change (handleMessages prop a (json_msg <$> [UserLeft (userId c)]))
          with (handleMessage prop a (json_msg (UserLeft (userId c)))).1.1.
        cbn [users]. apply userLeft_decoded_mirrors; [by eapply Hprim | done |].
        rewrite <- Hr. by eapply Hmirror.
      * apply recipients_elem. exists cj.
        by rewrite list_lookup_insert_ne.
    + rewrite decide_False.
      * cbn. by eapply Hmirror.
      * intros (c0 & Hc0 & _ & Hr0)%recipients_elem.
        rewrite list_lookup_insert_ne in Hc0 by done. congruence.
  - cbn. by rewrite length_insert.
  - exact Hroster.
  - intros j cj' [[-> ->] | [_ Hj]]%Hslot; [exact (Hprim i c Hc) | by eapply Hprim].
  - intros j cj a' [[-> ->] | [Hne Hj]]%Hslot Ha' Ho Hw; [done |].
    cbn in Ha'. by eapply Hmirror.
Qed.

Lemma coherent_step prop (S : system) (ev : sys_event) :
  json_safe_user ev → coherent S → coherent (sys_step prop S ev).
Proof.
  intros Hev HS. destruct ev as [a0|i rnd data|i|i].
  - by apply coherent_connection.
  - destruct (clients (srv S) !! i) as [c|] eqn:Hc.
    + destruct data as [| |msg].
      * unfold sys_step, on_message. rewrite Hc. by destruct S.
      * unfold sys_step, on_message. rewrite Hc. by destruct S.
      * destruct (decide (case_of (m_type msg) = Some LJoin)) as [Hl | Hl].
        -- destruct (Hev Hl) as [Hu Hn]. by apply (coherent_join prop S i c).
        -- by apply (coherent_nonjoin prop S i c).
    + unfold sys_step, on_message. rewrite Hc. by destruct S.
  - by apply coherent_closing.
  - destruct (clients (srv S) !! i) as [c|] eqn:Hc.
    + by apply (coherent_close prop S i c).
    + unfold sys_step, on_close. rewrite Hc. by destruct S.
Qed.

Lemma coherent_run prop (S : system) (evs : list sys_event) :
  Forall json_safe_user evs → coherent S → coherent (sys_run prop S evs).
Proof.
  intros Hevs. revert S. induction Hevs as [|ev evs Hev Hevs IH]; intros S HS; [done |].
  simpl. apply IH. by apply coherent_step.
Qed.

(** X23. Every client shows the roster of its room. Start the server
    and let pages connect, frames arrive and sockets start closing and
    close in any order, each client decoding and handling the messages
    sent to its connection in the order they are sent, over a transport
    on which no send throws, and no [join] naming its user, or giving
    the user's name, by an array, an object or a number too large for a
    double.  Then at every moment the list of users shown by the client
    of an open connection that has joined is the roster the server
    holds for that connection's room: the same users in the same order,
    each with the same name and colour. *)
Theorem clients_show_the_roster prop (evs : list sys_event) (j : nat) (c : conn) (a : app) :
  Forall json_safe_user evs →
  clients (srv (sys_run prop initial_system evs)) !! j = Some c →
  apps (sys_run prop initial_system evs) !! j = Some a →
  readyState c = 1 →
  ws_roomId c ≠ Undefined →
  shown (onlineUsers a)
  = listed (users (the_room (srv (sys_run prop initial_system evs)) (ws_roomId c))).
Proof.
  intros Hevs Hc Ha Ho Hw.
  destruct (coherent_run prop initial_system evs Hevs coherent_initial)
    as (_ & _ & _ & Hmirror).
  by eapply Hmirror.
Qed.

Lemma clients_show_the_roster_witness :
  let page := {| this_userId := "user_b"; this_userColor := Null; onlineUsers := [];
                 remoteCursors := []; lastHistory := [] |} in
  let S := sys_run (fun _ _ => Undefined) initial_system
             [SConnection page;
              SMessage 0 rnd_zero (Parsed (join_msg "alice" "Alice" "default"));
              SConnection page;
              SMessage 1 rnd_zero (Parsed (join_msg "bob" "Bob" "default"));
              SClosing 0;
              SClose 0] in
  shown (onlineUsers (default page (apps S !! 1)))
  = listed (users (the_room (srv S) (Str "default"))).
Proof.
  intros page S.
  assert (Hevs : Forall json_safe_user
            [SConnection page;
             SMessage 0 rnd_zero (Parsed (join_msg "alice" "Alice" "default"));
             SConnection page;
             SMessage 1 rnd_zero (Parsed (join_msg "bob" "Bob" "default"));
             SClosing 0;
             SClose 0]).
  { repeat (constructor; [cbv; tauto |]). constructor. }
  assert (Hne : ws_roomId bob_idle ≠ Undefined) by discriminate.
  destruct (apps S !! 1) as [a|] eqn:Ha; [| by vm_compute in Ha].
  exact (clients_show_the_roster (fun _ _ => Undefined) _ 1 bob_idle a Hevs
           eq_refl Ha eq_refl Hne).
Defined.

(** The hypothesis on the [join] frames is needed.  A user who joins
    under the identifier [1e999] is listed under [Infinity] by the
    server and under [null] by the clients. *)
Example infinite_userId_is_shown_as_null :
  let page := {| this_userId := "user_b"; this_userColor := Null; onlineUsers := [];
                 remoteCursors := []; lastHistory := [] |} in
  let S := sys_run (fun _ _ => Undefined) initial_system
             [SConnection page;
              SMessage 0 rnd_zero
                (Parsed (Message (Str "join") (Inf false) (Str "Alice") (Str "default")
                           Undefined Undefined Undefined Undefined))] in
  (users (the_room (srv S) (Str "default"))).*1 = [Inf false]
  ∧ (onlineUsers <$> apps S !! 0) = Some [(Null, CUser Undefined (Str "Alice") (Str "#FF6B6B"))].
Proof. by vm_compute. Qed.

(** * Connections on the running server *)

Section ConnInvariant.

(** A property of connections that a new connection has, that every
    change a handler makes to a connection keeps, and that does not
    depend on the state of the socket. *)
Variable Q : conn -> Prop.
Hypothesis Q_new : Q new_conn.
Hypothesis Q_join : ∀ c uid uname color rid, Q c →
  Q {| readyState := readyState c; ws_roomId := js_or rid (Str "default");
       ws_userId := uid; userId := uid; userName := uname; userColor := color;
       roomId := js_or rid (Str "default"); currentStroke := currentStroke c |}.
Hypothesis Q_stroke : ∀ c cur, Q c → Q (set_currentStroke c cur).
Hypothesis Q_state : ∀ c state, Q c →
  Q {| readyState := state; ws_roomId := ws_roomId c; ws_userId := ws_userId c;
       userId := userId c; userName := userName c; userColor := userColor c;
       roomId := roomId c; currentStroke := currentStroke c |}.

Lemma conn_invariant_insert (cs : list conn) (i : nat) (c' : conn) :
  Forall Q cs → Q c' → Forall Q (<[i := c']> cs).
Proof.
  intros Hcs Hc'. apply Forall_forall. intros x Hx.
  apply list_elem_of_lookup in Hx as [j Hj].
  destruct (decide (i = j)) as [<- | Hne].
  - destruct (cs !! i) as [c|] eqn:Hc.
    + rewrite (slot_written _ _ c) in Hj by done. by injection Hj as <-.
    + apply lookup_ge_None in Hc. rewrite list_insert_ge in Hj by done.
      eapply Forall_forall; [exact Hcs |]. apply list_elem_of_lookup. by exists i.
  - rewrite list_lookup_insert_ne in Hj by done.
    eapply Forall_forall; [exact Hcs |]. apply list_elem_of_lookup. by exists j.
Qed.

Lemma conn_invariant_step tx (s : server) (ev : event) :
  Forall Q (clients s) → Forall Q (clients (step tx s ev)).
Proof.
  intros Hs. destruct ev as [|i rnd data|i|i]; simpl.
  - apply Forall_app. split; [done |]. by apply Forall_singleton.
  - destruct (clients s !! i) as [c|] eqn:Hc.
    + assert (Hq : Q c).
      { eapply Forall_forall; [exact Hs |]. apply list_elem_of_lookup. by exists i. }
      destruct data as [| |msg].
      * unfold on_message. by rewrite Hc.
      * unfold on_message. by rewrite Hc.
      * rewrite (on_message_parsed _ _ _ c) by done. simpl. unfold dispatch.
        destruct (case_of (m_type msg)) as [[]|]; try done.
        -- unfold case_join. rewrite getRoom_pair. simpl.
           apply conn_invariant_insert; [done | by apply Q_join].
        -- simpl. apply conn_invariant_insert; [done | by apply Q_stroke].
        -- unfold case_draw. rewrite getRoom_pair. simpl.
           apply conn_invariant_insert; [done | by apply Q_stroke].
        -- unfold case_endStroke. rewrite getRoom_pair.
           destruct (0 <? length (currentStroke c)); simpl; [| done].
           apply conn_invariant_insert; [done | by apply Q_stroke].
        -- by rewrite case_undo_eq.
        -- by rewrite case_redo_eq.
        -- by rewrite case_clear_eq.
    + unfold on_message. by rewrite Hc.
  - unfold on_closing. destruct (clients s !! i) as [c|] eqn:Hc; [| done].
    assert (Hq : Q c).
    { eapply Forall_forall; [exact Hs |]. apply list_elem_of_lookup. by exists i. }
    destruct (readyState c =? 1); [| done]. simpl.
    apply conn_invariant_insert; [done | by apply Q_state].
  - unfold on_close. destruct (clients s !! i) as [c|] eqn:Hc; [| done].
    assert (Hq : Q c).
    { eapply Forall_forall; [exact Hs |]. apply list_elem_of_lookup. by exists i. }
    destruct (truthy (userId c) && truthy (roomId c)); [rewrite getRoom_pair |]; simpl;
      (apply conn_invariant_insert; [done | by apply Q_state]).
Qed.

Lemma conn_invariant_running tx (evs : list event) :
  Forall Q (clients (run tx initial evs)).
Proof.
  induction evs as [|ev evs IH] using rev_ind; [constructor |].
  rewrite run_snoc. by apply conn_invariant_step.
Qed.

End ConnInvariant.

Lemma js_or_truthy (v : jsval) : truthy (js_or v (Str "default")) = true.
Proof. unfold js_or. by destruct (truthy v) eqn:E. Qed.

(** X24. On the running server every connection is well formed,
    whatever the events since the start and whatever the state of its
    socket: the room of its handler is truthy (so the test
    [userId && roomId] of the close handler turns on the user alone),
    and either it has not joined, is in "default" and has no user, or it
    has joined and its socket carries the very room and user of its
    handler. *)
Theorem connections_well_formed tx (evs : list event) (i : nat) (c : conn) :
  clients (run tx initial evs) !! i = Some c → well_formed c.
Proof.
  intros Hc.
  assert (Hall : Forall well_formed (clients (run tx initial evs))).
  { apply conn_invariant_running; unfold well_formed.
    - split; [done |]. left. by repeat split.
    - intros c0 uid uname color rid _. simpl.
      split; [apply js_or_truthy |]. right. by split.
    - intros c0 cur H. exact H.
    - intros c0 state H. exact H. }
  eapply Forall_forall; [exact Hall |]. apply list_elem_of_lookup. by exists i.
Qed.

Lemma connections_well_formed_witness :
  well_formed bob_idle
  ∧ well_formed {| readyState := 2; ws_roomId := Str "default"; ws_userId := Str "alice";
                   userId := Str "alice"; userName := Str "Alice";
                   userColor := Str "#FF6B6B"; roomId := Str "default";
                   currentStroke := [] |}.
Proof.
  split.
  - apply (connections_well_formed reliable gallery_events 1). reflexivity.
  - apply (connections_well_formed reliable (gallery_events ++ [EClosing 0]) 0).
    reflexivity.
Defined.

(** * From the gesture to the history *)

Lemma drawing_pen_outputs (p : pen) (pts : list (jsval * jsval * Z)) :
  isConnected p = true → isDrawing p = true →
  ∃ mid, (pen_run p (moves_through pts ++ [MouseUp])).2 = (mid ++ [StrokeEnd])%list
         ∧ Forall (fun o => is_move_out o = true) mid
         ∧ stroke_events mid = polyline p (lastX p) (lastY p) (map fst pts).
Proof.
  revert p. induction pts as [|[[x y] now] pts IH]; intros p Hon Hdraw.
  - exists []. simpl. unfold stopDrawing. rewrite Hdraw. by repeat split.
  - change (moves_through (((x, y), now) :: pts) ++ [MouseUp])%list
      with (MouseMove x y now :: (moves_through pts ++ [MouseUp]))%list.
    rewrite pen_run_cons. cbn [fst snd].
    set (q := (pen_step p (MouseMove x y now)).1).
    assert (Hq : isConnected q = true ∧ isDrawing q = true
                 ∧ currentTool q = currentTool p ∧ currentColor q = currentColor p
                 ∧ brushWidth q = brushWidth p ∧ eraserWidth q = eraserWidth p
                 ∧ lastX q = x ∧ lastY q = y).
    { subst q. simpl. unfold onMove. rewrite Hon, Hdraw. simpl. by repeat split. }
    destruct Hq as (Hqon & Hqd & Ht & Hc & Hb & He & Hx & Hy).
    destruct (IH q Hqon Hqd) as (mid & Hout & Hmid & Hpoly).
    exists ((pen_step p (MouseMove x y now)).2 ++ mid)%list.
    rewrite Hout, app_assoc. split; [done |].
    assert (Hstep : (pen_step p (MouseMove x y now)).2
              = ((if (30 <? now - lastCursorSend p)%Z then [CursorAt x y] else [])
                 ++ [LocalLine (lastX p) (lastY p) x y (currentTool p);
                     DrawSeg (currentTool p) (lastX p) (lastY p) x y (currentColor p)
                       (getCurrentWidth p)])%list).
    { simpl. unfold onMove. rewrite Hon, Hdraw. simpl.
      by destruct (30 <? now - lastCursorSend p)%Z. }
    split.
    + apply Forall_app. split; [| done]. rewrite Hstep.
      destruct (30 <? now - lastCursorSend p)%Z; by repeat constructor.
    + rewrite stroke_events_app, Hpoly, Hx, Hy, (polyline_same p q) by done.
      rewrite Hstep. by destruct (30 <? now - lastCursorSend p)%Z.
Qed.

Lemma frames_app decoded_at (ws : option nat) (o1 o2 : list pen_out) :
  frames decoded_at ws (o1 ++ o2)
  = (frames decoded_at ws o1 ++ frames decoded_at ws o2)%list.
Proof. apply List.flat_map_app. Qed.

(** The frames of what the moves put out only add to the accumulator. *)
Lemma move_frames_assemble decoded_at (i : nat) (rnd : double) (uid : jsval)
    (mid : list pen_out) :
  Forall (fun o => is_move_out o = true) mid →
  Forall (assembling i)
    (map (fun m => EMessage i rnd (Parsed m)) (frames decoded_at (Some 1) mid))
  ∧ Forall (fun ev => ¬ edits_history ev)
      (map (fun m => EMessage i rnd (Parsed m)) (frames decoded_at (Some 1) mid))
  ∧ assembled i uid
      (map (fun m => EMessage i rnd (Parsed m)) (frames decoded_at (Some 1) mid))
    = map (recorded decoded_at uid) (stroke_events mid).
Proof.
  intros Hmid. unfold frames.
  induction Hmid as [|o mid Ho Hmid (IHa & IHe & IHs)].
  - by repeat split.
  - destruct o; try done; cbn in *.
    + split; [| split].
      * constructor; [| done]. unfold assembling, label_on. rewrite Nat.eqb_refl.
        by repeat split.
      * constructor; [| done]. cbn. intros [? | [? | [? | ?]]]; discriminate.
      * rewrite Nat.eqb_refl. by rewrite IHs.
    + split; [| split].
      * constructor; [| done]. unfold assembling, label_on. rewrite Nat.eqb_refl.
        by repeat split.
      * constructor; [| done]. cbn. intros [? | [? | [? | ?]]]; discriminate.
      * rewrite Nat.eqb_refl. exact IHs.
Qed.

Lemma run_keeps_stacks tx (s : server) (evs : list event) (rid : jsval) :
  Forall (fun ev => ¬ edits_history ev) evs →
  history (the_room (run tx s evs) rid) = history (the_room s rid)
  ∧ redoStack (the_room (run tx s evs) rid) = redoStack (the_room s rid).
Proof.
  intros Hevs. revert s. induction Hevs as [|ev evs Hev Hevs IH]; intros s; [done |].
  simpl. destruct (IH (step tx s ev)) as [-> ->]. by apply step_keeps_stacks.
Qed.

Lemma polyline_nonempty (p : pen) (x y : jsval) (pts : list (jsval * jsval)) :
  pts ≠ [] → polyline p x y pts ≠ [].
Proof. by destruct pts as [|[x' y'] pts]. Qed.

(** X25. From the gesture to the history. A press, moves through at
    least one further point and a release on a connected pen whose
    socket is open reach the server as frames which, handled in order,
    append to the history of the connection's room exactly one entry:
    one segment per move, in order, each under the connection's user
    and the pen's tool and holding the [detail] of its [draw] event;
    the redo stack of the room is emptied.  If the socket is missing or
    not open, nothing goes on the wire at all. *)
Theorem gesture_is_one_history_entry decoded_at tx (s : server) (i : nat) (c : conn)
    (rnd : double) (p : pen) (x y : jsval) (pts : list (jsval * jsval * Z)) :
  clients s !! i = Some c →
  isConnected p = true →
  pts ≠ [] →
  let outs := (pen_run p (MouseDown x y :: moves_through pts ++ [MouseUp])).2 in
  let s' := run tx s (map (fun m => EMessage i rnd (Parsed m))
                        (frames decoded_at (Some 1) outs)) in
  history (the_room s' (roomId c))
    = (history (the_room s (roomId c))
       ++ [map (recorded decoded_at (userId c)) (polyline p x y (map fst pts))])%list
  ∧ redoStack (the_room s' (roomId c)) = []
  ∧ (∀ ws, ws ≠ Some 1 → frames decoded_at ws outs = []).
Proof.
  intros Hc Hon Hpts outs s'.
  assert (Houts : ∃ mid,
            outs = (StrokeStart (currentTool p) (currentColor p) (getCurrentWidth p)
                      :: mid ++ [StrokeEnd])%list
            ∧ Forall (fun o => is_move_out o = true) mid
            ∧ stroke_events mid = polyline p x y (map fst pts)).
  { subst outs. rewrite pen_run_cons. cbn [fst snd].
    set (q := (pen_step p (MouseDown x y)).1).
    assert (Hq : isConnected q = true ∧ isDrawing q = true
                 ∧ currentTool q = currentTool p ∧ currentColor q = currentColor p
                 ∧ brushWidth q = brushWidth p ∧ eraserWidth q = eraserWidth p
                 ∧ lastX q = x ∧ lastY q = y).
    { subst q. simpl. unfold startDrawing. rewrite Hon. simpl. by repeat split. }
    destruct Hq as (Hqon & Hqd & Ht & Hcol & Hb & He & Hx & Hy).
    destruct (drawing_pen_outputs q pts Hqon Hqd) as (mid & Hout & Hmid & Hpoly).
    exists mid. rewrite Hout. split; [| split; [done |]].
    - simpl. unfold startDrawing. by rewrite Hon.
    - by rewrite Hpoly, Hx, Hy, (polyline_same p q). }
  destruct Houts as (mid & Houts & Hmid & Hpoly).
  set (start := Message (Str "startStroke") Undefined Undefined Undefined (currentTool p)
                  Undefined Undefined Undefined).
  set (stop := Message (Str "endStroke") Undefined Undefined Undefined Undefined
                 Undefined Undefined Undefined).
  set (evs := map (fun m => EMessage i rnd (Parsed m)) (frames decoded_at (Some 1) mid)).
  assert (Hrun : s' = (on_message tx
                         (run tx (on_message tx s i rnd (Parsed start)).1 evs)
                         i rnd (Parsed stop)).1).
  { subst s'. rewrite Houts.
    change (StrokeStart (currentTool p) (currentColor p) (getCurrentWidth p)
              :: mid ++ [StrokeEnd])%list
      with ([StrokeStart (currentTool p) (currentColor p) (getCurrentWidth p)]
              ++ (mid ++ [StrokeEnd]))%list.
    rewrite !frames_app, !map_app. unfold run. rewrite !fold_left_app. reflexivity. }
  destruct (move_frames_assemble decoded_at i rnd (userId c) mid Hmid)
    as (Hasm & Hkeep & Hrec).
  fold evs in Hasm, Hkeep, Hrec.
  set (s1 := (on_message tx s i rnd (Parsed start)).1) in *.
  assert (Hc1 : clients s1 !! i = Some (set_currentStroke c [])).
  { subst s1. rewrite (on_message_parsed _ _ _ c) by done.
    rewrite dispatch_startStroke by done. simpl. by eapply slot_written. }
  assert (Hs1 : ∀ rid, the_room s1 rid = the_room s rid).
  { intros rid. subst s1. rewrite (on_message_parsed _ _ _ c) by done.
    by rewrite dispatch_startStroke. }
  destruct (run_assembling tx s1 evs i _ Hc1 Hasm) as (c2 & Hc2 & Hu & Hr & Hcur).
  simpl in Hu, Hr, Hcur. rewrite Hrec, Hpoly in Hcur.
  destruct (run_keeps_stacks tx s1 evs (roomId c) Hkeep) as [Hh2 Hr2].
  assert (Hentry : map (recorded decoded_at (userId c)) (polyline p x y (map fst pts)) ≠ []).
  { destruct pts as [|[[x' y'] t'] pts]; done. }
  assert (Hcommit : the_room s' (roomId c)
            = {| users := users (the_room (run tx s1 evs) (roomId c));
                 history := push (history (the_room (run tx s1 evs) (roomId c)))
                              (map (recorded decoded_at (userId c))
                                 (polyline p x y (map fst pts)));
                 redoStack := [] |}).
  { rewrite Hrun. rewrite (on_message_parsed _ _ _ c2) by done.
    rewrite dispatch_endStroke by done.
    unfold case_endStroke. rewrite getRoom_pair, Hr, Hcur.
    destruct (map (recorded decoded_at (userId c)) (polyline p x y (map fst pts)));
      [done |].
    simpl. by rewrite room_written. }
  rewrite Hcommit. simpl. rewrite Hh2, Hs1. split; [done |]. split; [done |].
  intros ws Hws. unfold frames.
  assert (Hsend : ∀ m : message, app_send ws m = []).
  { intros m. destruct ws as [[|[|n]]|]; done. }
  clear -Hsend. induction outs as [|o outs IH]; [done |]. simpl.
  rewrite IH. by destruct (listener decoded_at o); rewrite ?Hsend.
Qed.

Lemma gesture_is_one_history_entry_witness :
  let at_x2 := fun o => match o with
                        | DrawSeg _ _ _ (Num n) _ _ _ => Z.to_nat n
                        | _ => 0
                        end in
  let pen1 := (pen_step new_pen (SetConnected true)).1 in
  history (the_room
    (run reliable gallery
       (map (fun m => EMessage 1 rnd_zero (Parsed m))
          (frames at_x2 (Some 1)
             (pen_run pen1
                (MouseDown (Num 1) (Num 1)
                   :: moves_through [(Num 2, Num 3, 100%Z); (Num 5, Num 8, 110%Z)]
                   ++ [MouseUp])).2)))
    (Str "default"))
  = [[seg "alice" 1; seg "alice" 2]; [seg "bob" 2; seg "bob" 5]].
Proof.
  intros at_x2 pen1.
  assert (Hpts : [(Num 2, Num 3, 100%Z); (Num 5, Num 8, 110%Z)] ≠ []) by discriminate.
  etrans; [exact (proj1 (gesture_is_one_history_entry at_x2 reliable gallery 1 bob_idle
                          rnd_zero pen1 (Num 1) (Num 1) _ eq_refl eq_refl Hpts)) |].
  vm_compute. reflexivity.
Defined.
